(** * Card-message engine: a shallow embedding of [src/validate.ts],
    [src/roles.ts] and [src/engine.ts], and the properties of the hard gate,
    the anchor selector, the JSON reader, the padding repair and the
    generation loop.

    JavaScript strings are sequences of UTF-16 code units; they are modelled
    as lists of code units ([N]).  Thrown [Error]s are modelled by their
    [message], which is all the engine ever reads of them. *)

From Stdlib Require Import String Ascii.
From Stdlib Require Import List NArith ZArith Lia Bool.
From Stdlib Require Decimal DecimalNat DecimalZ.
Import ListNotations.

Set Implicit Arguments.

(* ------------------------------------------------------------------ *)
(** * JavaScript strings *)
(* ------------------------------------------------------------------ *)

Module JsString.

Definition jsstring := list N.

(** An ASCII literal as code units. *)
Fixpoint js (s : string) : jsstring :=
  match s with
  | EmptyString => []
  | String a r => N_of_ascii a :: js r
  end.

(** The same, with every apostrophe of the literal standing for a double
    quote (code unit 34); used where the source text holds double quotes. *)
Definition jsq (s : string) : jsstring :=
  map (fun c => if N.eqb c 39 then 34%N else c) (js s).

Fixpoint eqb (a b : jsstring) : bool :=
  match a, b with
  | [], [] => true
  | x :: a', y :: b' => N.eqb x y && eqb a' b'
  | _, _ => false
  end.

(** Truthiness of a string ([Boolean(s)], [if (s)], [!s]). *)
Definition truthy (s : jsstring) : bool :=
  match s with [] => false | _ => true end.

(** WhiteSpace and LineTerminator code units: what [\s] matches and what
    [trim] strips. *)
Definition isSpace (c : N) : bool :=
  ((9 <=? c) && (c <=? 13) || (c =? 32) || (c =? 160) || (c =? 5760)
   || (8192 <=? c) && (c <=? 8202) || (c =? 8232) || (c =? 8233)
   || (c =? 8239) || (c =? 8287) || (c =? 12288) || (c =? 65279))%N.

(** [[.!?]] *)
Definition isTerminal (c : N) : bool :=
  ((c =? 46) || (c =? 33) || (c =? 63))%N.

(** [[0-9]] *)
Definition isDigit (c : N) : bool := ((48 <=? c) && (c <=? 57))%N.

(** [\w] without the unicode flag: [[A-Za-z0-9_]]. *)
Definition isWordChar (c : N) : bool :=
  ((65 <=? c) && (c <=? 90) || (97 <=? c) && (c <=? 122)
   || isDigit c || (c =? 95))%N.

Fixpoint dropWhile (p : N -> bool) (s : jsstring) : jsstring :=
  match s with
  | [] => []
  | c :: r => if p c then dropWhile p r else s
  end.

Definition trimStart (s : jsstring) : jsstring := dropWhile isSpace s.
Definition trimEnd (s : jsstring) : jsstring :=
  rev (dropWhile isSpace (rev s)).
Definition trim (s : jsstring) : jsstring := trimEnd (trimStart s).

(** [String.prototype.toLowerCase], one code unit at a time.  ASCII capitals,
    the Kelvin sign (U+212A, lower case [k]) and the dotted capital I
    (U+0130, lower case [i] followed by U+0307) are the only code units
    whose lower case holds an ASCII code unit, and U+0130 is the only one
    whose lower case has another length; they are mapped exactly.  The
    Latin-1 capitals are mapped as well.  Every other code unit is left as it
    is: its real lower case is made of non-ASCII, non-space code units, and
    the program compares lower-cased text with ASCII text only. *)
Definition lowerUnit (c : N) : jsstring :=
  (if (65 <=? c) && (c <=? 90) then [c + 32]
   else if c =? 304 then [105; 775]
   else if c =? 8490 then [107]
   else if (192 <=? c) && (c <=? 222) && negb (c =? 215) then [c + 32]
   else [c])%N.

Definition toLowerCase (s : jsstring) : jsstring := flat_map lowerUnit s.

Fixpoint startsWith (s p : jsstring) : bool :=
  match p, s with
  | [], _ => true
  | x :: p', y :: s' => N.eqb x y && startsWith s' p'
  | _ :: _, [] => false
  end.

Fixpoint includes (t k : jsstring) : bool :=
  startsWith t k || match t with [] => false | _ :: r => includes r k end.

(** [indexOf]: the first position at which [p] occurs. *)
Fixpoint indexOf (s p : jsstring) : option nat :=
  if startsWith s p then Some 0
  else match s with
       | [] => None
       | _ :: r => option_map S (indexOf r p)
       end.

(** [lastIndexOf]: the last position at which [p] occurs. *)
Fixpoint lastIndexOf (s p : jsstring) : option nat :=
  match s with
  | [] => if startsWith s p then Some 0 else None
  | _ :: r =>
      match lastIndexOf r p with
      | Some i => Some (S i)
      | None => if startsWith s p then Some 0 else None
      end
  end.

(** [s.slice(a, b)] for [0 <= a] and [0 <= b]. *)
Definition slice (s : jsstring) (a b : nat) : jsstring :=
  firstn (b - a) (skipn a s).

Fixpoint join (sep : jsstring) (l : list jsstring) : jsstring :=
  match l with
  | [] => []
  | [x] => x
  | x :: r => x ++ sep ++ join sep r
  end.

(** [s.split(/\s+/)]: the pieces between the maximal runs of white space. *)
Fixpoint splitSpaces (s : jsstring) : list jsstring :=
  match s with
  | [] => [[]]
  | c :: r =>
      if isSpace c then
        match r with
        | c' :: _ => if isSpace c' then splitSpaces r else [] :: splitSpaces r
        | [] => [] :: splitSpaces r
        end
      else
        match splitSpaces r with
        | p :: ps => (c :: p) :: ps
        | [] => [[c]]
        end
  end.

Definition headIsSpace (s : jsstring) : bool :=
  match s with c :: _ => isSpace c | [] => false end.

(** [s.split(/(?<=[.!?])\s+/)]: the string is cut at every run of white
    space that starts right after a [.], [!] or [?]; [skip] is on while such
    a run is being consumed. *)
Fixpoint splitSentencesFrom (skip : bool) (s : jsstring) : list jsstring :=
  match s with
  | [] => [[]]
  | c :: r =>
      if skip && isSpace c then splitSentencesFrom true r
      else if isTerminal c && headIsSpace r then [c] :: splitSentencesFrom true r
      else
        match splitSentencesFrom false r with
        | p :: ps => (c :: p) :: ps
        | [] => [[c]]
        end
  end.

Definition splitSentences (s : jsstring) : list jsstring :=
  splitSentencesFrom false s.

(** [s.replace(/\s+/g, " ")] *)
Fixpoint collapseSpaces (s : jsstring) : jsstring :=
  match s with
  | [] => []
  | c :: r =>
      if isSpace c then
        if headIsSpace r then collapseSpaces r else 32%N :: collapseSpaces r
      else c :: collapseSpaces r
  end.

(** Decimal digits of a natural number, as a template literal prints it. *)
Fixpoint digitsOf (d : Decimal.uint) : jsstring :=
  (match d with
   | Decimal.Nil => []
   | Decimal.D0 r => 48 :: digitsOf r
   | Decimal.D1 r => 49 :: digitsOf r
   | Decimal.D2 r => 50 :: digitsOf r
   | Decimal.D3 r => 51 :: digitsOf r
   | Decimal.D4 r => 52 :: digitsOf r
   | Decimal.D5 r => 53 :: digitsOf r
   | Decimal.D6 r => 54 :: digitsOf r
   | Decimal.D7 r => 55 :: digitsOf r
   | Decimal.D8 r => 56 :: digitsOf r
   | Decimal.D9 r => 57 :: digitsOf r
   end)%N.

Definition decimal (n : nat) : jsstring := digitsOf (Nat.to_uint n).

(** An integer-valued number, as a template literal prints it (exact below
    10^21, where JavaScript switches to exponent notation). *)
Definition decimalZ (z : Z) : jsstring :=
  match Z.to_int z with
  | Decimal.Pos d => digitsOf d
  | Decimal.Neg d => 45%N :: digitsOf d
  end.

End JsString.
Import JsString.

(* ------------------------------------------------------------------ *)
(** * Exceptions *)
(* ------------------------------------------------------------------ *)

(** A computation that returns a value or throws an [Error] with a message. *)
Inductive result (A : Type) : Type :=
| Ok (a : A)
| Throw (msg : jsstring).
Arguments Ok {A} a.
Arguments Throw {A} msg.

Definition bind {A B} (r : result A) (k : A -> result B) : result B :=
  match r with
  | Ok a => k a
  | Throw m => Throw m
  end.

Notation "x <- r ;; k" := (bind r (fun x => k))
  (at level 61, r at next level, right associativity).
Notation "r ;;; k" := (bind r (fun _ => k))
  (at level 61, right associativity).

(* ------------------------------------------------------------------ *)
(** * src/validate.ts *)
(* ------------------------------------------------------------------ *)

(** ["past" | "present" | "future"] *)
Inductive Role := Past | Present | Future.

Module Validate.

Definition wordCount (text : jsstring) : nat :=
  length (filter truthy (splitSpaces (trim text))).

(** The matches of [/[.!?](?=\s|$)/g]. *)
Fixpoint countTerminals (s : jsstring) : nat :=
  match s with
  | [] => 0
  | c :: r =>
      (if isTerminal c && match r with [] => true | c' :: _ => isSpace c' end
       then 1 else 0) + countTerminals r
  end.

Definition sentenceCount (text : jsstring) : nat :=
  countTerminals (trim text).

Definition DISCOURAGED_PHRASES : list jsstring :=
  [ js "be mindful"; js "reflect"; js "moving forward"; js "remember";
    js "this is a time"; js "appears to"; js "signify"; js "calling";
    js "ready for you to"; js "let the path unfold"; js "now it's time";
    js "the card suggests"; js "the card indicates"; js "this card appears";
    js "this card signifies" ].

Definition lintDiscouragedPhrases (text : jsstring) : list jsstring :=
  let t := toLowerCase text in
  filter (fun p => includes t p) DISCOURAGED_PHRASES.

Definition DISCOURAGED_IMPERATIVE_STARTS : list jsstring :=
  [ js "take "; js "try "; js "remember"; js "focus "; js "reflect";
    js "act "; js "choose "; js "commit "; js "consider "; js "embrace ";
    js "let "; js "allow " ].

Definition imperativeMessage (start : jsstring) : jsstring :=
  js "Imperative coaching detected: sentence starts with " ++
  [34%N] ++ trim start ++ [34%N].

(** The inner loop: the first listed start the sentence begins with. *)
Fixpoint checkStarts (s : jsstring) (starts : list jsstring) : result unit :=
  match starts with
  | [] => Ok tt
  | start :: rest =>
      if startsWith s start then Throw (imperativeMessage start)
      else checkStarts s rest
  end.

(** The outer loop over the sentences. *)
Fixpoint checkSentences (sentences : list jsstring) : result unit :=
  match sentences with
  | [] => Ok tt
  | s :: rest =>
      checkStarts s DISCOURAGED_IMPERATIVE_STARTS ;;; checkSentences rest
  end.

Definition imperativeSentences (text : jsstring) : list jsstring :=
  filter truthy (map (fun s => toLowerCase (trim s)) (splitSentences text)).

Definition validateNoImperativeCoaching (text : jsstring) : result unit :=
  checkSentences (imperativeSentences text).

(** The options; an absent field is [None].  The numbers are modelled as
    integers. *)
Record ValidateOptions := {
  minWords : option Z;
  maxWords : option Z;
  requireSentenceCount : option Z;
  enforceNoImperatives : option bool
}.

Definition noOptions : ValidateOptions :=
  {| minWords := None; maxWords := None;
     requireSentenceCount := None; enforceNoImperatives := None |}.

Definition orDefault {A} (d : A) (o : option A) : A :=
  match o with Some a => a | None => d end.

Definition emptyMessage : jsstring := jsq "'text' is empty.".

Definition wordCountMessage (wc : nat) (lo hi : Z) : jsstring :=
  js "Word count " ++ decimal wc ++ js " outside " ++
  decimalZ lo ++ [8211%N] ++ decimalZ hi ++ js ".".

Definition sentenceCountMessage (sc : nat) (n : Z) : jsstring :=
  js "Sentence count " ++ decimal sc ++ js " != " ++ decimalZ n ++ js ".".

Definition validateText (text : jsstring) (role : Role)
    (opts : ValidateOptions) : result unit :=
  let lo := orDefault 75%Z (minWords opts) in
  let hi := orDefault 150%Z (maxWords opts) in
  let enforce := orDefault true (enforceNoImperatives opts) in
  let cleaned := trim text in
  (if negb (truthy cleaned) then Throw emptyMessage else Ok tt) ;;;
  let wc := wordCount cleaned in
  (if (Z.of_nat wc <? lo)%Z || (hi <? Z.of_nat wc)%Z
   then Throw (wordCountMessage wc lo hi) else Ok tt) ;;;
  (match requireSentenceCount opts with
   | Some n =>
       let sc := sentenceCount cleaned in
       if negb (Z.of_nat sc =? n)%Z
       then Throw (sentenceCountMessage sc n) else Ok tt
   | None => Ok tt
   end) ;;;
  (if enforce then validateNoImperativeCoaching cleaned else Ok tt) ;;;
  (* void role *)
  Ok tt.

End Validate.

(* ------------------------------------------------------------------ *)
(** * src/roles.ts *)
(* ------------------------------------------------------------------ *)

Module Roles.

Definition roleFromIdKey (idKey : jsstring) : result Role :=
  let k := toLowerCase idKey in
  if startsWith k (js "past-") then Ok Past
  else if startsWith k (js "present-") then Ok Present
  else if startsWith k (js "future-") then Ok Future
  else Throw (js "Unsupported idKey for this scaffold: " ++ idKey).

End Roles.

(* ------------------------------------------------------------------ *)
(** * JSON.parse *)
(* ------------------------------------------------------------------ *)

(** The JSON grammar of ECMA-404, as [JSON.parse] reads it: a lexer that
    advances one code unit at a time, and a parser that advances one token
    at a time over a stack of open arrays and objects. *)
Module Json.

#[local] Set Warnings "-register-all".

Inductive value :=
| JNull
| JBool (b : bool)
| JNumber (lexeme : jsstring)
| JString (s : jsstring)
| JArray (items : list value)
| JObject (members : list (jsstring * value)).

Inductive token :=
| TLBrace | TRBrace | TLBracket | TRBracket | TColon | TComma
| TString (s : jsstring)
| TNumber (lexeme : jsstring)
| TTrue | TFalse | TNull.

Inductive numState :=
| NMinus | NZero | NInt | NDot | NFrac | NExp | NExpSign | NExpDigits.

Inductive lexState :=
| LStart
| LString (acc : jsstring)
| LEscape (acc : jsstring)
| LUnicode (acc : jsstring) (count : nat) (v : N)
| LNumber (st : numState) (acc : jsstring)
| LLiteral (rest : jsstring) (t : token).

Definition isJsonSpace (c : N) : bool :=
  ((c =? 32) || (c =? 9) || (c =? 10) || (c =? 13))%N.

Definition hexValue (c : N) : option N :=
  (if isDigit c then Some (c - 48)
   else if (97 <=? c) && (c <=? 102) then Some (c - 87)
   else if (65 <=? c) && (c <=? 70) then Some (c - 55)
   else None)%N.

Definition numStep (st : numState) (c : N) : option numState :=
  let digit := isDigit c in
  let isE := ((c =? 101) || (c =? 69))%N in
  match st with
  | NMinus => if (c =? 48)%N then Some NZero
              else if digit then Some NInt else None
  | NZero => if (c =? 46)%N then Some NDot
             else if isE then Some NExp else None
  | NInt => if digit then Some NInt
            else if (c =? 46)%N then Some NDot
            else if isE then Some NExp else None
  | NDot => if digit then Some NFrac else None
  | NFrac => if digit then Some NFrac else if isE then Some NExp else None
  | NExp => if ((c =? 43) || (c =? 45))%N then Some NExpSign
            else if digit then Some NExpDigits else None
  | NExpSign => if digit then Some NExpDigits else None
  | NExpDigits => if digit then Some NExpDigits else None
  end.

Definition numAccepting (st : numState) : bool :=
  match st with
  | NZero | NInt | NFrac | NExpDigits => true
  | _ => false
  end.

(** A code unit read between two tokens. *)
Definition startToken (c : N) : option (list token * lexState) :=
  (if isJsonSpace c then Some ([], LStart)
   else if c =? 123 then Some ([TLBrace], LStart)
   else if c =? 125 then Some ([TRBrace], LStart)
   else if c =? 91 then Some ([TLBracket], LStart)
   else if c =? 93 then Some ([TRBracket], LStart)
   else if c =? 58 then Some ([TColon], LStart)
   else if c =? 44 then Some ([TComma], LStart)
   else if c =? 34 then Some ([], LString [])
   else if c =? 45 then Some ([], LNumber NMinus [c])
   else if c =? 48 then Some ([], LNumber NZero [c])
   else if isDigit c then Some ([], LNumber NInt [c])
   else if c =? 116 then Some ([], LLiteral (js "rue") TTrue)
   else if c =? 102 then Some ([], LLiteral (js "alse") TFalse)
   else if c =? 110 then Some ([], LLiteral (js "ull") TNull)
   else None)%N.

Definition lexStep (st : lexState) (c : N) : option (list token * lexState) :=
  match st with
  | LStart => startToken c
  | LString acc =>
      (if c =? 34 then Some ([TString (rev acc)], LStart)
       else if c =? 92 then Some ([], LEscape acc)
       else if c <? 32 then None
       else Some ([], LString (c :: acc)))%N
  | LEscape acc =>
      (if (c =? 34) || (c =? 92) || (c =? 47) then Some ([], LString (c :: acc))
       else if c =? 98 then Some ([], LString (8 :: acc))
       else if c =? 102 then Some ([], LString (12 :: acc))
       else if c =? 110 then Some ([], LString (10 :: acc))
       else if c =? 114 then Some ([], LString (13 :: acc))
       else if c =? 116 then Some ([], LString (9 :: acc))
       else if c =? 117 then Some ([], LUnicode acc 0 0)
       else None)%N
  | LUnicode acc count v =>
      match hexValue c with
      | Some d =>
          let v' := (16 * v + d)%N in
          if Nat.eqb count 3 then Some ([], LString (v' :: acc))
          else Some ([], LUnicode acc (S count) v')
      | None => None
      end
  | LNumber ns acc =>
      match numStep ns c with
      | Some ns' => Some ([], LNumber ns' (c :: acc))
      | None =>
          if numAccepting ns then
            match startToken c with
            | Some (ts, st') => Some (TNumber (rev acc) :: ts, st')
            | None => None
            end
          else None
      end
  | LLiteral rest t =>
      match rest with
      | x :: rest' =>
          if N.eqb c x then
            match rest' with
            | [] => Some ([t], LStart)
            | _ => Some ([], LLiteral rest' t)
            end
          else None
      | [] => None
      end
  end.

Fixpoint lexFrom (st : lexState) (s : jsstring) : option (list token) :=
  match s with
  | [] =>
      match st with
      | LStart => Some []
      | LNumber ns acc =>
          if numAccepting ns then Some [TNumber (rev acc)] else None
      | _ => None
      end
  | c :: r =>
      match lexStep st c with
      | Some (ts, st') =>
          match lexFrom st' r with
          | Some more => Some (ts ++ more)
          | None => None
          end
      | None => None
      end
  end.

Definition lex (s : jsstring) : option (list token) := lexFrom LStart s.

(** An array or object still open: its items or members read so far (newest
    first), and for an object the key whose value is being read. *)
Inductive frame :=
| FArray (items : list value)
| FObject (members : list (jsstring * value)) (key : jsstring).

Inductive mode :=
| MValue
| MArrayStart
| MObjectStart
| MKey (members : list (jsstring * value))
| MColon (members : list (jsstring * value)) (key : jsstring)
| MDone (v : value).

Definition beginValue (stack : list frame) (t : token)
    : option (list frame * mode) :=
  match t with
  | TLBrace => Some (stack, MObjectStart)
  | TLBracket => Some (FArray [] :: stack, MArrayStart)
  | TString s => Some (stack, MDone (JString s))
  | TNumber n => Some (stack, MDone (JNumber n))
  | TTrue => Some (stack, MDone (JBool true))
  | TFalse => Some (stack, MDone (JBool false))
  | TNull => Some (stack, MDone JNull)
  | _ => None
  end.

Definition parseStep (stack : list frame) (m : mode) (t : token)
    : option (list frame * mode) :=
  match m with
  | MValue => beginValue stack t
  | MArrayStart =>
      match t, stack with
      | TRBracket, FArray _ :: stack' => Some (stack', MDone (JArray []))
      | _, _ => beginValue stack t
      end
  | MObjectStart =>
      match t with
      | TRBrace => Some (stack, MDone (JObject []))
      | TString k => Some (stack, MColon [] k)
      | _ => None
      end
  | MKey ms =>
      match t with
      | TString k => Some (stack, MColon ms k)
      | _ => None
      end
  | MColon ms k =>
      match t with
      | TColon => Some (FObject ms k :: stack, MValue)
      | _ => None
      end
  | MDone v =>
      match stack, t with
      | FArray items :: stack', TComma =>
          Some (FArray (v :: items) :: stack', MValue)
      | FArray items :: stack', TRBracket =>
          Some (stack', MDone (JArray (rev (v :: items))))
      | FObject ms k :: stack', TComma => Some (stack', MKey ((k, v) :: ms))
      | FObject ms k :: stack', TRBrace =>
          Some (stack', MDone (JObject (rev ((k, v) :: ms))))
      | _, _ => None
      end
  end.

Fixpoint parseTokens (stack : list frame) (m : mode) (ts : list token)
    : option value :=
  match ts with
  | [] =>
      match stack, m with
      | [], MDone v => Some v
      | _, _ => None
      end
  | t :: rest =>
      match parseStep stack m t with
      | Some (stack', m') => parseTokens stack' m' rest
      | None => None
      end
  end.

(** [JSON.parse]; [None] stands for the [SyntaxError]. *)
Definition parse (s : jsstring) : option value :=
  match lex s with
  | Some ts => parseTokens [] MValue ts
  | None => None
  end.

(** [obj[k]] on a parsed object: of members with the same key the last
    one stays. *)
Fixpoint getProperty (members : list (jsstring * value)) (k : jsstring)
    : option value :=
  match members with
  | [] => None
  | (k', v) :: rest =>
      match getProperty rest k with
      | Some v' => Some v'
      | None => if JsString.eqb k' k then Some v else None
      end
  end.

(** The names of the members without repeats, in order of first
    occurrence. *)
Fixpoint firstOccurrences (seen ks : list jsstring) : list jsstring :=
  match ks with
  | [] => []
  | k :: rest =>
      if existsb (JsString.eqb k) seen then firstOccurrences seen rest
      else k :: firstOccurrences (k :: seen) rest
  end.

Definition numericValue (k : jsstring) : N :=
  fold_left (fun acc c => (10 * acc + (c - 48))%N) k 0%N.

(** An array index: a canonical decimal numeral below 2^32 - 1. *)
Definition isArrayIndex (k : jsstring) : bool :=
  match k with
  | [] => false
  | c :: r =>
      forallb isDigit k && ((negb (c =? 48)%N) || negb (truthy r))
      && (length k <=? 10) && (numericValue k <=? 4294967294)%N
  end.

Fixpoint insertByValue (k : jsstring) (sorted : list jsstring)
    : list jsstring :=
  match sorted with
  | [] => [k]
  | x :: rest =>
      if (numericValue k <=? numericValue x)%N then k :: sorted
      else x :: insertByValue k rest
  end.

(** [Object.keys(obj)]: array indices in ascending order, then the other
    names in order of creation. *)
Definition keys (members : list (jsstring * value)) : list jsstring :=
  let ks := firstOccurrences [] (map fst members) in
  fold_right insertByValue [] (filter isArrayIndex ks)
  ++ filter (fun k => negb (isArrayIndex k)) ks.

End Json.

(* ------------------------------------------------------------------ *)
(** * src/engine.ts: canon, anchors, soft checks *)
(* ------------------------------------------------------------------ *)

Module Engine.

Import Validate.

Record Side := { themes : list jsstring; core : list jsstring }.

Record MeaningFile := {
  m_cardId : jsstring;
  m_cardName : jsstring;
  upright : Side;
  reversed : Side
}.

Record CardGenInput := {
  spreadId : jsstring;
  idKey : jsstring;
  intentionId : jsstring;
  intentionText : jsstring;
  cardId : jsstring;
  cardName : jsstring;
  isReversed : bool
}.

Record CardGenOutput := {
  key : jsstring;
  text : jsstring;
  createdAtISO : jsstring
}.

Definition MIN_WORDS : Z := 75.
Definition MAX_WORDS : Z := 150.
Definition MIN_SENTENCES : nat := 4.
Definition MAX_SENTENCES : nat := 6.
Definition TARGET_MIN : nat := 95.
Definition TARGET_MAX : nat := 125.
Definition MAX_DRAFT_ATTEMPTS : nat := 4.
Definition MAX_REPAIRS_PER_DRAFT : nat := 2.

(** The options of every hard-gate call of the engine. *)
Definition HARD : ValidateOptions :=
  {| minWords := Some MIN_WORDS; maxWords := Some MAX_WORDS;
     requireSentenceCount := None; enforceNoImperatives := Some true |}.

Definition sideOf (m : MeaningFile) (rev : bool) : Side :=
  if rev then reversed m else upright m.

Definition buildCanonBlock (m : MeaningFile) (rev : bool) : list jsstring :=
  let side := sideOf m rev in
  [ js "themes: " ++ join (js ", ") (themes side);
    js "core: " ++ join (js " | ") (core side) ].

(** ** The seed hash.  [h] is a JavaScript number: [^] and [>>] work on its
    32-bit integer value, and the product with 16777619 (up to about 2^55) is
    rounded to the nearest double, ties to even. *)

Definition toInt32 (z : Z) : Z :=
  ((z + 2147483648) mod 4294967296 - 2147483648)%Z.

Definition roundDouble (z : Z) : Z :=
  (let a := Z.abs z in
   let e := Z.log2 a in
   if e <? 53 then z
   else
     let u := 2 ^ (e - 52) in
     let q := a / u in
     let r := a mod u in
     let q' := if 2 * r <? u then q
               else if u <? 2 * r then q + 1
               else if Z.even q then q else q + 1 in
     Z.sgn z * (q' * u))%Z.

Definition isHighSurrogate (c : N) : bool := ((55296 <=? c) && (c <=? 56319))%N.
Definition isLowSurrogate (c : N) : bool := ((56320 <=? c) && (c <=? 57343))%N.

(** [for (const ch of s)] walks code points; [ch.charCodeAt(0)] is the
    first code unit of each. *)
Fixpoint codePointHeads (s : jsstring) : list N :=
  match s with
  | [] => []
  | c :: r =>
      match r with
      | d :: r' =>
          if isHighSurrogate c && isLowSurrogate d
          then c :: codePointHeads r'
          else c :: codePointHeads r
      | [] => [c]
      end
  end.

Definition hashStep (h : Z) (c : N) : Z :=
  roundDouble (Z.lxor (toInt32 h) (Z.of_N c) * 16777619)%Z.

Definition seedHash (seedKey : jsstring) : Z :=
  fold_left hashStep (codePointHeads seedKey) 2166136261%Z.

Definition pickCanonAnchors (m : MeaningFile) (rev : bool)
    (seedKey : jsstring) : list jsstring :=
  let side := sideOf m rev in
  let core := filter truthy (core side) in
  match core with
  | [] => [ []; [] ]
  | [c0] => [ c0; c0 ]
  | [c0; c1] => [ c0; c1 ]
  | _ =>
      let h := seedHash seedKey in
      let n := Z.of_nat (length core) in
      let i1 := (Z.abs h mod n)%Z in
      let i2 := ((i1 + 1 + Z.abs (Z.shiftr (toInt32 h) 8) mod (n - 1)) mod n)%Z in
      [ nth (Z.to_nat i1) core []; nth (Z.to_nat i2) core [] ]
  end.

Definition isLowerAlnum (c : N) : bool :=
  ((97 <=? c) && (c <=? 122) || isDigit c)%N.

Definition keywordsFromAnchor (anchor : jsstring) : list jsstring :=
  let kept := filter (fun c => isLowerAlnum c || isSpace c || (c =? 39)%N)
                     (toLowerCase anchor) in
  filter (fun w => 5 <=? length w) (filter truthy (splitSpaces kept)).

Record Coverage := { matched : nat; total : nat }.

Definition scoreAnchorCoverage (text : jsstring) (anchors : list jsstring)
    : Coverage :=
  let t := toLowerCase text in
  let covered (a : jsstring) : bool :=
    let keys := keywordsFromAnchor a in
    let hitCount :=
      fold_left (fun acc k => if includes t k then acc + 1 else acc) keys 0 in
    2 <=? hitCount in
  {| matched := fold_left (fun m a => if covered a then m + 1 else m) anchors 0;
     total := length anchors |}.

(** ASCII case folding, as the [i] flag of a regular expression without the
    [u] flag compares ASCII letters. *)
Definition asciiLower (c : N) : N :=
  (if (65 <=? c) && (c <=? 90) then c + 32 else c)%N.

(** The (lower-case ASCII) literal [w] matches at the head of [s], ignoring
    case; the rest of [s] is returned. *)
Fixpoint matchCI (w s : jsstring) : option jsstring :=
  match w, s with
  | [], _ => Some s
  | x :: w', y :: s' => if N.eqb x (asciiLower y) then matchCI w' s' else None
  | _ :: _, [] => None
  end.

Definition many1 (p : N -> bool) (s : jsstring) : option jsstring :=
  match s with
  | c :: r => if p c then Some (dropWhile p r) else None
  | [] => None
  end.

Definition andThen (a : option jsstring)
    (k : jsstring -> option jsstring) : option jsstring :=
  match a with Some r => k r | None => None end.

(** [/Word count\s+\d+\s+outside\s+\d+–\d+/i] anchored at the head of [s]. *)
Definition wordCountPatternAt (s : jsstring) : bool :=
  match
    andThen (matchCI (js "word count") s) (fun r =>
    andThen (many1 isSpace r) (fun r =>
    andThen (many1 isDigit r) (fun r =>
    andThen (many1 isSpace r) (fun r =>
    andThen (matchCI (js "outside") r) (fun r =>
    andThen (many1 isSpace r) (fun r =>
    andThen (many1 isDigit r) (fun r =>
    andThen (matchCI [8211%N] r) (fun r =>
    many1 isDigit r))))))))
  with
  | Some _ => true
  | None => false
  end.

Fixpoint isWordCountError (msg : jsstring) : bool :=
  wordCountPatternAt msg ||
  match msg with [] => false | _ :: r => isWordCountError r end.

(** [/\b(w1|w2|...)\b/i.test(text)]; [prevWord] tells whether the code unit
    before the head of [s] is a word character. *)
Definition wordAt (words : list jsstring) (s : jsstring) : bool :=
  existsb (fun w => match matchCI w s with
                    | Some [] => true
                    | Some (c :: _) => negb (isWordChar c)
                    | None => false
                    end) words.

Fixpoint hasWordFrom (words : list jsstring) (prevWord : bool)
    (s : jsstring) : bool :=
  match s with
  | [] => false
  | c :: r =>
      (negb prevWord && wordAt words s) || hasWordFrom words (isWordChar c) r
  end.

(** [hasImperativeVerbs] of [src/validate.ts]. *)
Definition hasImperativeVerbs (text : jsstring) : bool :=
  hasWordFrom
    [ js "speak"; js "take"; js "try"; js "remember"; js "focus";
      js "consider"; js "embrace"; js "choose"; js "commit" ] false text.

(** [s.split(sep)] for a one-unit separator. *)
Fixpoint splitOn (sep : N) (s : jsstring) : list jsstring :=
  match s with
  | [] => [[]]
  | c :: r =>
      if N.eqb c sep then [] :: splitOn sep r
      else match splitOn sep r with
           | p :: ps => (c :: p) :: ps
           | [] => [[c]]
           end
  end.

Definition extractThemesFromCanonLines (canonLines : list jsstring)
    : list jsstring :=
  match find (fun l => startsWith (toLowerCase l) (js "themes:")) canonLines with
  | None => []
  | Some line =>
      let after :=
        match indexOf line (js ":") with
        | Some i => skipn (i + 1) line
        | None => line
        end in
      filter truthy (map trim (splitOn 44 after))
  end.

Definition STOP_WORDS : list jsstring :=
  map js
    [ "the"; "a"; "an"; "and"; "or"; "but"; "so"; "to"; "of"; "in"; "on";
      "for"; "with"; "at"; "by"; "i"; "me"; "my"; "mine"; "you"; "your";
      "yours"; "we"; "our"; "ours"; "is"; "am"; "are"; "was"; "were"; "be";
      "been"; "being"; "how"; "what"; "where"; "when"; "why"; "can"; "do";
      "does"; "did"; "should"; "would"; "could"; "this"; "that"; "these";
      "those"; "it"; "as"; "from"; "into"; "over"; "under"; "about";
      "now" ]%string.

Definition inSet (s : list jsstring) (x : jsstring) : bool :=
  existsb (JsString.eqb x) s.

Definition isDash (c : N) : bool := (c =? 45)%N.

Definition stripDashes (t : jsstring) : jsstring :=
  rev (dropWhile isDash (rev (dropWhile isDash t))).

Definition normalizeTokens (s : jsstring) : list jsstring :=
  let s1 := toLowerCase s in
  let s2 := filter (fun c => negb ((c =? 34) || (c =? 39))%N) s1 in
  let s3 := map (fun c => if isLowerAlnum c || isSpace c || isDash c
                          then c else 32%N) s2 in
  let s4 := trim (collapseSpaces s3) in
  map stripDashes (filter truthy (splitOn 32 s4)).

Definition meaningfulTokens (s : jsstring) : list jsstring :=
  filter (fun t => negb (inSet STOP_WORDS t)) (normalizeTokens s).

(** The loop of [hasIntentionReference]: [hits] so far, [needed] to reach. *)
Fixpoint countHits (textTokens : list jsstring) (needed hits : nat)
    (toks : list jsstring) : bool :=
  match toks with
  | [] => false
  | tok :: rest =>
      let hits' := if inSet textTokens tok then S hits else hits in
      if needed <=? hits' then true
      else countHits textTokens needed hits' rest
  end.

Definition hasIntentionReference (text intention : jsstring) : bool :=
  let intentTokens := meaningfulTokens intention in
  let textTokens := normalizeTokens text in
  let needed := if 5 <=? length intentTokens then 2 else 1 in
  countHits textTokens needed 0 intentTokens.

(** [s.replace(/\b(my|the|a|an|on|in|of|to|for)$/i, "")] *)
Definition FUNCTION_WORDS : list jsstring :=
  map js [ "my"; "the"; "a"; "an"; "on"; "in"; "of"; "to"; "for" ]%string.

Definition isFunctionWord (s : jsstring) : bool :=
  existsb (fun w => match matchCI w s with Some [] => true | _ => false end)
          FUNCTION_WORDS.

Fixpoint dropFinalFunctionWord (prevWord : bool) (s : jsstring) : jsstring :=
  match s with
  | [] => []
  | c :: r =>
      if negb prevWord && isFunctionWord s then []
      else c :: dropFinalFunctionWord (isWordChar c) r
  end.

Definition words (s : jsstring) : list jsstring :=
  filter truthy (splitSpaces s).

Definition QUESTION_STARTERS : list jsstring :=
  map js [ "where am i"; "what is"; "what can"; "how can"; "how do";
           "should i"; "is it"; "what will" ]%string.

(** The loop over the starters; [None] when no starter gives a phrase. *)
Fixpoint quoteFromStarters (cleaned lower : jsstring)
    (starters : list jsstring) : option jsstring :=
  match starters with
  | [] => None
  | s :: rest =>
      let next := quoteFromStarters cleaned lower rest in
      match indexOf lower s with
      | Some idx =>
          let tail := words (skipn idx cleaned) in
          let phrase := join (js " ") (firstn (Nat.min 6 (length tail)) tail) in
          let trimmed := dropFinalFunctionWord false phrase in
          if 2 <=? length (splitSpaces trimmed) then Some trimmed else next
      | None => next
      end
  end.

Definition intentionQuote (intentionText : jsstring) : jsstring :=
  let cleaned :=
    filter (fun c => negb ((c =? 34) || (c =? 39))%N)
           (collapseSpaces (trim intentionText)) in
  match quoteFromStarters cleaned (toLowerCase cleaned) QUESTION_STARTERS with
  | Some q => q
  | None =>
      let ws := words cleaned in
      if length ws <=? 6 then cleaned
      else
        let mid := length ws / 2 in
        let start := mid - 2 in
        let phrase := join (js " ") (firstn 5 (skipn start ws)) in
        let trimmed := dropFinalFunctionWord false phrase in
        if 2 <=? length (splitSpaces trimmed) then trimmed
        else join (js " ") (firstn 4 (skipn start ws))
  end.

Definition themeOr (t : list jsstring) (i : nat) (d : jsstring) : jsstring :=
  match nth_error t i with Some x => x | None => d end.

Definition rolePhrase (role : Role) (a b c hint : jsstring) : jsstring :=
  match role with
  | Past =>
      js "In that season, " ++ a ++ js " and " ++ b ++
      js " steadied you, and " ++ c ++ js " stayed honest inside your " ++
      hint ++ js "."
  | Present =>
      js "In this season, " ++ a ++ js " and " ++ b ++
      js " steady you, and " ++ c ++ js " stays honest inside your " ++
      hint ++ js "."
  | Future =>
      js "In the season ahead, " ++ a ++ js " and " ++ b ++
      js " will steady you, and " ++ c ++
      js " will stay honest inside your " ++ hint ++ js "."
  end.

Definition extraSentence (role : Role) : jsstring :=
  match role with
  | Past =>
      js "It shaped how you chose when certainty wasn" ++ [8217%N] ++
      js "t available."
  | Present => js "It shapes how you choose even without certainty."
  | Future => js "It will shape how you choose even without certainty."
  end.

(** [s.replace(/[.!?]+$/, "")] *)
Definition dropFinalTerminals (s : jsstring) : jsstring :=
  rev (dropWhile isTerminal (rev s)).

Definition sentencesOf (text : jsstring) : list jsstring :=
  filter truthy (map trim (splitSentences text)).

Definition padSentence3ToMinWords (text : jsstring) (role : Role)
    (themes : list jsstring) (intentionText : jsstring) (minWords : Z)
    : jsstring :=
  let wc := wordCount text in
  if (minWords <=? Z.of_nat wc)%Z then text
  else
    match sentencesOf text with
    | s1 :: s2 :: sentence3 :: rest =>
        let t := firstn 3 themes in
        let a := themeOr t 0 (js "trust") in
        let b := themeOr t 1 (js "focus") in
        let c := themeOr t 2 (js "openness") in
        let intentTokens := meaningfulTokens intentionText in
        let joined := join (js " ") (firstn 2 intentTokens) in
        let intentHint := if truthy joined then joined else js "intention" in
        let s3 := dropFinalTerminals sentence3 in
        let padded :=
          trim (collapseSpaces
                  (s3 ++ js " " ++ rolePhrase role a b c intentHint ++
                   js " " ++ extraSentence role)) ++ js "." in
        join (js " ") (s1 :: s2 :: padded :: rest)
    | _ => text
    end.

Definition makeKey (input : CardGenInput) : jsstring :=
  spreadId input ++ js "|" ++ idKey input ++ js "|" ++ intentionId input ++
  js "|" ++ cardId input ++ js "|" ++
  (if isReversed input then js "r" else js "u").

(** ** parseJsonOnly *)

(** The message of the [SyntaxError] of [JSON.parse] is engine-defined; one
    fixed text stands for it. *)
Definition syntaxErrorDetail : jsstring := js "Unexpected token in JSON".

Definition notJsonMessage (trimmed : jsstring) : jsstring :=
  js "Model did not return JSON. Got: " ++ slice trimmed 0 180 ++ js "...".

Definition shapeMessage : jsstring :=
  jsq "JSON must be exactly {'text':'...'} (no other keys).".

Definition extraKeysMessage (extraKeys : list jsstring) : jsstring :=
  js "Extra JSON keys not allowed: " ++ join (js ", ") extraKeys.

Definition parseJsonOnly (raw : jsstring) : result jsstring :=
  let trimmed := trim raw in
  match indexOf trimmed (js "{"), lastIndexOf trimmed (js "}") with
  | Some first, Some last =>
      if last <=? first then Throw (notJsonMessage trimmed)
      else
        let jsonStr := slice trimmed first (last + 1) in
        match Json.parse jsonStr with
        | None => Throw (js "Invalid JSON: " ++ syntaxErrorDetail)
        | Some (Json.JObject members) =>
            match Json.getProperty members (js "text") with
            | Some (Json.JString t) =>
                let extraKeys :=
                  filter (fun k => negb (JsString.eqb k (js "text")))
                         (Json.keys members) in
                if negb (Nat.eqb (length extraKeys) 0)
                then Throw (extraKeysMessage extraKeys)
                else
                  let text := trim t in
                  if negb (truthy text) then Throw emptyMessage
                  else Ok text
            | _ => Throw shapeMessage
            end
        | Some _ => Throw shapeMessage
        end
  | _, _ => Throw (notJsonMessage trimmed)
  end.

(** ** The generator *)

(** The three calls of [ollamaChat].  The system and user prompts are a fixed
    function of the request, the canon and the anchors ([buildPrompts]); a
    call is told apart by its kind and by the text and reason it carries. *)
Inductive GenCall :=
| DraftOnce
| RepairRewrite (badText reason : jsstring)
| MicroRepairForLength (badText : jsstring).

(** The reply to the [n]-th call of a run: the content, or the message of
    the error [ollamaChat] throws. *)
Definition Generator := nat -> GenCall -> result jsstring.

Record Env := {
  loadMajorMeaning : jsstring -> result MeaningFile;
  ollamaChat : Generator;
  nowISO : jsstring
}.

(** The calls made so far, newest first. *)
Definition Calls := list GenCall.

Definition ask (g : Generator) (calls : Calls) (c : GenCall)
    : result jsstring * Calls :=
  (g (length calls) c, c :: calls).

Definition output (input : CardGenInput) (now t : jsstring) : CardGenOutput :=
  {| key := makeKey input; text := t; createdAtISO := now |}.

Definition inTargetBand (wc : nat) : bool :=
  (TARGET_MIN <=? wc) && (wc <=? TARGET_MAX).

Definition softReason (cov : Coverage) (hits wc : nat) : jsstring :=
  js "soft-checks: coverage=" ++ decimal (matched cov) ++ js "/" ++
  decimal (total cov) ++ js ", discouragedHits=" ++ decimal hits ++
  js ", wc=" ++ decimal wc.

(** The source calls [lookslikeThemeDump], a name that is bound nowhere
    (the function defined is [looksLikeThemeDump]): evaluating the call
    throws a [ReferenceError]. *)
Definition lookslikeThemeDump (text : jsstring) : result bool :=
  Throw (js "lookslikeThemeDump is not defined").

(** The [||] chain of [needsRepair]: the last operand is evaluated only
    when all the others are false. *)
Definition needsRepair (cov : Coverage) (hits wc sc : nat)
    (text intention : jsstring) : result bool :=
  if (matched cov <? total cov)
     || (2 <=? hits)
     || (wc <? TARGET_MIN)
     || (TARGET_MAX <? wc)
     || (sc <? MIN_SENTENCES)
     || (MAX_SENTENCES <? sc)
     || hasImperativeVerbs text
     || negb (hasIntentionReference text intention)
  then Ok true
  else lookslikeThemeDump text.

Inductive RoundsResult :=
| RoundsReturn (working : jsstring)
| RoundsThrew (msg : jsstring)
| RoundsDone (working : jsstring).

Section Run.

Variable env : Env.
Variable input : CardGenInput.
Variable role : Role.
Variable canonLines : list jsstring.
Variable anchors : list jsstring.

(** [for (let r = 1; r <= MAX_REPAIRS_PER_DRAFT; r++)], with [rounds] left. *)
Fixpoint repairRounds (rounds : nat) (calls : Calls)
    (working reason : jsstring) : RoundsResult * Calls :=
  match rounds with
  | 0 => (RoundsDone working, calls)
  | S rounds' =>
      let (reply, calls1) :=
        ask (ollamaChat env) calls (RepairRewrite working reason) in
      match
        repairedRaw <- reply ;;
        parsed <- parseJsonOnly repairedRaw ;;
        validateText parsed role HARD ;;;
        Ok parsed
      with
      | Throw m => (RoundsThrew m, calls1)
      | Ok working' =>
          let hits2 := length (lintDiscouragedPhrases working') in
          let cov2 := scoreAnchorCoverage working' anchors in
          let wc2 := wordCount working' in
          if Nat.eqb (matched cov2) (total cov2) && (hits2 <=? 1)
             && (TARGET_MIN <=? wc2) && (wc2 <=? TARGET_MAX)
          then (RoundsReturn working', calls1)
          else repairRounds rounds' calls1 working' (softReason cov2 hits2 wc2)
      end
  end.

(** How the [try] block of one draft attempt ends. *)
Inductive TryResult :=
| TryReturn (t : jsstring)
| TryCaught (msg : jsstring) (text : jsstring)
| TryEnd (working : jsstring) (covFinal : Coverage).

Definition tryDraft (raw : jsstring) (calls : Calls) : TryResult * Calls :=
  match parseJsonOnly raw with
  | Throw m => (TryCaught m [], calls)
  | Ok text =>
      match validateText text role HARD with
      | Throw m => (TryCaught m text, calls)
      | Ok _ =>
          let hits := length (lintDiscouragedPhrases text) in
          let cov := scoreAnchorCoverage text anchors in
          let wc := wordCount text in
          let sc := sentenceCount text in
          match needsRepair cov hits wc sc text (intentionText input) with
          | Throw m => (TryCaught m text, calls)
          | Ok false => (TryReturn text, calls)
          | Ok true =>
              let reason := softReason cov hits wc ++ js ", sc=" ++ decimal sc in
              match repairRounds MAX_REPAIRS_PER_DRAFT calls text reason with
              | (RoundsReturn w, calls') => (TryReturn w, calls')
              | (RoundsThrew m, calls') => (TryCaught m text, calls')
              | (RoundsDone w, calls') =>
                  let covFinal := scoreAnchorCoverage w anchors in
                  if Nat.eqb (matched covFinal) (total covFinal)
                  then (TryReturn w, calls')
                  else (TryEnd w covFinal, calls')
              end
          end
      end
  end.

(** The state the draft loop carries from one attempt to the next. *)
Record LoopState := {
  calls : Calls;
  lastErr : option jsstring;
  lastText : option jsstring
}.

Inductive Outcome :=
| Returned (out : CardGenOutput) (calls : Calls)
| Thrown (msg : jsstring) (calls : Calls)
| NextAttempt (st : LoopState).

(** The length-repair chain: micro-repair by the generator, padding in code,
    hard gate. *)
Definition lengthRepair (text : jsstring) (calls : Calls)
    : result jsstring * Calls :=
  let (reply, calls1) := ask (ollamaChat env) calls (MicroRepairForLength text) in
  (repairedRaw <- reply ;;
   parsed <- parseJsonOnly repairedRaw ;;
   let themes := extractThemesFromCanonLines canonLines in
   let q := intentionQuote (intentionText input) in
   let repairedText := padSentence3ToMinWords parsed role themes q MIN_WORDS in
   validateText repairedText role HARD ;;;
   Ok repairedText,
   calls1).

(** The [catch] block of one draft attempt. *)
Definition catchBlock (msg text : jsstring) (calls : Calls)
    (st : LoopState) : Outcome :=
  let lastText' := if truthy text then Some text else lastText st in
  if truthy text && isWordCountError msg then
    match lengthRepair text calls with
    | (Ok repairedText, calls1) =>
        Returned (output input (nowISO env) repairedText) calls1
    | (Throw m, calls1) =>
        NextAttempt {| calls := calls1;
                       lastErr := Some (js "Micro-repair failed: " ++ m);
                       lastText := Some text |}
    end
  else
    NextAttempt {| calls := calls; lastErr := Some msg; lastText := lastText' |}.

Definition softTargetsMessage (cov : Coverage) : jsstring :=
  js "Soft targets not met after repairs (coverage=" ++
  decimal (matched cov) ++ js "/" ++ decimal (total cov) ++ js ").".

(** One turn of the draft loop.  [draftOnce] is awaited before the [try]:
    an error of the generator there leaves [generateCardMessage]. *)
Definition attempt (st : LoopState) : Outcome :=
  let (reply, calls1) := ask (ollamaChat env) (calls st) DraftOnce in
  match reply with
  | Throw m => Thrown m calls1
  | Ok raw =>
      match tryDraft raw calls1 with
      | (TryReturn t, calls2) => Returned (output input (nowISO env) t) calls2
      | (TryCaught m text, calls2) => catchBlock m text calls2 st
      | (TryEnd w covFinal, calls2) =>
          NextAttempt {| calls := calls2;
                         lastErr := Some (softTargetsMessage covFinal);
                         lastText := Some w |}
      end
  end.

(** [for (let attempt = 1; attempt <= MAX_DRAFT_ATTEMPTS; attempt++)], with
    [attempts] left; [NextAttempt] when the loop runs out. *)
Fixpoint draftLoop (attempts : nat) (st : LoopState) : Outcome :=
  match attempts with
  | 0 => NextAttempt st
  | S attempts' =>
      match attempt st with
      | NextAttempt st' => draftLoop attempts' st'
      | done => done
      end
  end.

Definition exhaustedMessage (lastErr : option jsstring) : jsstring :=
  js "Failed to generate valid output. Last error: " ++
  orDefault (js "unknown") lastErr.

(** The code after the loop. *)
Definition finalFallback (st : LoopState) : result CardGenOutput * Calls :=
  let exhausted := Throw (exhaustedMessage (lastErr st)) in
  match lastText st with
  | Some lt =>
      if truthy lt then
        match validateText lt role HARD with
        | Throw _ => (exhausted, calls st)
        | Ok _ =>
            let wc := wordCount lt in
            if (wc <? TARGET_MIN) || (TARGET_MAX <? wc) then
              let (reply, calls1) :=
                ask (ollamaChat env) (calls st) (MicroRepairForLength lt) in
              match
                repairedRaw <- reply ;;
                parsed <- parseJsonOnly repairedRaw ;;
                validateText parsed role HARD ;;;
                Ok parsed
              with
              | Ok repairedText =>
                  (Ok (output input (nowISO env) repairedText), calls1)
              | Throw _ => (exhausted, calls1)
              end
            else (Ok (output input (nowISO env) lt), calls st)
        end
      else (exhausted, calls st)
  | None => (exhausted, calls st)
  end.

Definition initialState : LoopState :=
  {| calls := []; lastErr := None; lastText := None |}.

Definition runLoop : result CardGenOutput * Calls :=
  match draftLoop MAX_DRAFT_ATTEMPTS initialState with
  | Returned out calls => (Ok out, calls)
  | Thrown m calls => (Throw m, calls)
  | NextAttempt st => finalFallback st
  end.

End Run.

Definition anchorSeed (input : CardGenInput) : jsstring :=
  intentionId input ++ js "|" ++ cardId input ++ js "|" ++ idKey input ++
  js "|" ++ (if isReversed input then js "r" else js "u").

(** The result of [generateCardMessage], with the generator calls the run
    made (newest first). *)
Definition generateCardMessage (env : Env) (input : CardGenInput)
    : result CardGenOutput * Calls :=
  match Roles.roleFromIdKey (idKey input) with
  | Throw m => (Throw m, [])
  | Ok role =>
      match loadMajorMeaning env (cardId input) with
      | Throw m => (Throw m, [])
      | Ok meaning =>
          let canonLines := buildCanonBlock meaning (isReversed input) in
          let anchors :=
            pickCanonAnchors meaning (isReversed input) (anchorSeed input) in
          runLoop env input role canonLines anchors
      end
  end.

End Engine.

(* ------------------------------------------------------------------ *)
(** * Sample data *)
(* ------------------------------------------------------------------ *)

Module Samples.

Import Validate Engine.

(** 75 words in 25 sentences, none starting with a listed word and none
    starting with [If]. *)
Definition riversText : jsstring :=
  join (js " ") (repeat (js "Rivers keep moving.") 25).

(** 75 words; the first sentence starts with [Take,]. *)
Definition takeCommaText : jsstring :=
  join (js " ") (js "Take, for one, the road." ::
                 repeat (js "Calm water moves slowly onward.") 14).

Definition threeCoreCard : MeaningFile :=
  {| m_cardId := js "0.TheOne";
     m_cardName := js "The One";
     upright := {| themes := [js "trust"; js "beginnings"];
                   core := [js "facing an old fear"; [];
                            js "trusting a new chapter";
                            js "leaving the familiar shore"] |};
     reversed := {| themes := []; core := [] |} |}.

Definition sampleSeed : jsstring :=
  js "ppf:growth:healing|0.TheOne|past-3|u".

(** 75 words; the first sentence starts with [Take ] and fails the hard
    gate. *)
Definition takeText : jsstring :=
  join (js " ") (js "Take the long road home." ::
                 repeat (js "Calm water moves slowly onward.") 14).

Definition pastRequest : CardGenInput :=
  {| spreadId := js "ppf";
     idKey := js "past-3";
     intentionId := js "ppf:growth:healing";
     intentionText := js "Where am I on my spiritual journey?";
     cardId := js "0.TheOne";
     cardName := js "The One";
     isReversed := false |}.

(** The JSON object [{"text": t}] for a text without quotes or
    backslashes. *)
Definition jsonOf (t : jsstring) : jsstring :=
  jsq "{'text':'" ++ t ++ jsq "'}".

Definition envWith (g : Generator) : Env :=
  {| loadMajorMeaning := fun _ => Ok threeCoreCard;
     ollamaChat := g;
     nowISO := js "2026-01-01T00:00:00.000Z" |}.

(** A draft of three words; the micro-repair answers with 75 words. *)
Definition shortThenRepaired : Generator :=
  fun _ call =>
    match call with
    | DraftOnce => Ok (jsonOf (js "too short"))
    | MicroRepairForLength _ => Ok (jsonOf riversText)
    | RepairRewrite _ _ => Ok (js "unused")
    end.

(** Every draft is the valid 75-word text; every repair answers with text
    that is not JSON. *)
Definition validDraftsBrokenRepairs : Generator :=
  fun _ call =>
    match call with
    | DraftOnce => Ok (jsonOf riversText)
    | _ => Ok (js "I cannot help with that.")
    end.

(** Three valid drafts with broken repairs, then a draft that fails the
    hard gate on an imperative start. *)
Definition validThenImperative : Generator :=
  fun n call =>
    match call with
    | DraftOnce => if n <? 6 then Ok (jsonOf riversText)
                   else Ok (jsonOf takeText)
    | _ => Ok (js "I cannot help with that.")
    end.

(** The state in which the loop of that run leaves off. *)
Definition stateAfterImperative : LoopState :=
  Eval vm_compute in
    match draftLoop (envWith validThenImperative) pastRequest Past
            (buildCanonBlock threeCoreCard false)
            (pickCanonAnchors threeCoreCard false (anchorSeed pastRequest))
            MAX_DRAFT_ATTEMPTS initialState with
    | NextAttempt st => st
    | _ => initialState
    end.

(** A valid draft; the rewrite answers, not in JSON, with a sentence about
    the word count; the micro-repair answers with the valid text. *)
Definition rewriteTalksAboutWordCount : Generator :=
  fun _ call =>
    match call with
    | DraftOnce => Ok (jsonOf riversText)
    | RepairRewrite _ _ =>
        Ok (js "Word count 75 outside 95" ++ [8211%N] ++ js "125, sorry.")
    | MicroRepairForLength _ => Ok (jsonOf riversText)
    end.

(** A card with one core statement: both anchors are that statement. *)
Definition oneCoreCard : MeaningFile :=
  {| m_cardId := js "0.TheOne";
     m_cardName := js "The One";
     upright := {| themes := [js "trust"; js "beginnings"];
                   core := [js "trusting a new chapter"] |};
     reversed := {| themes := []; core := [] |} |}.

(** 105 words in five sentences; covers the anchor of [oneCoreCard],
    refers to the intention of [pastRequest] and trips no soft check. *)
Definition perfectText : jsstring :=
  join (js " ")
    (repeat (js ("Trusting a new chapter shaped your spiritual journey in " ++
                 "quiet ways that lasted through many long seasons of " ++
                 "change and growth.")) 5).

(** Every draft is the perfect text. *)
Definition alwaysPerfect : Env :=
  {| loadMajorMeaning := fun _ => Ok oneCoreCard;
     ollamaChat := fun _ _ => Ok (jsonOf perfectText);
     nowISO := js "2026-01-01T00:00:00.000Z" |}.

(** Every draft is the valid 75-word text; the first rewrite of an attempt
    answers with the same text, the second, not in JSON, with a sentence
    about the word count; every micro-repair answers with text that is not
    JSON. *)
Definition everyCallUsed : Generator :=
  fun n call =>
    match call with
    | DraftOnce => Ok (jsonOf riversText)
    | RepairRewrite _ _ =>
        if n mod 4 =? 1 then Ok (jsonOf riversText)
        else Ok (js "Word count 75 outside 95" ++ [8211%N] ++ js "125, sorry.")
    | MicroRepairForLength _ => Ok (js "I cannot help with that.")
    end.

(** The draft is the valid 75-word text, which covers no anchor; every
    rewrite answers with the perfect text. *)
Definition rewrittenToPerfect : Env :=
  {| loadMajorMeaning := fun _ => Ok oneCoreCard;
     ollamaChat := fun _ call =>
       match call with
       | DraftOnce => Ok (jsonOf riversText)
       | _ => Ok (jsonOf perfectText)
       end;
     nowISO := js "2026-01-01T00:00:00.000Z" |}.

(** A card whose upright side states the same core statement twice, and
    whose reversed side states it three times. *)
Definition repeatedCoreCard : MeaningFile :=
  {| m_cardId := js "0.TheOne";
     m_cardName := js "The One";
     upright := {| themes := [js "trust"];
                   core := [js "facing an old fear";
                            js "facing an old fear"] |};
     reversed := {| themes := [js "trust"];
                    core := [js "facing an old fear";
                             js "facing an old fear";
                             js "facing an old fear"] |} |}.

End Samples.

(* ------------------------------------------------------------------ *)
(** * Notions used in the statements *)
(* ------------------------------------------------------------------ *)

Module Notions.

Import Validate Engine.

(** ** The hard gate *)

(** No sentence of [cleaned], trimmed and lower-cased, starts with one of
    the listed starts. *)
Definition startsClean (cleaned : jsstring) : Prop :=
  forall s start,
    In s (splitSentences cleaned) ->
    In start DISCOURAGED_IMPERATIVE_STARTS ->
    startsWith (toLowerCase (trim s)) start = false.

(** The lead words as the specification lists them. *)
Definition IMPERATIVE_LEAD_WORDS : list jsstring :=
  map js [ "take"; "try"; "remember"; "focus"; "reflect"; "act"; "choose";
           "commit"; "consider"; "embrace"; "let"; "allow" ]%string.

(** Some sentence of [cleaned] begins, ignoring case, with a lead word. *)
Definition beginsWithLeadWord (cleaned : jsstring) : Prop :=
  exists s w,
    In s (splitSentences cleaned) /\ In w IMPERATIVE_LEAD_WORDS /\
    startsWith (toLowerCase (trim s)) w = true.

(** Acceptance as the specification words it. *)
Definition specAccepts (text : jsstring) (opts : ValidateOptions) : Prop :=
  let cleaned := trim text in
  let wc := Z.of_nat (wordCount cleaned) in
  cleaned <> [] /\
  (orDefault 75 (minWords opts) <= wc <= orDefault 150 (maxWords opts))%Z /\
  (forall n, requireSentenceCount opts = Some n ->
             Z.of_nat (sentenceCount cleaned) = n) /\
  (orDefault true (enforceNoImperatives opts) = true ->
   ~ beginsWithLeadWord cleaned).

(** [t] passes the hard gate of the engine. *)
Definition valid (role : Role) (t : jsstring) : Prop :=
  validateText t role HARD = Ok tt.

(** ** Anchors *)

(** The non-empty core statements of the side the orientation selects. *)
Definition coreOf (m : MeaningFile) (rev : bool) : list jsstring :=
  filter truthy (core (sideOf m rev)).

(** ** Words *)

(** The position after [r]'s head is the end of the string or white space. *)
Definition atGap (r : jsstring) : bool :=
  match r with [] => true | d :: _ => isSpace d end.

Definition endsWord (c : N) (r : jsstring) : bool :=
  negb (isSpace c) && atGap r.

(** The number of word ends. *)
Fixpoint tokens (s : jsstring) : nat :=
  match s with
  | [] => 0
  | c :: r => (if endsWord c r then 1 else 0) + tokens r
  end.

Fixpoint totalTokens (l : list jsstring) : nat :=
  match l with
  | [] => 0
  | x :: r => tokens x + totalTokens r
  end.

(** ** Padding *)






(** ** Parsing and the loop *)

(** What [parseJsonOnly] accepts: between the first [{] and the last [}]
    of the trimmed response stands a JSON object all of whose members are
    named [text], the last one a string, whose trimmed value is [t]. *)
Definition jsonTextBetweenBraces (raw t : jsstring) : Prop :=
  exists first last members v,
    indexOf (trim raw) (js "{") = Some first /\
    lastIndexOf (trim raw) (js "}") = Some last /\
    first < last /\
    Json.parse (slice (trim raw) first (last + 1)) =
      Some (Json.JObject members) /\
    Json.getProperty members (js "text") = Some (Json.JString v) /\
    (forall k, In k (map fst members) -> k = js "text") /\
    t = trim v /\ t <> [].

(** What every [return] of the engine builds: the key of the request, a
    text that passed the hard gate, and the time of the return. *)
Definition goodOutput (env : Env) (input : CardGenInput) (role : Role)
    (out : CardGenOutput) : Prop :=
  exists t, out = output input (nowISO env) t /\ valid role t.

(** The attempts of a run are used up, leaving the loop in state [st]. *)
Definition attemptsExhausted (env : Env) (input : CardGenInput)
    (st : LoopState) : Prop :=
  exists role meaning,
    Roles.roleFromIdKey (idKey input) = Ok role /\
    loadMajorMeaning env (cardId input) = Ok meaning /\
    draftLoop env input role (buildCanonBlock meaning (isReversed input))
      (pickCanonAnchors meaning (isReversed input) (anchorSeed input))
      MAX_DRAFT_ATTEMPTS initialState = NextAttempt st.

(** ** Two runs at different times *)

Definition restamp (now' : jsstring) (out : CardGenOutput) : CardGenOutput :=
  {| key := key out; text := text out; createdAtISO := now' |}.

Definition restampOutcome (now' : jsstring) (o : Outcome) : Outcome :=
  match o with
  | Returned out c => Returned (restamp now' out) c
  | other => other
  end.

Definition restampResult (now' : jsstring)
    (r : result CardGenOutput * Calls) : result CardGenOutput * Calls :=
  match r with
  | (Ok out, c) => (Ok (restamp now' out), c)
  | other => other
  end.

(** Two runs end alike: with the same error, or with the same key and
    text; and they made the same generator calls. *)
Definition sameOutcome (r1 r2 : result CardGenOutput * Calls) : Prop :=
  match r1, r2 with
  | (Ok o1, c1), (Ok o2, c2) =>
      key o1 = key o2 /\ text o1 = text o2 /\ c1 = c2
  | (Throw m1, c1), (Throw m2, c2) => m1 = m2 /\ c1 = c2
  | _, _ => False
  end.

(** ** The quote of an intention *)

(** What a quote is made of: at most six words, and only code units of
    [cleaned] and single spaces. *)
Definition quoteOf (cleaned q : jsstring) : Prop :=
  tokens q <= 6 /\ forall c, In c q -> c = 32%N \/ In c cleaned.

(** ** Keys *)

(** None of the four identifiers of the request holds a [|]. *)
Definition pipeFree (input : CardGenInput) : Prop :=
  ~ In 124%N (spreadId input) /\ ~ In 124%N (idKey input) /\
  ~ In 124%N (intentionId input) /\ ~ In 124%N (cardId input).

(** ** The object of a response *)

(** What [parseJsonOnly] does with the text it cut out of the response. *)
Definition readObject (jsonStr : jsstring) : result jsstring :=
  match Json.parse jsonStr with
  | None => Throw (js "Invalid JSON: " ++ syntaxErrorDetail)
  | Some (Json.JObject members) =>
      match Json.getProperty members (js "text") with
      | Some (Json.JString t) =>
          let extraKeys :=
            filter (fun k => negb (JsString.eqb k (js "text")))
                   (Json.keys members) in
          if negb (Nat.eqb (length extraKeys) 0)
          then Throw (extraKeysMessage extraKeys)
          else
            let text := trim t in
            if negb (truthy text) then Throw emptyMessage
            else Ok text
      | _ => Throw shapeMessage
      end
  | Some _ => Throw shapeMessage
  end.

(** ** Soft checks *)

(** The text trips none of the soft checks of a draft. *)
Definition passesSoftChecks (anchors : list jsstring)
    (intention t : jsstring) : Prop :=
  let cov := scoreAnchorCoverage t anchors in
  matched cov = total cov /\
  length (lintDiscouragedPhrases t) <= 1 /\
  TARGET_MIN <= wordCount t <= TARGET_MAX /\
  MIN_SENTENCES <= sentenceCount t <= MAX_SENTENCES /\
  hasImperativeVerbs t = false /\
  hasIntentionReference t intention = true.

(** ** Roles *)

(** The prefix of a position key that selects the role. *)
Definition rolePrefix (role : Role) : jsstring :=
  match role with
  | Past => js "past-"
  | Present => js "present-"
  | Future => js "future-"
  end.

(** ** Coverage *)

(** The keywords of the anchor [a] that occur in the lower-cased [text]. *)
Definition keywordHits (text a : jsstring) : list jsstring :=
  filter (includes (toLowerCase text)) (keywordsFromAnchor a).

(** The anchor counts as covered: two keywords or more occur. *)
Definition anchorCovered (text a : jsstring) : bool :=
  2 <=? length (keywordHits text a).

(** ** The calls of a run *)

Definition isDraft (c : GenCall) : bool :=
  match c with DraftOnce => true | _ => false end.

Definition isRewrite (c : GenCall) : bool :=
  match c with RepairRewrite _ _ => true | _ => false end.

Definition isMicroRepair (c : GenCall) : bool :=
  match c with MicroRepairForLength _ => true | _ => false end.

Definition count (p : GenCall -> bool) (c : Calls) : nat :=
  length (filter p c).

(** The calls made when a turn of the loop ends. *)
Definition callsOf (o : Outcome) : Calls :=
  match o with
  | Returned _ c => c
  | Thrown _ c => c
  | NextAttempt st => calls st
  end.

(** ** Growth of the call log *)

(** [calls'] is [calls] with exactly [d] draft calls, at most [r] rewrite
    calls and at most [m] micro-repair calls added. *)
Definition grows (d r m : nat) (calls calls' : Calls) : Prop :=
  exists new,
    calls' = new ++ calls /\ count isDraft new = d /\
    count isRewrite new <= r /\ count isMicroRepair new <= m.

(** ** Where a returned text comes from *)

(** The newest call of [calls] is of the kind [kind], and the generator's
    reply to it parses to [parsed]. *)
Definition newestReply (env : Env) (calls : Calls) (kind : GenCall -> bool)
    (parsed : jsstring) : Prop :=
  exists c rest raw,
    calls = c :: rest /\ kind c = true /\
    ollamaChat env (length rest) c = Ok raw /\
    parseJsonOnly raw = Ok parsed.

(** All anchors are covered by [t]. *)
Definition fullyCovered (anchors : list jsstring) (t : jsstring) : Prop :=
  matched (scoreAnchorCoverage t anchors) =
  total (scoreAnchorCoverage t anchors).

(** The two ways a turn of the loop returns. *)
Definition loopReturn (env : Env) (input : CardGenInput) (role : Role)
    (canonLines anchors : list jsstring) (out : CardGenOutput)
    (calls' : Calls) : Prop :=
  (newestReply env calls' isRewrite (text out) /\
   fullyCovered anchors (text out)) \/
  (exists parsed,
      newestReply env calls' isMicroRepair parsed /\
      text out = padSentence3ToMinWords parsed role
                   (extractThemesFromCanonLines canonLines)
                   (intentionQuote (intentionText input)) MIN_WORDS).

End Notions.

(* ------------------------------------------------------------------ *)
(** * Properties of the hard gate *)
(* ------------------------------------------------------------------ *)

Module ValidateFacts.

Import Validate Notions.

Lemma startsWith_nil_false (p : jsstring) :
  p <> [] -> startsWith [] p = false.
Proof. destruct p; [congruence | reflexivity]. Qed.

Lemma checkStarts_ok (s : jsstring) (starts : list jsstring) :
  checkStarts s starts = Ok tt <->
  (forall start, In start starts -> startsWith s start = false).
Proof.
  induction starts as [|p rest IH]; simpl.
  - split; [intros _ ? [] | reflexivity].
  - destruct (startsWith s p) eqn:E.
    + split; [discriminate|].
      intros H. specialize (H p (or_introl eq_refl)). congruence.
    + rewrite IH. split.
      * intros H start [<-|Hin]; auto.
      * intros H start Hin. apply H. now right.
Qed.

Lemma checkStarts_throw (s : jsstring) (starts : list jsstring) (m : jsstring) :
  checkStarts s starts = Throw m ->
  exists start, In start starts /\ startsWith s start = true /\
                m = imperativeMessage start.
Proof.
  induction starts as [|p rest IH]; simpl; [discriminate|].
  destruct (startsWith s p) eqn:E.
  - intros [= <-]. exists p. auto.
  - intros H. destruct (IH H) as (start & Hin & Hs & Hm).
    exists start. auto.
Qed.

Lemma checkSentences_ok (ss : list jsstring) :
  checkSentences ss = Ok tt <->
  (forall s start, In s ss -> In start DISCOURAGED_IMPERATIVE_STARTS ->
                   startsWith s start = false).
Proof.
  induction ss as [|s rest IH]; cbn [checkSentences In].
  - split; [intros _ ? ? [] | reflexivity].
  - unfold bind.
    destruct (checkStarts s DISCOURAGED_IMPERATIVE_STARTS) as [[]|m] eqn:E.
    + rewrite IH. rewrite checkStarts_ok in E. split.
      * intros H x start [<-|Hin] Hs; auto.
      * intros H x start Hin Hs. apply H; auto.
    + split; [discriminate|]. intros H.
      apply checkStarts_throw in E. destruct E as (start & Hin & Hs & _).
      rewrite (H s start (or_introl eq_refl) Hin) in Hs. discriminate.
Qed.

Lemma checkSentences_throw (ss : list jsstring) (m : jsstring) :
  checkSentences ss = Throw m ->
  exists s start, In s ss /\ In start DISCOURAGED_IMPERATIVE_STARTS /\
                  startsWith s start = true /\ m = imperativeMessage start.
Proof.
  induction ss as [|s rest IH]; cbn [checkSentences In]; [discriminate|].
  unfold bind.
  destruct (checkStarts s DISCOURAGED_IMPERATIVE_STARTS) as [[]|m'] eqn:E.
  - intros H. destruct (IH H) as (x & start & Hx & Hr). exists x, start.
    split; [now right | exact Hr].
  - intros [= <-]. apply checkStarts_throw in E.
    destruct E as (start & Hin & Hs & Hm). exists s, start. auto.
Qed.

Lemma result_unit_cases (r : result unit) :
  r = Ok tt \/ exists m, r = Throw m.
Proof. destruct r as [[]|m]; eauto. Qed.

Lemma starts_nonempty (start : jsstring) :
  In start DISCOURAGED_IMPERATIVE_STARTS -> start <> [].
Proof.
  unfold DISCOURAGED_IMPERATIVE_STARTS. simpl.
  intros H. repeat (destruct H as [<-|H]; [discriminate|]). destruct H.
Qed.

Lemma noImperative_ok (cleaned : jsstring) :
  validateNoImperativeCoaching cleaned = Ok tt <-> startsClean cleaned.
Proof.
  unfold validateNoImperativeCoaching, imperativeSentences, startsClean.
  rewrite checkSentences_ok. split.
  - intros H s start Hs Hstart.
    destruct (toLowerCase (trim s)) as [|c l] eqn:E.
    + apply startsWith_nil_false. now apply starts_nonempty.
    + rewrite <- E. apply H; [|assumption].
      apply filter_In. split.
      * apply in_map_iff. exists s. auto.
      * now rewrite E.
  - intros H s start Hs Hstart.
    apply filter_In in Hs. destruct Hs as [Hs _].
    apply in_map_iff in Hs. destruct Hs as (x & <- & Hx). now apply H.
Qed.

End ValidateFacts.

Module HardGate.

Import Validate ValidateFacts Notions.

Ltac split5 := split; [|split; [|split; [|split]]].

Lemma truthy_false_iff (s : jsstring) : truthy s = false <-> s = [].
Proof. destruct s; simpl; split; congruence. Qed.

Lemma validateText_cascade (text : jsstring) (role : Role)
    (opts : ValidateOptions) :
  validateText text role opts =
  let lo := orDefault 75%Z (minWords opts) in
  let hi := orDefault 150%Z (maxWords opts) in
  let cleaned := trim text in
  let wc := wordCount cleaned in
  if negb (truthy cleaned) then Throw emptyMessage
  else if (Z.of_nat wc <? lo)%Z || (hi <? Z.of_nat wc)%Z
  then Throw (wordCountMessage wc lo hi)
  else
    let last :=
      if orDefault true (enforceNoImperatives opts)
      then validateNoImperativeCoaching cleaned else Ok tt in
    match requireSentenceCount opts with
    | Some n =>
        if negb (Z.of_nat (sentenceCount cleaned) =? n)%Z
        then Throw (sentenceCountMessage (sentenceCount cleaned) n)
        else last
    | None => last
    end.
Proof.
  unfold validateText, bind. cbv zeta.
  destruct (negb (truthy (trim text))); [reflexivity|].
  destruct (_ || _)%bool; [reflexivity|].
  assert (L : forall r : result unit,
             match r with Ok _ => Ok tt | Throw m => Throw m end = r)
    by (intros [[]|]; reflexivity).
  destruct (requireSentenceCount opts) as [n|].
  - destruct (negb _); [reflexivity|]. apply L.
  - apply L.
Qed.

(** C10.  The verdict of the hard gate does not depend on the role: for
    every text and every configuration [validateText] gives the same
    acceptance or the same error for past, present and future.  In
    particular the future role's rule of exactly one sentence starting with
    [If] is not enforced: a 75-word text with no [If] at all passes for the
    future role. *)
Theorem validateText_role_independent :
  (forall text opts r1 r2,
      validateText text r1 opts = validateText text r2 opts) /\
  includes Samples.riversText (js "If") = false /\
  validateText Samples.riversText Future noOptions = Ok tt.
Proof.
  split; [|split].
  - intros. rewrite !validateText_cascade. reflexivity.
  - vm_compute. reflexivity.
  - vm_compute. reflexivity.
Qed.

(** C4, as the code has it.  [validateText] accepts exactly when the trimmed
    text is non-empty, its word count lies in [minWords, maxWords] (75 and
    150 by default), the sentence count equals [requireSentenceCount] when
    that is configured, and, when [enforceNoImperatives] is on (the
    default), no sentence, trimmed and lower-cased, starts with one of the
    listed starts, which are string prefixes: the lead word followed by a
    space, or the bare prefixes [remember] and [reflect].  The checks run in
    that order and the first violation gives the error; the word-count
    error carries the measured count. *)
Theorem validateText_accepts_exactly (text : jsstring) (role : Role)
    (opts : ValidateOptions) :
  let lo := orDefault 75%Z (minWords opts) in
  let hi := orDefault 150%Z (maxWords opts) in
  let enforce := orDefault true (enforceNoImperatives opts) in
  let cleaned := trim text in
  let wc := wordCount cleaned in
  let sc := sentenceCount cleaned in
  let inRange := (lo <= Z.of_nat wc <= hi)%Z in
  let countOk := forall n, requireSentenceCount opts = Some n -> Z.of_nat sc = n in
  (validateText text role opts = Ok tt <->
   cleaned <> [] /\ inRange /\ countOk /\ (enforce = true -> startsClean cleaned))
  /\ (cleaned = [] -> validateText text role opts = Throw emptyMessage)
  /\ (cleaned <> [] -> ~ inRange ->
      validateText text role opts = Throw (wordCountMessage wc lo hi))
  /\ (cleaned <> [] -> inRange ->
      forall n, requireSentenceCount opts = Some n -> Z.of_nat sc <> n ->
      validateText text role opts = Throw (sentenceCountMessage sc n))
  /\ (cleaned <> [] -> inRange -> countOk -> enforce = true ->
      ~ startsClean cleaned ->
      exists s start,
        In s (imperativeSentences cleaned) /\
        In start DISCOURAGED_IMPERATIVE_STARTS /\
        startsWith s start = true /\
        validateText text role opts = Throw (imperativeMessage start)).
Proof.
  intros lo hi enforce cleaned wc sc inRange countOk.
  rewrite validateText_cascade. cbv zeta.
  fold lo hi enforce cleaned wc sc.
  destruct (truthy cleaned) eqn:Et; cbn [negb].
  2:{ apply truthy_false_iff in Et. split5; try tauto.
      split; [discriminate | tauto]. }
  assert (Hne : cleaned <> []) by (intros E; rewrite E in Et; discriminate).
  destruct ((Z.of_nat wc <? lo)%Z || (hi <? Z.of_nat wc)%Z) eqn:Er.
  { assert (Hn : ~ inRange).
    { unfold inRange. apply orb_true_iff in Er.
      destruct Er as [Er|Er]; apply Z.ltb_lt in Er; lia. }
    split5; try tauto. split; [discriminate | tauto]. }
  assert (Hr : inRange).
  { unfold inRange. apply orb_false_iff in Er.
    destruct Er as [E1 E2]. apply Z.ltb_ge in E1, E2. lia. }
  pose proof (noImperative_ok cleaned) as Himp.
  assert (Hlast :
    let last := if enforce then validateNoImperativeCoaching cleaned
                else Ok tt in
    (last = Ok tt <-> (enforce = true -> startsClean cleaned)) /\
    (enforce = true -> ~ startsClean cleaned ->
     exists s start,
       In s (imperativeSentences cleaned) /\
       In start DISCOURAGED_IMPERATIVE_STARTS /\
       startsWith s start = true /\ last = Throw (imperativeMessage start))).
  { destruct enforce; cbv zeta.
    - split; [rewrite Himp; tauto|].
      intros _ Hn.
      destruct (result_unit_cases (validateNoImperativeCoaching cleaned))
        as [E|[m E]]; [now apply Himp in E|].
      pose proof (checkSentences_throw _ E) as (s & start & Hs & Hst & Hp & ->).
      exists s, start. auto.
    - split; [split; [discriminate | reflexivity] | discriminate]. }
  cbv zeta in Hlast. destruct Hlast as [Hok Hthrow].
  destruct (requireSentenceCount opts) as [n|] eqn:Eq.
  - destruct (Z.of_nat sc =? n)%Z eqn:En; cbn [negb].
    + apply Z.eqb_eq in En.
      assert (Hc : countOk) by (intros k [= <-]; exact En).
      split5.
      * rewrite Hok. tauto.
      * intros E. contradiction.
      * intros _ Hn. contradiction.
      * intros _ _ k [= <-] Hk. congruence.
      * intros _ _ _ He Hn. exact (Hthrow He Hn).
    + apply Z.eqb_neq in En.
      split5.
      * split; [discriminate|].
        intros (_ & _ & Hc & _). elim En. now apply Hc.
      * intros E. contradiction.
      * intros _ Hn. contradiction.
      * intros _ _ k [= <-] _. reflexivity.
      * intros _ _ Hc. elim En. now apply Hc.
  - assert (Hc : countOk) by (intros k [=]).
    split5.
    + rewrite Hok. tauto.
    + intros E. contradiction.
    + intros _ Hn. contradiction.
    + intros _ _ k [=].
    + intros _ _ _ He Hn. exact (Hthrow He Hn).
Qed.

(** C4, as it is stated, fails: [validateText] accepts a 75-word text whose
    first sentence begins with the lead word [take] (followed by a comma,
    not a space). *)
Lemma lead_word_followed_by_comma_accepted :
  validateText Samples.takeCommaText Past noOptions = Ok tt /\
  ~ specAccepts Samples.takeCommaText noOptions.
Proof.
  split; [vm_compute; reflexivity|].
  intros (_ & _ & _ & H). apply H; [reflexivity|].
  exists (js "Take, for one, the road."), (js "take").
  split; [|split].
  - vm_compute. left. reflexivity.
  - vm_compute. left. reflexivity.
  - vm_compute. reflexivity.
Qed.

End HardGate.

(* ------------------------------------------------------------------ *)
(** * Properties of the anchor selector and of the coverage score *)
(* ------------------------------------------------------------------ *)

Module Anchors.

Import Validate Engine Notions.

Lemma second_index_differs (i1 k n : Z) :
  (3 <= n -> 0 <= i1 < n -> 0 <= k < n - 1 ->
   let i2 := (i1 + 1 + k) mod n in 0 <= i2 < n /\ i2 <> i1)%Z.
Proof.
  intros Hn Hi Hk i2. subst i2. split.
  - apply Z.mod_pos_bound. lia.
  - destruct (Z_lt_ge_dec (i1 + 1 + k) n) as [Hlt|Hge].
    + rewrite Z.mod_small by lia. lia.
    + assert (E : ((i1 + 1 + k) mod n = i1 + 1 + k - n)%Z).
      { symmetry. apply Z.mod_unique with (q := 1%Z); lia. }
      rewrite E. lia.
Qed.

Lemma pick_indices (m : MeaningFile) (rev : bool) (seed : jsstring) :
  2 <= length (coreOf m rev) ->
  exists i j,
    i <> j /\ i < length (coreOf m rev) /\ j < length (coreOf m rev) /\
    pickCanonAnchors m rev seed =
    [nth i (coreOf m rev) []; nth j (coreOf m rev) []].
Proof.
  unfold pickCanonAnchors, coreOf.
  destruct (filter truthy (core (sideOf m rev))) as [|c0 [|c1 [|c2 rest]]] eqn:E;
    cbn [length]; intros Hlen; try lia.
  - exists 0, 1. repeat split; auto.
  - set (l := c0 :: c1 :: c2 :: rest).
    set (n := Z.of_nat (length l)).
    set (h := seedHash seed).
    assert (Hn : (3 <= n)%Z) by (subst n l; cbn [length]; lia).
    set (i1 := (Z.abs h mod n)%Z).
    set (k := (Z.abs (Z.shiftr (toInt32 h) 8) mod (n - 1))%Z).
    assert (Hi1 : (0 <= i1 < n)%Z) by (apply Z.mod_pos_bound; lia).
    assert (Hk : (0 <= k < n - 1)%Z) by (apply Z.mod_pos_bound; lia).
    destruct (second_index_differs Hn Hi1 Hk) as [Hi2 Hneq].
    exists (Z.to_nat i1), (Z.to_nat ((i1 + 1 + k) mod n)).
    assert (En : n = Z.of_nat (S (S (S (length rest))))) by reflexivity.
    repeat split.
    + intros Heq. apply Hneq. apply Z2Nat.inj in Heq; lia.
    + clearbody i1 k n. lia.
    + clearbody i1 k n. lia.
Qed.

(** C3, as the code has it.  For every canon side with at least two
    non-empty core statements and every seed, the two anchors are the
    entries at two different positions of the list of non-empty core
    statements, each one a non-empty core statement of the side; they are
    different statements when the list holds no statement twice (the list
    is not de-duplicated).  The pair is a function of that list and the
    seed alone, so the same seed gives the same pair on every invocation.
    This covers two statements and the hashed indices used from three
    on. *)
Theorem pickCanonAnchors_distinct (m : MeaningFile) (rev : bool)
    (seed : jsstring) :
  2 <= length (coreOf m rev) ->
  (exists i j,
      i <> j /\ i < length (coreOf m rev) /\ j < length (coreOf m rev) /\
      pickCanonAnchors m rev seed =
      [nth i (coreOf m rev) []; nth j (coreOf m rev) []] /\
      (NoDup (coreOf m rev) ->
       nth i (coreOf m rev) [] <> nth j (coreOf m rev) [])) /\
  (forall a, In a (pickCanonAnchors m rev seed) ->
             a <> [] /\ In a (core (sideOf m rev))) /\
  (forall m' rev' seed',
      coreOf m' rev' = coreOf m rev -> seed' = seed ->
      pickCanonAnchors m' rev' seed' = pickCanonAnchors m rev seed).
Proof.
  intros Hlen.
  destruct (pick_indices m rev seed Hlen) as (i & j & Hij & Hi & Hj & Hpick).
  split; [|split].
  - exists i, j. repeat split; auto.
    intros Hnd Heq. apply Hij.
    apply (proj1 (NoDup_nth (coreOf m rev) []) Hnd); assumption.
  - intros a Ha. rewrite Hpick in Ha.
    assert (Hin : In a (coreOf m rev)).
    { destruct Ha as [<-|[<-|[]]]; apply nth_In; assumption. }
    unfold coreOf in Hin. apply filter_In in Hin. destruct Hin as [Hin Ht].
    split; [|exact Hin]. intros ->. discriminate.
  - intros m' rev' seed' Hcore ->.
    unfold pickCanonAnchors. unfold coreOf in Hcore. rewrite Hcore.
    reflexivity.
Qed.

(** A card with three non-empty core statements (and an empty one, which
    the selector drops): the anchors are the second and the first. *)
Lemma pickCanonAnchors_distinct_witness :
  pickCanonAnchors Samples.threeCoreCard false Samples.sampleSeed =
  [js "trusting a new chapter"; js "facing an old fear"] /\
  exists i j,
    i <> j /\
    pickCanonAnchors Samples.threeCoreCard false Samples.sampleSeed =
    [nth i (coreOf Samples.threeCoreCard false) [];
     nth j (coreOf Samples.threeCoreCard false) []].
Proof.
  split; [vm_compute; reflexivity|].
  destruct (pickCanonAnchors_distinct Samples.threeCoreCard false
              Samples.sampleSeed) as [(i & j & Hij & _ & _ & Hp & _) _].
  - vm_compute. lia.
  - exists i, j. auto.
Defined.

(** C3, as it is stated, fails: a statement that the side holds more than
    once can be selected twice, so the two anchors are equal; with two
    statements and on the hashed path alike. *)
Lemma repeated_statement_selected_twice :
  let two :=
    pickCanonAnchors Samples.repeatedCoreCard false Samples.sampleSeed in
  let hashed :=
    pickCanonAnchors Samples.repeatedCoreCard true Samples.sampleSeed in
  length (coreOf Samples.repeatedCoreCard false) = 2 /\
  length (coreOf Samples.repeatedCoreCard true) = 3 /\
  two = [js "facing an old fear"; js "facing an old fear"] /\
  hashed = [js "facing an old fear"; js "facing an old fear"].
Proof.
  cbv zeta.
  repeat match goal with |- _ /\ _ => split; [vm_compute; reflexivity|] end.
  vm_compute. reflexivity.
Qed.

Lemma score_empty_anchors (text : jsstring) :
  scoreAnchorCoverage text [ []; [] ] = {| matched := 0; total := 2 |}.
Proof. reflexivity. Qed.

(** C5, as the code has it.  When the side has no (non-empty) core
    statement, [pickCanonAnchors] returns two empty anchors, and
    [scoreAnchorCoverage] reports none of the two as covered, for every
    candidate text: an empty anchor has no keyword, and an anchor counts as
    covered only with two keyword hits. *)
Theorem empty_core_is_never_covered (m : MeaningFile) (rev : bool)
    (seed : jsstring) :
  coreOf m rev = [] ->
  pickCanonAnchors m rev seed = [ []; [] ] /\
  forall text,
    scoreAnchorCoverage text (pickCanonAnchors m rev seed) =
    {| matched := 0; total := 2 |}.
Proof.
  intros Hcore.
  assert (Hp : pickCanonAnchors m rev seed = [ []; [] ]).
  { unfold pickCanonAnchors. unfold coreOf in Hcore. now rewrite Hcore. }
  split; [exact Hp|].
  intros text. rewrite Hp. apply score_empty_anchors.
Qed.

Lemma empty_core_is_never_covered_witness :
  pickCanonAnchors Samples.threeCoreCard true Samples.sampleSeed = [ []; [] ] /\
  scoreAnchorCoverage Samples.riversText
    (pickCanonAnchors Samples.threeCoreCard true Samples.sampleSeed) =
  {| matched := 0; total := 2 |}.
Proof.
  destruct (empty_core_is_never_covered Samples.threeCoreCard true
              Samples.sampleSeed) as [Hp Hs].
  - reflexivity.
  - split; [exact Hp | apply Hs].
Defined.

(** C5, as it is stated, fails: with no core statement the coverage of the
    two empty anchors is 0 of 2, not full. *)
Lemma empty_anchors_not_fully_covered :
  let cov := scoreAnchorCoverage Samples.riversText
               (pickCanonAnchors Samples.threeCoreCard true Samples.sampleSeed) in
  core (sideOf Samples.threeCoreCard true) = [] /\
  matched cov <> total cov.
Proof.
  split; [reflexivity|]. vm_compute. discriminate.
Qed.

End Anchors.

(* ------------------------------------------------------------------ *)
(** * Counting words *)
(* ------------------------------------------------------------------ *)

(** [wordCount] counts the maximal runs of non-space code units.  The
    lemmas below relate that count to concatenation, trimming, collapsing
    of white space and the split into sentences. *)
Module Words.

Import Validate Engine Notions.

Lemma splitSpaces_head (r : jsstring) :
  exists p ps, splitSpaces r = p :: ps /\ truthy p = negb (atGap r).
Proof.
  induction r as [|d r IH]; [exists [], []; auto|].
  cbn [splitSpaces atGap]. destruct (isSpace d) eqn:Ed.
  - destruct r as [|c' r'].
    + exists [], [[]]. auto.
    + destruct (isSpace c') eqn:Ec.
      * destruct IH as (p & ps & Hs & Ht). exists p, ps. split; [exact Hs|].
        rewrite Ht. cbn [atGap]. now rewrite Ec.
      * eexists [], _. split; reflexivity.
  - destruct IH as (p & ps & -> & _). exists (d :: p), ps. auto.
Qed.

Lemma count_pieces (s : jsstring) :
  length (filter truthy (splitSpaces s)) = tokens s.
Proof.
  induction s as [|c r IH]; [reflexivity|].
  cbn [splitSpaces tokens]. unfold endsWord.
  destruct (isSpace c) eqn:Ec; cbn [negb andb].
  - destruct r as [|c' r']; [reflexivity|].
    destruct (isSpace c'); [exact IH|]. cbn [filter truthy]. exact IH.
  - destruct (splitSpaces_head r) as (p & ps & Hs & Ht).
    rewrite Hs in *. cbn [filter truthy length].
    cbn [filter] in IH. rewrite Ht in IH.
    destruct (atGap r); cbn [negb] in IH; cbn [length] in IH; lia.
Qed.

Lemma tokens_dropWhile (s : jsstring) :
  tokens (dropWhile isSpace s) = tokens s.
Proof.
  induction s as [|c r IH]; [reflexivity|].
  cbn [dropWhile]. destruct (isSpace c) eqn:Ec; [|reflexivity].
  rewrite IH. cbn [tokens]. unfold endsWord. now rewrite Ec.
Qed.

Lemma tokens_spaces (t : jsstring) : forallb isSpace t = true -> tokens t = 0.
Proof.
  induction t as [|c r IH]; [reflexivity|].
  cbn [forallb tokens]. intros H. apply andb_true_iff in H.
  destruct H as [Hc Hr]. unfold endsWord. rewrite Hc. cbn. auto.
Qed.

Lemma atGap_app (a b : jsstring) : a <> [] -> atGap (a ++ b) = atGap a.
Proof. destruct a; [congruence | reflexivity]. Qed.

(** Words do not join across a gap. *)
Lemma tokens_app_gap (a b : jsstring) :
  atGap b = true -> tokens (a ++ b) = tokens a + tokens b.
Proof.
  intros Hb. induction a as [|c a IH]; [reflexivity|].
  cbn [app tokens]. rewrite IH. unfold endsWord.
  destruct a as [|d a']; cbn [app atGap]; [rewrite Hb|]; lia.
Qed.

Lemma tokens_app_spaces (a t : jsstring) :
  forallb isSpace t = true -> tokens (a ++ t) = tokens a.
Proof.
  intros Ht. destruct t as [|c t']; [now rewrite app_nil_r|].
  rewrite tokens_app_gap.
  - rewrite (tokens_spaces _ Ht). lia.
  - cbn [forallb] in Ht. apply andb_true_iff in Ht. apply Ht.
Qed.

Lemma tokens_head_word (d : N) (b : jsstring) :
  isSpace d = false -> 1 <= tokens (d :: b).
Proof.
  revert d. induction b as [|e b IH]; intros d Hd.
  - cbn. unfold endsWord. rewrite Hd. cbn. lia.
  - cbn [tokens]. unfold endsWord at 1. rewrite Hd. cbn [negb andb atGap].
    destruct (isSpace e) eqn:Ee; [lia|].
    specialize (IH e Ee). cbn [tokens] in IH. lia.
Qed.

Lemma tokens_app_le (a b : jsstring) : tokens a <= tokens (a ++ b).
Proof.
  induction a as [|c a IH]; [cbn; lia|].
  cbn [app tokens]. unfold endsWord.
  destruct a as [|d a'].
  - cbn [app atGap tokens]. destruct b as [|e b']; [cbn; lia|].
    cbn [atGap]. destruct (isSpace c) eqn:Ec; cbn [negb andb]; [lia|].
    destruct (isSpace e) eqn:Ee; [lia|].
    pose proof (@tokens_head_word e b' Ee). lia.
  - cbn [app atGap] in *. lia.
Qed.

Lemma tokens_app_sub (a b : jsstring) :
  tokens (a ++ b) <= tokens a + tokens b.
Proof.
  induction a as [|c a IH]; [cbn; lia|].
  cbn [app tokens]. unfold endsWord.
  destruct a as [|d a'].
  - cbn [app atGap tokens].
    destruct (negb (isSpace c)); cbn [andb]; [destruct (atGap b)|]; lia.
  - cbn [app atGap] in *. lia.
Qed.

Lemma tokens_one_word (t : jsstring) :
  forallb (fun c => negb (isSpace c)) t = true -> tokens t <= 1.
Proof.
  induction t as [|c r IH]; [cbn; lia|].
  cbn [forallb]. intros H. apply andb_true_iff in H. destruct H as [Hc Hr].
  specialize (IH Hr). cbn [tokens]. unfold endsWord.
  destruct r as [|d r'].
  - cbn. destruct (negb (isSpace c)); cbn; lia.
  - cbn [forallb] in Hr. apply andb_true_iff in Hr. destruct Hr as [Hd _].
    cbn [atGap]. apply negb_true_iff in Hd. rewrite Hd.
    rewrite andb_false_r. lia.
Qed.

Lemma dropWhile_split (p : N -> bool) (l : jsstring) :
  exists a, l = a ++ dropWhile p l /\ forallb p a = true.
Proof.
  induction l as [|c r IH]; [exists []; auto|].
  cbn [dropWhile]. destruct (p c) eqn:Ec.
  - destruct IH as (a & Ha & Hp). exists (c :: a). cbn [app forallb].
    rewrite Ec, Hp. split; [congruence | reflexivity].
  - exists []. auto.
Qed.

(** What [rev (dropWhile p (rev s))] removes from the end of [s]. *)
Lemma dropEnd_split (p : N -> bool) (s : jsstring) :
  exists t, s = rev (dropWhile p (rev s)) ++ t /\ forallb p t = true.
Proof.
  destruct (dropWhile_split p (rev s)) as (a & Ha & Hp).
  exists (rev a). split.
  - rewrite <- rev_app_distr, <- Ha. now rewrite rev_involutive.
  - rewrite forallb_forall in *. intros x Hx. apply Hp.
    now apply in_rev.
Qed.

Lemma tokens_trimEnd (s : jsstring) : tokens (trimEnd s) = tokens s.
Proof.
  unfold trimEnd. destruct (dropEnd_split isSpace s) as (t & Hs & Ht).
  rewrite Hs at 2. now rewrite tokens_app_spaces.
Qed.

Lemma tokens_trim (s : jsstring) : tokens (trim s) = tokens s.
Proof.
  unfold trim, trimStart. now rewrite tokens_trimEnd, tokens_dropWhile.
Qed.

Lemma wordCount_tokens (s : jsstring) : wordCount s = tokens s.
Proof. unfold wordCount. now rewrite count_pieces, tokens_trim. Qed.

Lemma atGap_collapse (r : jsstring) : atGap (collapseSpaces r) = atGap r.
Proof.
  induction r as [|d r IH]; [reflexivity|].
  cbn [collapseSpaces atGap]. destruct (isSpace d) eqn:Ed; [|cbn; auto].
  destruct r as [|e r']; [reflexivity|].
  cbn [headIsSpace]. destruct (isSpace e) eqn:Ee; [|reflexivity].
  rewrite IH. cbn [atGap]. exact Ee.
Qed.

Lemma tokens_collapse (s : jsstring) : tokens (collapseSpaces s) = tokens s.
Proof.
  induction s as [|c r IH]; [reflexivity|].
  cbn [collapseSpaces tokens]. unfold endsWord.
  destruct (isSpace c) eqn:Ec; cbn [negb andb].
  - destruct (headIsSpace r); [exact IH|].
    cbn [tokens]. unfold endsWord. cbn. exact IH.
  - cbn [tokens]. unfold endsWord. rewrite Ec, atGap_collapse, IH.
    reflexivity.
Qed.

Lemma tokens_join (l : list jsstring) :
  tokens (join (js " ") l) = totalTokens l.
Proof.
  induction l as [|x r IH]; [reflexivity|].
  destruct r as [|y r'].
  - cbn. lia.
  - change (join (js " ") (x :: y :: r'))
      with (x ++ js " " ++ join (js " ") (y :: r')).
    rewrite tokens_app_gap by reflexivity.
    change (tokens (js " " ++ join (js " ") (y :: r')))
      with (tokens (join (js " ") (y :: r'))).
    rewrite IH. reflexivity.
Qed.

Lemma terminal_not_space (c : N) : isTerminal c = true -> isSpace c = false.
Proof.
  unfold isTerminal. intros H.
  repeat (apply orb_true_iff in H; destruct H as [H|H]);
    apply N.eqb_eq in H; subst; reflexivity.
Qed.








(** X2.  For every text, [wordCount] is the number of maximal runs of
    non-space code units; white space at the ends or repeated between
    words does not change it. *)
Theorem wordCount_counts_word_ends (s : jsstring) :
  wordCount s = tokens s /\
  wordCount (trim s) = wordCount s /\
  wordCount (collapseSpaces s) = wordCount s.
Proof.
  rewrite !wordCount_tokens, tokens_trim, tokens_collapse. auto.
Qed.

End Words.

(* ------------------------------------------------------------------ *)
(** * Properties of the deterministic padding *)
(* ------------------------------------------------------------------ *)

Module Padding.

Import Validate Engine Words Notions.









End Padding.

(* ------------------------------------------------------------------ *)
(** * Properties of the JSON reader *)
(* ------------------------------------------------------------------ *)

Module JsonFacts.

Import Json.

Lemma eqb_eq (a b : jsstring) : JsString.eqb a b = true <-> a = b.
Proof.
  revert b. induction a as [|x a IH]; intros [|y b]; cbn [JsString.eqb];
    try (split; congruence).
  rewrite andb_true_iff, N.eqb_eq, IH. split.
  - intros [-> ->]. reflexivity.
  - intros [= -> ->]. auto.
Qed.

Lemma existsb_eqb (k : jsstring) (l : list jsstring) :
  existsb (JsString.eqb k) l = true <-> In k l.
Proof.
  rewrite existsb_exists. split.
  - intros (x & Hx & E). apply eqb_eq in E. now subst.
  - intros H. exists k. split; [exact H | now apply eqb_eq].
Qed.

Lemma In_firstOccurrences (k : jsstring) (seen l : list jsstring) :
  In k (firstOccurrences seen l) <-> In k l /\ ~ In k seen.
Proof.
  revert seen. induction l as [|x l IH]; intros seen; cbn [firstOccurrences].
  - cbn. tauto.
  - destruct (existsb (JsString.eqb x) seen) eqn:E.
    + apply existsb_eqb in E. rewrite IH. cbn [In]. split.
      * tauto.
      * intros [[<-|H] Hn]; tauto.
    + assert (Hx : ~ In x seen).
      { intros H. apply existsb_eqb in H. congruence. }
      cbn [In]. rewrite IH. cbn [In]. split.
      * intros [<-|[H Hn]]; [tauto|]. split; [tauto|]. intros Hs. apply Hn. auto.
      * intros [[<-|H] Hn]; [tauto|].
        destruct (list_eq_dec N.eq_dec x k) as [<-|Hd]; [tauto|].
        right. split; [exact H|]. intros [?|?]; tauto.
Qed.

Lemma In_insertByValue (k x : jsstring) (l : list jsstring) :
  In k (insertByValue x l) <-> k = x \/ In k l.
Proof.
  induction l as [|y l IH]; cbn [insertByValue].
  - cbn. intuition congruence.
  - destruct (_ <=? _)%N; cbn [In]; [intuition congruence|].
    rewrite IH. intuition congruence.
Qed.

Lemma In_sorted (k : jsstring) (l : list jsstring) :
  In k (fold_right insertByValue [] l) <-> In k l.
Proof.
  induction l as [|x l IH]; cbn [fold_right]; [tauto|].
  rewrite In_insertByValue, IH. cbn. intuition congruence.
Qed.

(** [Object.keys] lists exactly the names of the members. *)
Lemma In_keys (k : jsstring) (members : list (jsstring * value)) :
  In k (keys members) <-> In k (map fst members).
Proof.
  unfold keys. rewrite in_app_iff, In_sorted, !filter_In, In_firstOccurrences.
  cbn [In]. destruct (isArrayIndex k); cbn [negb]; intuition congruence.
Qed.

Lemma no_extra_keys (members : list (jsstring * value)) :
  filter (fun k => negb (JsString.eqb k (js "text"))) (keys members) = [] <->
  (forall k, In k (map fst members) -> k = js "text").
Proof.
  split.
  - intros H k Hk. apply In_keys in Hk.
    destruct (JsString.eqb k (js "text")) eqn:E; [now apply eqb_eq|].
    assert (Hin : In k (filter (fun k => negb (JsString.eqb k (js "text")))
                               (keys members))).
    { apply filter_In. split; [exact Hk | now rewrite E]. }
    rewrite H in Hin. destruct Hin.
  - intros H.
    destruct (filter _ (keys members)) as [|k rest] eqn:E; [reflexivity|].
    assert (Hin : In k (filter (fun k => negb (JsString.eqb k (js "text")))
                               (keys members))) by (rewrite E; now left).
    apply filter_In in Hin. destruct Hin as [Hk Hne].
    apply In_keys in Hk. apply H in Hk. subst k. discriminate.
Qed.

End JsonFacts.

Module ParseFacts.

Import Validate Engine JsonFacts Notions.

Lemma parseJsonOnly_ok (raw t : jsstring) :
  parseJsonOnly raw = Ok t <-> jsonTextBetweenBraces raw t.
Proof.
  unfold parseJsonOnly, jsonTextBetweenBraces. cbv zeta.
  destruct (indexOf (trim raw) (js "{")) as [first|] eqn:Ef.
  2:{ split; [discriminate|]. intros (? & ? & ? & ? & [=] & _). }
  destruct (lastIndexOf (trim raw) (js "}")) as [last|] eqn:El.
  2:{ split; [discriminate|]. intros (? & ? & ? & ? & _ & [=] & _). }
  destruct (last <=? first) eqn:Ele.
  { apply Nat.leb_le in Ele. split; [discriminate|].
    intros (f & l & ? & ? & [= <-] & [= <-] & Hlt & _). lia. }
  apply Nat.leb_gt in Ele.
  destruct (Json.parse (slice (trim raw) first (last + 1))) as [obj|] eqn:Ep.
  2:{ split; [discriminate|].
      intros (f & l & ? & ? & [= <-] & [= <-] & _ & Hp & _). congruence. }
  destruct obj as [|b|lexeme|s|items|members];
    try (split; [discriminate|];
         intros (f & l & ms & ? & [= <-] & [= <-] & _ & Hp & _);
         rewrite Ep in Hp; discriminate).
  destruct (Json.getProperty members (js "text")) as [val|] eqn:Eg.
  2:{ split; [discriminate|].
      intros (f & l & ms & ? & [= <-] & [= <-] & _ & Hp & Hg & _).
      rewrite Ep in Hp. injection Hp as <-. congruence. }
  destruct val as [|b|lexeme|v|items|ms];
    try (split; [discriminate|];
         intros (f & l & ms' & ? & [= <-] & [= <-] & _ & Hp & Hg & _);
         rewrite Ep in Hp; injection Hp as <-;
         rewrite Eg in Hg; discriminate).
  set (extra := filter _ (Json.keys members)).
  pose proof (no_extra_keys members) as Hkeys. fold extra in Hkeys.
  destruct extra as [|k rest] eqn:Ex; cbn [length Nat.eqb negb].
  - destruct (truthy (trim v)) eqn:Et; cbn [negb].
    + split.
      * intros [= <-]. exists first, last, members, v.
        repeat split; auto.
        -- now apply Hkeys.
        -- intros E. rewrite E in Et. discriminate.
      * intros (f & l & ms' & v' & [= <-] & [= <-] & _ & Hp & Hg & _ & -> & _).
        rewrite Ep in Hp. injection Hp as <-.
        rewrite Eg in Hg. now injection Hg as <-.
    + split; [discriminate|].
      intros (f & l & ms' & v' & [= <-] & [= <-] & _ & Hp & Hg & _ & -> & Hne).
      rewrite Ep in Hp. injection Hp as <-.
      rewrite Eg in Hg. injection Hg as <-.
      apply HardGate.truthy_false_iff in Et. contradiction.
  - split; [discriminate|].
    intros (f & l & ms' & v' & [= <-] & [= <-] & _ & Hp & _ & Hall & _).
    rewrite Ep in Hp. injection Hp as <-.
    apply Hkeys in Hall. discriminate.
Qed.

End ParseFacts.

(* ------------------------------------------------------------------ *)
(** * Properties of the generation loop *)
(* ------------------------------------------------------------------ *)

Module RunFacts.

Import Validate Engine Notions.

Lemma valid_dec (role : Role) (t : jsstring) :
  valid role t \/ exists m, validateText t role HARD = Throw m.
Proof. apply ValidateFacts.result_unit_cases. Qed.

(** A reply that was parsed and passed the hard gate. *)
Lemma checked_reply_valid (role : Role) (reply : result jsstring)
    (w : jsstring) :
  (repairedRaw <- reply ;;
   parsed <- parseJsonOnly repairedRaw ;;
   validateText parsed role HARD ;;;
   Ok parsed) = Ok w ->
  exists raw, reply = Ok raw /\ parseJsonOnly raw = Ok w /\ valid role w.
Proof.
  unfold bind, valid. destruct reply as [raw|]; [|discriminate].
  destruct (parseJsonOnly raw) as [p|] eqn:Ep; [|discriminate].
  destruct (validateText p role HARD) as [[]|] eqn:E; [|discriminate].
  intros [= <-]. exists raw. auto.
Qed.

Section Loop.

Variable env : Env.
Variable input : CardGenInput.
Variable role : Role.
Variable canonLines : list jsstring.
Variable anchors : list jsstring.

Lemma repairRounds_valid (rounds : nat) :
  forall calls working reason res calls',
    repairRounds env role anchors rounds calls working reason = (res, calls') ->
    valid role working ->
    match res with
    | RoundsReturn w | RoundsDone w => valid role w
    | RoundsThrew _ => True
    end.
Proof.
  induction rounds as [|k IH]; intros calls working reason res calls' H Hv;
    cbn [repairRounds] in H.
  - injection H as <- <-. exact Hv.
  - unfold ask in H.
    destruct (bind _ _) as [w|m] eqn:E.
    + apply checked_reply_valid in E. destruct E as (raw & _ & _ & Hw).
      destruct (_ && _).
      * injection H as <- <-. exact Hw.
      * eapply IH; eauto.
    + injection H as <- <-. exact I.
Qed.

Lemma tryDraft_valid (raw : jsstring) (calls calls' : Calls) (res : TryResult) :
  tryDraft env input role anchors raw calls = (res, calls') ->
  match res with
  | TryReturn t => valid role t
  | TryEnd w _ => valid role w
  | TryCaught _ text => text = [] \/ parseJsonOnly raw = Ok text
  end.
Proof.
  unfold tryDraft.
  destruct (parseJsonOnly raw) as [text|m] eqn:Ep.
  2:{ intros [= <- <-]. now left. }
  destruct (validateText text role HARD) as [[]|m] eqn:Ev.
  2:{ intros [= <- <-]. now right. }
  cbv zeta.
  destruct (needsRepair _ _ _ _ _ _) as [[|]|m].
  - destruct (repairRounds _ _ _ _ _ _ _) as [rr calls2] eqn:Er.
    pose proof Er as Hrr. apply repairRounds_valid in Hrr; [|exact Ev].
    destruct rr as [w|m|w].
    + intros [= <- <-]. exact Hrr.
    + intros [= <- <-]. now right.
    + destruct (Nat.eqb _ _); intros [= <- <-]; exact Hrr.
  - intros [= <- <-]. exact Ev.
  - intros [= <- <-]. now right.
Qed.

Lemma lengthRepair_valid (text t : jsstring) (calls calls' : Calls) :
  lengthRepair env input role canonLines text calls = (Ok t, calls') ->
  valid role t.
Proof.
  unfold lengthRepair, ask, bind, valid.
  destruct (ollamaChat env _ _) as [raw|]; [|discriminate].
  destruct (parseJsonOnly raw) as [p|]; [|discriminate].
  cbv zeta.
  destruct (validateText _ role HARD) as [[]|] eqn:E; [|discriminate].
  intros [= <- _]. exact E.
Qed.

Lemma catchBlock_good (msg text : jsstring) (calls calls' : Calls)
    (st : LoopState) (out : CardGenOutput) :
  catchBlock env input role canonLines msg text calls st = Returned out calls' ->
  goodOutput env input role out.
Proof.
  unfold catchBlock. cbv zeta.
  destruct (truthy text && isWordCountError msg); [|discriminate].
  destruct (lengthRepair _ _ _ _ _ _) as [[t|m] calls1] eqn:E; [|discriminate].
  intros [= <- _]. exists t. split; [reflexivity|].
  eapply lengthRepair_valid; eauto.
Qed.

Lemma attempt_good (st : LoopState) (out : CardGenOutput) (calls' : Calls) :
  attempt env input role canonLines anchors st = Returned out calls' ->
  goodOutput env input role out.
Proof.
  unfold attempt, ask.
  destruct (ollamaChat env _ _) as [raw|]; [|discriminate].
  destruct (tryDraft _ _ _ _ _ _) as [[t|m text|w cov] calls2] eqn:E.
  - intros [= <- _]. exists t. split; [reflexivity|].
    apply tryDraft_valid in E. exact E.
  - apply catchBlock_good.
  - discriminate.
Qed.

Lemma draftLoop_good (attempts : nat) :
  forall st out calls',
    draftLoop env input role canonLines anchors attempts st = Returned out calls' ->
    goodOutput env input role out.
Proof.
  induction attempts as [|k IH]; intros st out calls'; cbn [draftLoop];
    [discriminate|].
  destruct (attempt _ _ _ _ _ _) as [o c|m c|st'] eqn:E.
  - intros [= <- <-]. eapply attempt_good; eauto.
  - discriminate.
  - apply IH.
Qed.

Lemma band_tests (wc : nat) :
  (wc <? TARGET_MIN) || (TARGET_MAX <? wc) = negb (inTargetBand wc).
Proof.
  unfold inTargetBand.
  destruct (wc <? TARGET_MIN) eqn:E1, (TARGET_MAX <? wc) eqn:E2,
           (TARGET_MIN <=? wc) eqn:E3, (wc <=? TARGET_MAX) eqn:E4;
    try reflexivity;
    repeat match goal with
           | H : (_ <? _) = true |- _ => apply Nat.ltb_lt in H
           | H : (_ <? _) = false |- _ => apply Nat.ltb_ge in H
           | H : (_ <=? _) = true |- _ => apply Nat.leb_le in H
           | H : (_ <=? _) = false |- _ => apply Nat.leb_gt in H
           end; lia.
Qed.

Lemma valid_truthy (t : jsstring) : valid role t -> truthy t = true.
Proof.
  unfold valid. rewrite HardGate.validateText_cascade. cbv zeta.
  destruct t as [|c t']; [|reflexivity].
  cbn. discriminate.
Qed.

Lemma finalFallback_good (st : LoopState) (out : CardGenOutput)
    (calls' : Calls) :
  finalFallback env input role st = (Ok out, calls') ->
  goodOutput env input role out.
Proof.
  unfold finalFallback, ask. cbv zeta.
  destruct (lastText st) as [lt|]; [|discriminate].
  destruct (truthy lt); [|discriminate].
  destruct (validateText lt role HARD) as [[]|] eqn:Ev; [|discriminate].
  destruct (_ || _).
  - destruct (bind _ _) as [w|m] eqn:E; [|discriminate].
    apply checked_reply_valid in E. destruct E as (raw & _ & _ & Hw).
    intros [= <- _]. exists w. auto.
  - intros [= <- _]. exists lt. auto.
Qed.

Lemma runLoop_good (out : CardGenOutput) (calls' : Calls) :
  runLoop env input role canonLines anchors = (Ok out, calls') ->
  goodOutput env input role out.
Proof.
  unfold runLoop.
  destruct (draftLoop _ _ _ _ _ _ _) as [o c|m c|st] eqn:E.
  - intros [= <- <-]. eapply draftLoop_good; eauto.
  - discriminate.
  - apply finalFallback_good.
Qed.

(** A draft reply that does not parse costs the attempt and nothing else. *)
Lemma attempt_format_failure (st : LoopState) (raw m : jsstring) :
  ollamaChat env (length (calls st)) DraftOnce = Ok raw ->
  parseJsonOnly raw = Throw m ->
  attempt env input role canonLines anchors st =
  NextAttempt {| calls := DraftOnce :: calls st;
                 lastErr := Some m;
                 lastText := lastText st |}.
Proof.
  intros Hraw Hparse. unfold attempt, ask. rewrite Hraw.
  unfold tryDraft. rewrite Hparse. reflexivity.
Qed.

(** The three ways the code after the loop ends. *)
Lemma finalFallback_in_band (st : LoopState) (lt : jsstring) :
  lastText st = Some lt -> valid role lt ->
  inTargetBand (wordCount lt) = true ->
  finalFallback env input role st =
  (Ok (output input (nowISO env) lt), calls st).
Proof.
  intros Hl Hv Hb. unfold finalFallback. cbv zeta.
  rewrite Hl, (valid_truthy Hv), Hv, band_tests, Hb. reflexivity.
Qed.

Lemma finalFallback_repaired (st : LoopState) (lt raw r : jsstring) :
  lastText st = Some lt -> valid role lt ->
  inTargetBand (wordCount lt) = false ->
  ollamaChat env (length (calls st)) (MicroRepairForLength lt) = Ok raw ->
  parseJsonOnly raw = Ok r -> valid role r ->
  finalFallback env input role st =
  (Ok (output input (nowISO env) r), MicroRepairForLength lt :: calls st).
Proof.
  intros Hl Hv Hb Hraw Hp Hr. unfold finalFallback, ask. cbv zeta.
  rewrite Hl, (valid_truthy Hv), Hv, band_tests, Hb. cbn [negb].
  rewrite Hraw. unfold bind. rewrite Hp, Hr. reflexivity.
Qed.

Lemma finalFallback_no_valid_text (st : LoopState) :
  lastText st = None \/ (exists lt, lastText st = Some lt /\ ~ valid role lt) ->
  finalFallback env input role st =
  (Throw (exhaustedMessage (lastErr st)), calls st).
Proof.
  unfold finalFallback. cbv zeta. intros [Hl|(lt & Hl & Hn)]; rewrite Hl.
  - reflexivity.
  - destruct (truthy lt); [|reflexivity].
    destruct (valid_dec role lt) as [Hv|(m & Hm)]; [contradiction|].
    rewrite Hm. reflexivity.
Qed.

End Loop.

Lemma exhausted_run (env : Env) (input : CardGenInput) (st : LoopState)
    (role : Role) :
  Roles.roleFromIdKey (idKey input) = Ok role ->
  attemptsExhausted env input st ->
  generateCardMessage env input = finalFallback env input role st.
Proof.
  intros Hrole (role' & meaning & Hrole' & Hload & Hloop).
  rewrite Hrole in Hrole'. injection Hrole' as <-.
  unfold generateCardMessage, runLoop. rewrite Hrole, Hload, Hloop.
  reflexivity.
Qed.

Lemma generateCardMessage_good (env : Env) (input : CardGenInput)
    (out : CardGenOutput) (calls : Calls) :
  generateCardMessage env input = (Ok out, calls) ->
  exists role,
    Roles.roleFromIdKey (idKey input) = Ok role /\
    goodOutput env input role out.
Proof.
  unfold generateCardMessage.
  destruct (Roles.roleFromIdKey (idKey input)) as [role|]; [|discriminate].
  destruct (loadMajorMeaning env (cardId input)) as [meaning|]; [|discriminate].
  intros H. exists role. split; [reflexivity|].
  eapply runLoop_good; eauto.
Qed.

(** C1.  [generateCardMessage] ends in one of two ways, a thrown error or a
    returned result; and whenever it returns, on whichever path (after soft
    repair, on coverage alone, after the length repair, or as the final
    fallback), the returned text passes the hard gate for the role of the
    request: [validateText] with 75, 150 and imperative enforcement does not
    throw on it. *)
Theorem generateCardMessage_returns_valid (env : Env) (input : CardGenInput)
    (out : CardGenOutput) (calls : Calls) :
  generateCardMessage env input = (Ok out, calls) ->
  exists role,
    Roles.roleFromIdKey (idKey input) = Ok role /\
    validateText (text out) role
      {| minWords := Some 75%Z; maxWords := Some 150%Z;
         requireSentenceCount := None; enforceNoImperatives := Some true |}
    = Ok tt.
Proof.
  intros H. apply generateCardMessage_good in H.
  destruct H as (role & Hrole & t & -> & Hv).
  exists role. split; [exact Hrole | exact Hv].
Qed.

(** A three-word draft, repaired to 75 words by the length repair. *)
Lemma generateCardMessage_returns_valid_witness :
  exists out calls,
    generateCardMessage (Samples.envWith Samples.shortThenRepaired)
                        Samples.pastRequest = (Ok out, calls) /\
    text out = Samples.riversText /\
    validateText (text out) Past HARD = Ok tt.
Proof.
  eexists. eexists. split; [vm_compute; reflexivity|].
  split; [reflexivity|].
  destruct (@generateCardMessage_returns_valid
              (Samples.envWith Samples.shortThenRepaired) Samples.pastRequest
              (output Samples.pastRequest (js "2026-01-01T00:00:00.000Z")
                      Samples.riversText)
              [MicroRepairForLength (js "too short"); DraftOnce])
    as (role & Hrole & Hvalid).
  - vm_compute. reflexivity.
  - vm_compute in Hrole. injection Hrole as <-. exact Hvalid.
Defined.

End RunFacts.

(* ------------------------------------------------------------------ *)
(** * The final fallback *)
(* ------------------------------------------------------------------ *)

Module Fallback.

Import Validate Engine RunFacts Notions.

(** C2, as the code has it.  When all draft attempts are used up, the code
    looks at the last recorded text only.  If that text passes the hard gate
    and its word count is within the target band, it is returned as it is,
    with no further call of the generator.  If it passes the hard gate and is
    outside the band, one micro-repair call is made, and when the reply
    parses and passes the hard gate the repaired text is returned.  If no
    text was recorded, or the last recorded text does not pass the hard
    gate, the run fails with the exhaustion error that carries the last
    recorded error. *)
Theorem exhausted_attempts_fallback (env : Env) (input : CardGenInput)
    (role : Role) (st : LoopState) :
  Roles.roleFromIdKey (idKey input) = Ok role ->
  attemptsExhausted env input st ->
  (forall lt,
      lastText st = Some lt -> validateText lt role HARD = Ok tt ->
      inTargetBand (wordCount lt) = true ->
      generateCardMessage env input =
      (Ok (output input (nowISO env) lt), calls st)) /\
  (forall lt raw r,
      lastText st = Some lt -> validateText lt role HARD = Ok tt ->
      inTargetBand (wordCount lt) = false ->
      ollamaChat env (length (calls st)) (MicroRepairForLength lt) = Ok raw ->
      parseJsonOnly raw = Ok r -> validateText r role HARD = Ok tt ->
      generateCardMessage env input =
      (Ok (output input (nowISO env) r),
       MicroRepairForLength lt :: calls st)) /\
  (lastText st = None \/
   (exists lt, lastText st = Some lt /\ validateText lt role HARD <> Ok tt) ->
   generateCardMessage env input =
   (Throw (js "Failed to generate valid output. Last error: " ++
           orDefault (js "unknown") (lastErr st)),
    calls st)).
Proof.
  intros Hrole Hex. rewrite (exhausted_run Hrole Hex).
  split; [|split].
  - intros lt Hl Hv Hb. now apply finalFallback_in_band.
  - intros lt raw r Hl Hv Hb Hraw Hp Hr.
    now apply finalFallback_repaired with (raw := raw).
  - intros H. now apply finalFallback_no_valid_text.
Qed.

(** Three valid drafts whose repairs break, then a draft that fails the hard
    gate: the last recorded text is the failing one, and the run fails with
    the exhaustion error. *)
Lemma exhausted_attempts_fallback_witness :
  attemptsExhausted (Samples.envWith Samples.validThenImperative)
                    Samples.pastRequest Samples.stateAfterImperative /\
  lastText Samples.stateAfterImperative = Some Samples.takeText /\
  generateCardMessage (Samples.envWith Samples.validThenImperative)
                      Samples.pastRequest =
  (Throw (js "Failed to generate valid output. Last error: " ++
          imperativeMessage (js "take ")),
   calls Samples.stateAfterImperative).
Proof.
  assert (Hex : attemptsExhausted (Samples.envWith Samples.validThenImperative)
                                  Samples.pastRequest
                                  Samples.stateAfterImperative).
  { exists Past, Samples.threeCoreCard.
    split; [reflexivity|]. split; [reflexivity|]. vm_compute. reflexivity. }
  split; [exact Hex|]. split; [reflexivity|].
  refine (proj2 (proj2 (@exhausted_attempts_fallback
                          (Samples.envWith Samples.validThenImperative)
                          Samples.pastRequest Past
                          Samples.stateAfterImperative eq_refl Hex)) _).
  right. exists Samples.takeText. split; [reflexivity|].
  vm_compute. discriminate.
Defined.

(** C2, as it is stated, fails: the first draft of this run passes the hard
    gate, so a hard-gate-valid text was observed, and the run still ends in
    the exhaustion error, because the last recorded text is a later draft
    that does not pass. *)
Lemma valid_text_observed_yet_exhausted :
  let env := Samples.envWith Samples.validThenImperative in
  ollamaChat env 0 DraftOnce = Ok (Samples.jsonOf Samples.riversText) /\
  parseJsonOnly (Samples.jsonOf Samples.riversText) = Ok Samples.riversText /\
  validateText Samples.riversText Past HARD = Ok tt /\
  fst (generateCardMessage env Samples.pastRequest) =
  Throw (js "Failed to generate valid output. Last error: " ++
         imperativeMessage (js "take ")).
Proof.
  cbv zeta.
  repeat match goal with
         | |- _ /\ _ => split; [vm_compute; reflexivity|]
         end.
  vm_compute. reflexivity.
Qed.

End Fallback.

(* ------------------------------------------------------------------ *)
(** * Format failures *)
(* ------------------------------------------------------------------ *)

Module Format.

Import Validate Engine RunFacts ParseFacts Notions.

(** C7, as the code has it.  [parseJsonOnly] succeeds exactly when the part
    of the trimmed response from its first [{] to its last [}] is a JSON
    object whose members are all named [text], with a string value that is
    not empty after trimming; what stands before the first [{] and after
    the last [}] is not read.  So an object with a key besides [text] is
    rejected.  A draft reply that is rejected costs the attempt and nothing
    else: the error is recorded, no further call is made in the attempt and
    the loop goes on. *)
Theorem parseJsonOnly_accepts_exactly (raw : jsstring) :
  (forall t, parseJsonOnly raw = Ok t <-> jsonTextBetweenBraces raw t) /\
  (forall first last members k,
      indexOf (trim raw) (js "{") = Some first ->
      lastIndexOf (trim raw) (js "}") = Some last ->
      Json.parse (slice (trim raw) first (last + 1)) =
        Some (Json.JObject members) ->
      In k (map fst members) -> k <> js "text" ->
      exists m, parseJsonOnly raw = Throw m) /\
  (forall m env input role canonLines anchors st,
      parseJsonOnly raw = Throw m ->
      ollamaChat env (length (calls st)) DraftOnce = Ok raw ->
      attempt env input role canonLines anchors st =
      NextAttempt {| calls := DraftOnce :: calls st;
                     lastErr := Some m;
                     lastText := lastText st |}).
Proof.
  split; [|split].
  - intros t. apply parseJsonOnly_ok.
  - intros first last members k Hf Hl Hp Hk Hne.
    destruct (parseJsonOnly raw) as [t|m] eqn:E; [|now exists m].
    apply parseJsonOnly_ok in E.
    destruct E as (f & l & ms & v & Hf' & Hl' & _ & Hp' & _ & Hall & _).
    rewrite Hf in Hf'. injection Hf' as <-.
    rewrite Hl in Hl'. injection Hl' as <-.
    rewrite Hp in Hp'. injection Hp' as <-.
    elim Hne. now apply Hall.
  - intros m env input role canonLines anchors st Hparse Hraw.
    now apply attempt_format_failure with (raw := raw).
Qed.

(** C7, as it is stated, fails: a response that is not JSON (prose around
    an object) is accepted. *)
Lemma prose_around_object_accepted :
  let raw := jsq "Sure! {'text':'hi'} Hope it helps." in
  Json.parse (trim raw) = None /\ parseJsonOnly raw = Ok (js "hi").
Proof.
  cbv zeta. split; vm_compute; reflexivity.
Qed.

End Format.

(* ------------------------------------------------------------------ *)
(** * Repeatable key and outcome *)
(* ------------------------------------------------------------------ *)

Module Determinism.

Import Validate Engine RunFacts Notions.

Section Clock.

Variable load : jsstring -> result MeaningFile.
Variable chat : Generator.
Variables now1 now2 : jsstring.

Let env1 := {| loadMajorMeaning := load; ollamaChat := chat; nowISO := now1 |}.
Let env2 := {| loadMajorMeaning := load; ollamaChat := chat; nowISO := now2 |}.

Variable input : CardGenInput.
Variable role : Role.
Variable canonLines : list jsstring.
Variable anchors : list jsstring.

Lemma repairRounds_clock (rounds : nat) :
  forall calls working reason,
    repairRounds env2 role anchors rounds calls working reason =
    repairRounds env1 role anchors rounds calls working reason.
Proof.
  induction rounds as [|k IH]; intros calls working reason; [reflexivity|].
  cbn [repairRounds]. unfold ask. cbn [ollamaChat env1 env2].
  destruct (bind _ _) as [w|m]; [|reflexivity].
  destruct (_ && _); [reflexivity|]. apply IH.
Qed.

Lemma tryDraft_clock (raw : jsstring) (calls : Calls) :
  tryDraft env2 input role anchors raw calls =
  tryDraft env1 input role anchors raw calls.
Proof.
  unfold tryDraft.
  destruct (parseJsonOnly raw) as [text|]; [|reflexivity].
  destruct (validateText text role HARD); [|reflexivity].
  cbv zeta. destruct (needsRepair _ _ _ _ _ _) as [[|]|]; [|reflexivity..].
  rewrite repairRounds_clock. reflexivity.
Qed.

Lemma catchBlock_clock (msg text : jsstring) (calls : Calls) (st : LoopState) :
  catchBlock env2 input role canonLines msg text calls st =
  restampOutcome now2 (catchBlock env1 input role canonLines msg text calls st).
Proof.
  unfold catchBlock. cbv zeta.
  destruct (truthy text && isWordCountError msg); [|reflexivity].
  change (lengthRepair env2 input role canonLines text calls)
    with (lengthRepair env1 input role canonLines text calls).
  destruct (lengthRepair env1 input role canonLines text calls) as [[t|m] c];
    reflexivity.
Qed.

Lemma attempt_clock (st : LoopState) :
  attempt env2 input role canonLines anchors st =
  restampOutcome now2 (attempt env1 input role canonLines anchors st).
Proof.
  unfold attempt, ask. cbn [ollamaChat env1 env2].
  destruct (chat _ _) as [raw|m]; [|reflexivity].
  rewrite tryDraft_clock.
  destruct (tryDraft env1 input role anchors raw _) as [[t|m text|w cov] c].
  - reflexivity.
  - apply catchBlock_clock.
  - reflexivity.
Qed.

Lemma draftLoop_clock (attempts : nat) :
  forall st,
    draftLoop env2 input role canonLines anchors attempts st =
    restampOutcome now2 (draftLoop env1 input role canonLines anchors attempts st).
Proof.
  induction attempts as [|k IH]; intros st; [reflexivity|].
  cbn [draftLoop]. rewrite attempt_clock.
  destruct (attempt env1 input role canonLines anchors st) as [o c|m c|st'];
    cbn [restampOutcome]; [reflexivity | reflexivity | apply IH].
Qed.

Lemma finalFallback_clock (st : LoopState) :
  finalFallback env2 input role st =
  restampResult now2 (finalFallback env1 input role st).
Proof.
  unfold finalFallback, ask. cbv zeta. cbn [ollamaChat nowISO env1 env2].
  destruct (lastText st) as [lt|]; [|reflexivity].
  destruct (truthy lt); [|reflexivity].
  destruct (validateText lt role HARD); [|reflexivity].
  destruct (_ || _); [|reflexivity].
  destruct (bind _ _); reflexivity.
Qed.

Lemma runLoop_clock :
  runLoop env2 input role canonLines anchors =
  restampResult now2 (runLoop env1 input role canonLines anchors).
Proof.
  unfold runLoop. rewrite draftLoop_clock.
  destruct (draftLoop env1 _ _ _ _ _ _) as [o c|m c|st];
    cbn [restampOutcome restampResult]; try reflexivity.
  apply finalFallback_clock.
Qed.

End Clock.

Lemma generateCardMessage_clock (load : jsstring -> result MeaningFile)
    (chat : Generator) (now1 now2 : jsstring) (input : CardGenInput) :
  generateCardMessage
    {| loadMajorMeaning := load; ollamaChat := chat; nowISO := now2 |} input =
  restampResult now2
    (generateCardMessage
       {| loadMajorMeaning := load; ollamaChat := chat; nowISO := now1 |}
       input).
Proof.
  unfold generateCardMessage. cbn [loadMajorMeaning].
  destruct (Roles.roleFromIdKey (idKey input)) as [role|]; [|reflexivity].
  destruct (load (cardId input)) as [meaning|]; [|reflexivity].
  apply runLoop_clock.
Qed.

(** C9.  The key of a result is the [|]-joined tuple of spreadId, idKey,
    intentionId, cardId and the orientation flag ([r] or [u]): whatever the
    canon store and the generator answer, a returned result carries that
    key.  And two runs on the same request, the same canon store and the
    same scripted generator, at two different times, end alike: both fail
    with the same error or both return the same key and text. *)
Theorem key_and_outcome_repeatable (input : CardGenInput) :
  makeKey input =
    join (js "|")
         [ spreadId input; idKey input; intentionId input; cardId input;
           if isReversed input then js "r" else js "u" ] /\
  (forall env out calls,
      generateCardMessage env input = (Ok out, calls) ->
      key out = makeKey input) /\
  (forall load chat now1 now2,
      sameOutcome
        (generateCardMessage
           {| loadMajorMeaning := load; ollamaChat := chat; nowISO := now1 |}
           input)
        (generateCardMessage
           {| loadMajorMeaning := load; ollamaChat := chat; nowISO := now2 |}
           input)).
Proof.
  split; [|split].
  - reflexivity.
  - intros env out calls H. apply generateCardMessage_good in H.
    destruct H as (role & _ & t & -> & _). reflexivity.
  - intros load chat now1 now2.
    rewrite (generateCardMessage_clock load chat now1 now2 input).
    destruct (generateCardMessage _ input) as [[out|m] c];
      cbn [restampResult sameOutcome restamp key text]; auto.
Qed.

End Determinism.

(* ------------------------------------------------------------------ *)
(** * The length-repair chain *)
(* ------------------------------------------------------------------ *)

Module LengthRepair.

Import Validate Engine RunFacts ParseFacts Notions.

Lemma digit_not_space (d : N) : isDigit d = true -> isSpace d = false.
Proof.
  unfold isDigit. intros H. apply andb_true_iff in H.
  destruct H as [H1 H2]. apply N.leb_le in H1, H2.
  assert (Hd : In d [48; 49; 50; 51; 52; 53; 54; 55; 56; 57]%N).
  { cbn [In]. lia. }
  cbn [In] in Hd.
  repeat (destruct Hd as [<-|Hd]; [reflexivity|]). destruct Hd.
Qed.

Lemma digitsOf_digits (d : Decimal.uint) : forallb isDigit (digitsOf d) = true.
Proof. induction d; cbn [digitsOf forallb]; try rewrite IHd; reflexivity. Qed.

Lemma little_uint_nonnil (n : nat) :
  forall acc, acc <> Decimal.Nil -> Nat.to_little_uint n acc <> Decimal.Nil.
Proof.
  induction n as [|n IH]; intros acc Hacc; cbn [Nat.to_little_uint];
    [exact Hacc|].
  apply IH. destruct acc; discriminate.
Qed.

Lemma decimal_nonempty (n : nat) : decimal n <> [].
Proof.
  unfold decimal, Nat.to_uint.
  assert (H : Decimal.rev (Nat.to_little_uint n Decimal.zero) <> Decimal.Nil).
  { intros E. apply DecimalFacts.rev_nil_inv in E.
    revert E. apply little_uint_nonnil. discriminate. }
  destruct (Decimal.rev _); [congruence | discriminate..].
Qed.

Lemma dropWhile_digits (ds rest : jsstring) :
  forallb isDigit ds = true ->
  dropWhile isDigit (ds ++ rest) = dropWhile isDigit rest.
Proof.
  induction ds as [|d ds IH]; [reflexivity|].
  cbn [forallb app dropWhile]. intros H. apply andb_true_iff in H.
  destruct H as [Hd Hds]. rewrite Hd. now apply IH.
Qed.

(** The message of the word-count error of the hard gate matches the
    pattern of [isWordCountError], whatever the count. *)
Lemma wordCountMessage_matches (wc : nat) :
  isWordCountError (wordCountMessage wc MIN_WORDS MAX_WORDS) = true.
Proof.
  pose proof (decimal_nonempty wc) as Hne.
  pose proof (digitsOf_digits (Nat.to_uint wc)) as Hds.
  fold (decimal wc) in Hds.
  unfold wordCountMessage.
  destruct (decimal wc) as [|d ds]; [congruence|].
  cbn [forallb] in Hds. apply andb_true_iff in Hds. destruct Hds as [Hd Hds].
  set (rest := js " outside " ++ decimalZ MIN_WORDS ++ [8211%N] ++
               decimalZ MAX_WORDS ++ js ".").
  change (isWordCountError (js "Word count " ++ (d :: ds) ++ rest))
    with (wordCountPatternAt (js "Word count " ++ (d :: ds) ++ rest)
          || isWordCountError (tl (js "Word count " ++ (d :: ds) ++ rest))).
  apply orb_true_iff. left. unfold wordCountPatternAt.
  change (matchCI (js "word count") (js "Word count " ++ (d :: ds) ++ rest))
    with (Some (32%N :: d :: ds ++ rest)).
  cbn [andThen].
  change (many1 isSpace (32%N :: d :: ds ++ rest))
    with (Some (dropWhile isSpace (d :: ds ++ rest))).
  cbn [andThen dropWhile]. rewrite (digit_not_space _ Hd).
  cbn [many1]. rewrite Hd. cbn [andThen].
  rewrite (dropWhile_digits _ _ Hds).
  subst rest. vm_compute. reflexivity.
Qed.

Lemma imperativeMessage_no_match (start : jsstring) :
  In start DISCOURAGED_IMPERATIVE_STARTS ->
  isWordCountError (imperativeMessage start) = false.
Proof.
  unfold DISCOURAGED_IMPERATIVE_STARTS. cbn [In]. intros H.
  repeat (destruct H as [<-|H]; [vm_compute; reflexivity|]). destruct H.
Qed.

Lemma parsed_text_truthy (raw text : jsstring) :
  parseJsonOnly raw = Ok text -> truthy text = true.
Proof.
  intros H. apply parseJsonOnly_ok in H.
  destruct H as (_ & _ & _ & _ & _ & _ & _ & _ & _ & _ & _ & Hne).
  destruct text; [congruence | reflexivity].
Qed.

Lemma dropWhile_head (p : N -> bool) (s r : jsstring) (c : N) :
  dropWhile p s = c :: r -> p c = false.
Proof.
  induction s as [|x s IH]; [discriminate|].
  cbn [dropWhile]. destruct (p x) eqn:E; [exact IH|].
  intros [= <- _]. exact E.
Qed.

Lemma trim_head (v r : jsstring) (c : N) :
  trim v = c :: r -> isSpace c = false.
Proof.
  unfold trim, trimEnd, trimStart. intros H.
  destruct (Words.dropEnd_split isSpace (dropWhile isSpace v)) as (t & Hs & _).
  rewrite H in Hs. cbn [app] in Hs.
  exact (dropWhile_head _ _ Hs).
Qed.

Lemma trim_twice_nonempty (v : jsstring) : trim v <> [] -> trim (trim v) <> [].
Proof.
  intros Hne E.
  pose proof (Words.tokens_trim (trim v)) as Ht. rewrite E in Ht.
  destruct (trim v) as [|c r] eqn:Ev; [congruence|].
  pose proof (@Words.tokens_head_word c r (trim_head _ Ev)) as Hpos.
  change (tokens []) with 0 in Ht. lia.
Qed.

(** What [validateText] with the engine's options throws. *)
Lemma hard_failure_message (text : jsstring) (role : Role) (m : jsstring) :
  truthy text = true ->
  validateText text role HARD = Throw m ->
  let wc := wordCount (trim text) in
  (m = emptyMessage /\ trim text = []) \/
  (m = wordCountMessage wc MIN_WORDS MAX_WORDS /\
   ((Z.of_nat wc < MIN_WORDS)%Z \/ (MAX_WORDS < Z.of_nat wc)%Z)) \/
  ((MIN_WORDS <= Z.of_nat wc <= MAX_WORDS)%Z /\
   exists start, In start DISCOURAGED_IMPERATIVE_STARTS /\
                 m = imperativeMessage start).
Proof.
  intros Ht. rewrite HardGate.validateText_cascade. cbv zeta.
  cbn [HARD minWords maxWords requireSentenceCount enforceNoImperatives
       orDefault].
  destruct (truthy (trim text)) eqn:Ec; cbn [negb].
  2:{ intros [= <-]. left. split; [reflexivity|].
      now apply HardGate.truthy_false_iff. }
  destruct (_ || _) eqn:Er.
  - intros [= <-]. right. left. split; [reflexivity|].
    apply orb_true_iff in Er. destruct Er as [E|E]; apply Z.ltb_lt in E; auto.
  - intros H. right. right.
    apply orb_false_iff in Er. destruct Er as [E1 E2].
    apply Z.ltb_ge in E1, E2. split; [lia|].
    apply ValidateFacts.checkSentences_throw in H.
    destruct H as (s & start & _ & Hin & _ & ->). exists start. auto.
Qed.

Section Attempt.

Variable env : Env.
Variable input : CardGenInput.
Variable role : Role.
Variable canonLines : list jsstring.
Variable anchors : list jsstring.

(** X1.  When the hard gate rejects a draft: a word-count error starts the
    length-repair chain (micro-repair, padding, hard gate), whose success
    is returned at once and whose failure is recorded; any other error is
    recorded with the text, no further call is made, and the loop goes on
    to the next attempt. *)
Lemma draft_hard_failure (st : LoopState) (raw text m : jsstring) :
  ollamaChat env (length (calls st)) DraftOnce = Ok raw ->
  parseJsonOnly raw = Ok text ->
  validateText text role HARD = Throw m ->
  let wc := wordCount (trim text) in
  let inRange := (MIN_WORDS <= Z.of_nat wc <= MAX_WORDS)%Z in
  (inRange ->
   attempt env input role canonLines anchors st =
   NextAttempt {| calls := DraftOnce :: calls st;
                  lastErr := Some m;
                  lastText := Some text |}) /\
  (~ inRange ->
   m = wordCountMessage wc MIN_WORDS MAX_WORDS /\
   attempt env input role canonLines anchors st =
   match lengthRepair env input role canonLines text (DraftOnce :: calls st)
   with
   | (Ok repaired, calls1) =>
       Returned (output input (nowISO env) repaired) calls1
   | (Throw m', calls1) =>
       NextAttempt {| calls := calls1;
                      lastErr := Some (js "Micro-repair failed: " ++ m');
                      lastText := Some text |}
   end).
Proof.
  intros Hraw Hparse Hv wc inRange.
  pose proof (parsed_text_truthy _ Hparse) as Ht.
  assert (Hatt : attempt env input role canonLines anchors st =
                 catchBlock env input role canonLines m text
                            (DraftOnce :: calls st) st).
  { unfold attempt, ask. rewrite Hraw. unfold tryDraft.
    rewrite Hparse, Hv. reflexivity. }
  rewrite Hatt. unfold catchBlock. cbv zeta. rewrite Ht. cbn [andb].
  assert (Hne : trim text <> []).
  { apply parseJsonOnly_ok in Hparse.
    destruct Hparse as (f & l & ms & v & _ & _ & _ & _ & _ & _ & -> & Hn).
    now apply trim_twice_nonempty. }
  destruct (hard_failure_message text role Ht Hv)
    as [[_ He]|[[-> Hout]|[Hin (start & Hstart & ->)]]];
    [contradiction| |].
  - rewrite wordCountMessage_matches. split; [intros Hr; subst inRange; lia|].
    intros _. split; [reflexivity|].
    destruct (lengthRepair _ _ _ _ _ _) as [[t|m'] c]; reflexivity.
  - rewrite (imperativeMessage_no_match Hstart).
    split; [reflexivity | intros Hn; contradiction].
Qed.

End Attempt.

(** A three-word draft: the word-count error starts the chain, and the
    repaired text is returned from within the first attempt. *)
Lemma draft_hard_failure_witness :
  let env := Samples.envWith Samples.shortThenRepaired in
  let canonLines := buildCanonBlock Samples.threeCoreCard false in
  let anchors :=
    pickCanonAnchors Samples.threeCoreCard false
                     (anchorSeed Samples.pastRequest) in
  validateText (js "too short") Past HARD =
    Throw (wordCountMessage 2 MIN_WORDS MAX_WORDS) /\
  attempt env Samples.pastRequest Past canonLines anchors initialState =
  Returned (output Samples.pastRequest (nowISO env) Samples.riversText)
           [MicroRepairForLength (js "too short"); DraftOnce].
Proof.
  cbv zeta.
  destruct (@draft_hard_failure
              (Samples.envWith Samples.shortThenRepaired) Samples.pastRequest
              Past (buildCanonBlock Samples.threeCoreCard false)
              (pickCanonAnchors Samples.threeCoreCard false
                                (anchorSeed Samples.pastRequest))
              initialState (Samples.jsonOf (js "too short")) (js "too short")
              (wordCountMessage 2 MIN_WORDS MAX_WORDS))
    as [_ H].
  - reflexivity.
  - vm_compute. reflexivity.
  - vm_compute. reflexivity.
  - destruct H as [Hm Ha].
    + vm_compute. intros [H _]. apply H. reflexivity.
    + split; [vm_compute; reflexivity|]. rewrite Ha. vm_compute. reflexivity.
Defined.

(** C6 fails on this run.  The draft passes the hard gate and needs soft
    repair; the reply to the first rewrite is not JSON, and the message of
    that format failure quotes the reply, which reads [Word count 75
    outside 95-125]; [isWordCountError] matches the message, so the
    length-repair chain runs (and its result is returned) although the hard
    gate never failed. *)
Theorem format_failure_starts_length_repair :
  let env := Samples.envWith Samples.rewriteTalksAboutWordCount in
  let reply := js "Word count 75 outside 95" ++ [8211%N] ++ js "125, sorry." in
  let reason :=
    js "soft-checks: coverage=0/2, discouragedHits=0, wc=75, sc=25" in
  validateText Samples.riversText Past HARD = Ok tt /\
  ollamaChat env 1 (RepairRewrite Samples.riversText reason) = Ok reply /\
  parseJsonOnly reply = Throw (notJsonMessage reply) /\
  isWordCountError (notJsonMessage reply) = true /\
  generateCardMessage env Samples.pastRequest =
  (Ok (output Samples.pastRequest (nowISO env) Samples.riversText),
   [ MicroRepairForLength Samples.riversText;
     RepairRewrite Samples.riversText reason;
     DraftOnce ]).
Proof.
  cbv zeta.
  repeat match goal with
         | |- _ /\ _ => split; [vm_compute; reflexivity|]
         end.
  vm_compute. reflexivity.
Qed.

End LengthRepair.

(* ------------------------------------------------------------------ *)
(** * Further properties of the text measures *)
(* ------------------------------------------------------------------ *)

Module TextFacts.

Import Validate Engine Notions Words.

Lemma dropWhile_fixed (p : N -> bool) (s : jsstring) :
  match s with [] => True | c :: _ => p c = false end ->
  dropWhile p s = s.
Proof. destruct s as [|c r]; [reflexivity|]. cbn. now intros ->. Qed.

Lemma trim_last (v r : jsstring) (c : N) :
  rev (trim v) = c :: r -> isSpace c = false.
Proof.
  unfold trim, trimEnd. rewrite rev_involutive.
  apply LengthRepair.dropWhile_head.
Qed.

(** Trimming twice is trimming once. *)
Lemma trim_idempotent (s : jsstring) : trim (trim s) = trim s.
Proof.
  destruct (trim s) as [|c r] eqn:E; [reflexivity|].
  unfold trim at 1. unfold trimStart.
  rewrite dropWhile_fixed by exact (LengthRepair.trim_head _ E).
  unfold trimEnd. rewrite <- E.
  rewrite dropWhile_fixed; [apply rev_involutive|].
  destruct (rev (trim s)) as [|d r'] eqn:Er; [exact I|].
  exact (trim_last _ Er).
Qed.

Lemma countTerminals_le_tokens (s : jsstring) : countTerminals s <= tokens s.
Proof.
  induction s as [|c r IH]; [cbn; lia|].
  cbn [countTerminals tokens]. unfold endsWord.
  destruct (isTerminal c) eqn:Et; cbn [andb]; [|lia].
  rewrite (terminal_not_space _ Et). cbn [negb andb].
  change (match r with [] => true | c' :: _ => isSpace c' end) with (atGap r).
  destruct (atGap r); lia.
Qed.

(** X3.  A text never has more sentences than words: every sentence end
    that [sentenceCount] counts is the end of a word that [wordCount]
    counts. *)
Theorem sentenceCount_le_wordCount (text : jsstring) :
  sentenceCount text <= wordCount text.
Proof.
  unfold sentenceCount. rewrite wordCount_tokens, <- tokens_trim.
  apply countTerminals_le_tokens.
Qed.

(** X4.  Word counts compose: joining texts with single spaces adds their
    counts, and gluing two texts without a space gives at least the count
    of each and at most the sum (the last word of one and the first of the
    other may merge). *)
Theorem wordCount_composes :
  (forall a b, wordCount (a ++ js " " ++ b) = wordCount a + wordCount b) /\
  (forall l, wordCount (join (js " ") l) = list_sum (map wordCount l)) /\
  (forall a b, wordCount a <= wordCount (a ++ b) /\
               wordCount b <= wordCount (a ++ b) /\
               wordCount (a ++ b) <= wordCount a + wordCount b).
Proof.
  split; [|split].
  - intros a b. rewrite !wordCount_tokens.
    now rewrite tokens_app_gap by reflexivity.
  - intros l. rewrite wordCount_tokens, tokens_join.
    induction l as [|x r IH]; [reflexivity|].
    cbn [totalTokens map]. change (list_sum (?a :: ?l)) with (a + list_sum l).
    now rewrite IH, wordCount_tokens.
  - intros a b. rewrite !wordCount_tokens. split; [|split].
    + apply tokens_app_le.
    + induction a as [|c a IH]; [cbn; lia|].
      cbn [app tokens]. lia.
    + apply tokens_app_sub.
Qed.

End TextFacts.

(* ------------------------------------------------------------------ *)
(** * Further properties of the coverage score *)
(* ------------------------------------------------------------------ *)

Module CoverageFacts.

Import Validate Engine Notions.

Lemma fold_count {A : Type} (p : A -> bool) (l : list A) :
  forall k, fold_left (fun m a => if p a then m + 1 else m) l k =
            k + length (filter p l).
Proof.
  induction l as [|x r IH]; intros k; cbn [fold_left filter length]; [lia|].
  rewrite IH. destruct (p x); cbn [length]; lia.
Qed.

Lemma score_counts (text : jsstring) (anchors : list jsstring) :
  scoreAnchorCoverage text anchors =
  {| matched := length (filter (anchorCovered text) anchors);
     total := length anchors |}.
Proof.
  unfold scoreAnchorCoverage. cbv zeta. f_equal.
  rewrite (fold_count
             (fun a => 2 <=? fold_left
                (fun acc k => if includes (toLowerCase text) k
                              then acc + 1 else acc)
                (keywordsFromAnchor a) 0)).
  cbn [Nat.add]. f_equal. apply filter_ext. intros a.
  unfold anchorCovered, keywordHits. now rewrite fold_count.
Qed.

Lemma filter_length_lt {A : Type} (p : A -> bool) (l : list A) (a : A) :
  In a l -> p a = false -> length (filter p l) < length l.
Proof.
  induction l as [|x r IH]; [intros []|].
  intros [->|Hin] Hp; cbn [filter length].
  - rewrite Hp. pose proof (filter_length_le p r). lia.
  - specialize (IH Hin Hp). destruct (p x); cbn [length]; lia.
Qed.

Lemma few_keywords_uncovered (text a : jsstring) :
  length (keywordsFromAnchor a) < 2 -> anchorCovered text a = false.
Proof.
  intros H. unfold anchorCovered, keywordHits. apply Nat.leb_gt.
  pose proof (filter_length_le (includes (toLowerCase text))
                               (keywordsFromAnchor a)). lia.
Qed.

Lemma uncoverable_lt (text : jsstring) (anchors : list jsstring) :
  (exists a, In a anchors /\ length (keywordsFromAnchor a) < 2) ->
  matched (scoreAnchorCoverage text anchors) <
  total (scoreAnchorCoverage text anchors).
Proof.
  intros (a & Hin & Hk). rewrite score_counts. cbn [matched total].
  apply filter_length_lt with (a := a); [exact Hin|].
  now apply few_keywords_uncovered.
Qed.

(** X5.  The coverage score in closed form: [matched] is the number of
    anchors of which at least two keywords occur in the lower-cased text,
    [total] is the number of anchors, so [matched] never exceeds [total];
    and an anchor with fewer than two keywords (words of five code units
    or more) keeps [matched] below [total] for every text. *)
Theorem scoreAnchorCoverage_counts (text : jsstring) (anchors : list jsstring) :
  let cov := scoreAnchorCoverage text anchors in
  cov = {| matched := length (filter (anchorCovered text) anchors);
           total := length anchors |} /\
  matched cov <= total cov /\
  (forall a, In a anchors -> length (keywordsFromAnchor a) < 2 ->
             matched cov < total cov).
Proof.
  cbv zeta. split; [apply score_counts|]. split.
  - rewrite score_counts. cbn [matched total]. apply filter_length_le.
  - intros a Hin Hk. apply uncoverable_lt. eauto.
Qed.

Section Uncoverable.

Variable env : Env.
Variable input : CardGenInput.
Variable role : Role.
Variable canonLines : list jsstring.
Variable anchors : list jsstring.

Hypothesis short_anchor :
  exists a, In a anchors /\ length (keywordsFromAnchor a) < 2.

Lemma never_full (text : jsstring) :
  Nat.eqb (matched (scoreAnchorCoverage text anchors))
          (total (scoreAnchorCoverage text anchors)) = false.
Proof.
  apply Nat.eqb_neq. pose proof (@uncoverable_lt text anchors short_anchor). lia.
Qed.

Lemma repairRounds_no_return (rounds : nat) :
  forall calls working reason res calls',
    repairRounds env role anchors rounds calls working reason = (res, calls') ->
    forall w, res <> RoundsReturn w.
Proof.
  induction rounds as [|k IH]; intros calls working reason res calls' H w;
    cbn [repairRounds] in H.
  - injection H as <- <-. discriminate.
  - unfold ask in H.
    destruct (bind _ _) as [w'|m] eqn:E.
    + rewrite never_full in H. cbn [andb] in H. eapply IH; eauto.
    + injection H as <- <-. discriminate.
Qed.

Lemma tryDraft_no_return (raw : jsstring) (calls calls' : Calls)
    (res : TryResult) :
  tryDraft env input role anchors raw calls = (res, calls') ->
  forall t, res <> TryReturn t.
Proof.
  unfold tryDraft.
  destruct (parseJsonOnly raw) as [text|m] eqn:Ep.
  2:{ intros [= <- <-]. discriminate. }
  destruct (validateText text role HARD) as [[]|m] eqn:Ev.
  2:{ intros [= <- <-]. discriminate. }
  cbv zeta. unfold needsRepair.
  pose proof (@uncoverable_lt text anchors short_anchor) as Hlt.
  apply Nat.ltb_lt in Hlt. rewrite Hlt. cbn [orb].
  destruct (repairRounds _ _ _ _ _ _ _) as [rr calls2] eqn:Er.
  destruct rr as [w|m|w].
  - exfalso. eapply repairRounds_no_return; [exact Er | reflexivity].
  - intros [= <- <-]. discriminate.
  - rewrite never_full. intros [= <- <-]. discriminate.
Qed.

Lemma catchBlock_returns_after_micro (msg text : jsstring)
    (calls calls' : Calls) (st : LoopState) (out : CardGenOutput) :
  catchBlock env input role canonLines msg text calls st = Returned out calls' ->
  calls' = MicroRepairForLength text :: calls.
Proof.
  unfold catchBlock. cbv zeta.
  destruct (truthy text && isWordCountError msg); [|discriminate].
  unfold lengthRepair, ask.
  destruct (bind _ _); [|discriminate].
  now intros [= _ <-].
Qed.

Lemma attempt_returns_after_micro (st : LoopState) (out : CardGenOutput)
    (calls' : Calls) :
  attempt env input role canonLines anchors st = Returned out calls' ->
  exists bad rest, calls' = MicroRepairForLength bad :: rest.
Proof.
  unfold attempt, ask.
  destruct (ollamaChat env _ _) as [raw|]; [|discriminate].
  destruct (tryDraft _ _ _ _ _ _) as [[t|m text|w cov] calls2] eqn:E.
  - exfalso. eapply tryDraft_no_return; [exact E | reflexivity].
  - intros H. apply catchBlock_returns_after_micro in H. eauto.
  - discriminate.
Qed.

Lemma draftLoop_returns_after_micro (attempts : nat) :
  forall st out calls',
    draftLoop env input role canonLines anchors attempts st =
      Returned out calls' ->
    exists bad rest, calls' = MicroRepairForLength bad :: rest.
Proof.
  induction attempts as [|k IH]; intros st out calls'; cbn [draftLoop];
    [discriminate|].
  destruct (attempt _ _ _ _ _ _) as [o c|m c|st'] eqn:E.
  - intros [= <- <-]. eapply attempt_returns_after_micro; eauto.
  - discriminate.
  - apply IH.
Qed.

End Uncoverable.

(** X6.  When one of the two anchors of a request has fewer than two
    keywords, no text is ever returned on the coverage paths: a run that
    returns either ends with a micro-repair call (the length-repair chain
    of an attempt, or the micro-repair of the final fallback), or has used
    up its attempts and returns the last recorded text as it is. *)
Theorem short_anchor_blocks_coverage_paths (env : Env) (input : CardGenInput)
    (role : Role) (meaning : MeaningFile) (out : CardGenOutput)
    (calls : Calls) :
  Roles.roleFromIdKey (idKey input) = Ok role ->
  loadMajorMeaning env (cardId input) = Ok meaning ->
  (exists a,
      In a (pickCanonAnchors meaning (isReversed input) (anchorSeed input)) /\
      length (keywordsFromAnchor a) < 2) ->
  generateCardMessage env input = (Ok out, calls) ->
  (exists bad rest, calls = MicroRepairForLength bad :: rest) \/
  (exists st lt,
      attemptsExhausted env input st /\ calls = Engine.calls st /\
      lastText st = Some lt /\ text out = lt).
Proof.
  intros Hrole Hload Hshort. unfold generateCardMessage, runLoop.
  rewrite Hrole, Hload. cbv zeta.
  destruct (draftLoop _ _ _ _ _ _ _) as [o c|m c|st] eqn:E.
  - intros [= <- <-]. left.
    eapply draftLoop_returns_after_micro; eauto.
  - discriminate.
  - unfold finalFallback, ask. cbv zeta.
    destruct (lastText st) as [lt|] eqn:El; [|discriminate].
    destruct (truthy lt); [|discriminate].
    destruct (validateText lt role HARD) as [[]|]; [|discriminate].
    destruct (_ || _).
    + destruct (bind _ _); [|discriminate].
      intros [= _ <-]. left. eauto.
    + intros [= <- <-]. right. exists st, lt.
      split; [|auto]. exists role, meaning. auto.
Qed.

(** The first anchor of the sample card, [facing an old fear], has the one
    keyword [facing]; the three-word draft is returned by the length-repair
    chain. *)
Lemma short_anchor_blocks_coverage_paths_witness :
  exists bad rest,
    snd (generateCardMessage (Samples.envWith Samples.shortThenRepaired)
                             Samples.pastRequest) =
    MicroRepairForLength bad :: rest.
Proof.
  destruct (@short_anchor_blocks_coverage_paths
              (Samples.envWith Samples.shortThenRepaired) Samples.pastRequest
              Past Samples.threeCoreCard
              (output Samples.pastRequest (js "2026-01-01T00:00:00.000Z")
                      Samples.riversText)
              [MicroRepairForLength (js "too short"); DraftOnce])
    as [H|(st & lt & _ & Hc & _)].
  - vm_compute. reflexivity.
  - reflexivity.
  - exists (js "facing an old fear"). split; [vm_compute; auto | vm_compute; lia].
  - vm_compute. reflexivity.
  - destruct H as (bad & rest & H). exists bad, rest.
    replace (snd _) with [MicroRepairForLength (js "too short"); DraftOnce]
      by (vm_compute; reflexivity).
    exact H.
  - exists (js "too short"), [DraftOnce]. vm_compute. reflexivity.
Defined.

End CoverageFacts.

(* ------------------------------------------------------------------ *)
(** * The shape of the anchor pair *)
(* ------------------------------------------------------------------ *)

Module AnchorShape.

Import Validate Engine Notions CoverageFacts.

(** X7.  [pickCanonAnchors] always returns exactly two anchors, so the
    total of every coverage score of the engine is 2; each anchor is the
    empty string (when the side has no non-empty core statement) or one of
    the non-empty core statements; and with exactly one such statement both
    anchors are that statement, so the score is 0 of 2 or 2 of 2, never 1
    of 2. *)
Theorem pickCanonAnchors_shape (m : MeaningFile) (rev : bool)
    (seed : jsstring) :
  let anchors := pickCanonAnchors m rev seed in
  length anchors = 2 /\
  (forall text, total (scoreAnchorCoverage text anchors) = 2) /\
  (forall a, In a anchors ->
             (a = [] /\ coreOf m rev = []) \/ In a (coreOf m rev)) /\
  (forall c, coreOf m rev = [c] ->
             anchors = [c; c] /\
             forall text,
               matched (scoreAnchorCoverage text anchors) =
               if anchorCovered text c then 2 else 0).
Proof.
  cbv zeta.
  assert (Hlen : length (pickCanonAnchors m rev seed) = 2).
  { unfold pickCanonAnchors.
    now destruct (filter truthy (core (sideOf m rev))) as [|c0 [|c1 [|c2 r]]]. }
  split; [exact Hlen|]. split; [|split].
  - intros text. rewrite score_counts. exact Hlen.
  - intros a Ha.
    destruct (le_lt_dec 2 (length (coreOf m rev))) as [H2|H2].
    + destruct (Anchors.pick_indices m rev seed H2)
        as (i & j & _ & Hi & Hj & Hp).
      rewrite Hp in Ha. right.
      destruct Ha as [<-|[<-|[]]]; now apply nth_In.
    + revert Ha H2. unfold pickCanonAnchors, coreOf.
      destruct (filter truthy (core (sideOf m rev))) as [|c0 [|c1 r]];
        cbn [length In].
      * intros [<-|[<-|[]]] _; now left.
      * intros [<-|[<-|[]]] _; right; now left.
      * lia.
  - intros c Hc.
    assert (Hp : pickCanonAnchors m rev seed = [c; c]).
    { unfold pickCanonAnchors. unfold coreOf in Hc. now rewrite Hc. }
    split; [exact Hp|]. intros text. rewrite Hp, score_counts.
    cbn [matched filter]. now destruct (anchorCovered text c).
Qed.

End AnchorShape.

(* ------------------------------------------------------------------ *)
(** * Letter case *)
(* ------------------------------------------------------------------ *)

Module CaseFacts.

Import Validate Engine Notions CoverageFacts.

Lemma lowerUnit_id (d : N) :
  (d < 65 \/ 90 < d)%N -> d <> 304%N -> d <> 8490%N ->
  (d < 192 \/ 222 < d \/ d = 215)%N ->
  lowerUnit d = [d].
Proof.
  intros H1 H2 H3 H4. unfold lowerUnit.
  replace ((65 <=? d) && (d <=? 90))%N with false.
  2:{ symmetry. apply andb_false_iff.
      destruct H1; [left|right]; apply N.leb_gt; lia. }
  replace (d =? 304)%N with false by (symmetry; now apply N.eqb_neq).
  replace (d =? 8490)%N with false by (symmetry; now apply N.eqb_neq).
  replace ((192 <=? d) && (d <=? 222) && negb (d =? 215))%N with false;
    [reflexivity|].
  symmetry. apply andb_false_iff.
  destruct H4 as [H4|[H4|H4]].
  - left. apply andb_false_iff. left. apply N.leb_gt. lia.
  - left. apply andb_false_iff. right. apply N.leb_gt. lia.
  - right. subst d. reflexivity.
Qed.

Lemma lowerUnit_fixed (c d : N) : In d (lowerUnit c) -> lowerUnit d = [d].
Proof.
  unfold lowerUnit.
  destruct ((65 <=? c) && (c <=? 90))%N eqn:E1.
  { apply andb_true_iff in E1. destruct E1 as [Ea Eb].
    apply N.leb_le in Ea, Eb. intros [<-|[]]. apply lowerUnit_id; lia. }
  destruct (c =? 304)%N eqn:E2.
  { intros [<-|[<-|[]]]; reflexivity. }
  destruct (c =? 8490)%N eqn:E3.
  { intros [<-|[]]. reflexivity. }
  destruct ((192 <=? c) && (c <=? 222) && negb (c =? 215))%N eqn:E4.
  { apply andb_true_iff in E4. destruct E4 as [E4 _].
    apply andb_true_iff in E4. destruct E4 as [Ea Eb].
    apply N.leb_le in Ea, Eb. intros [<-|[]]. apply lowerUnit_id; lia. }
  intros [<-|[]].
  apply N.eqb_neq in E2, E3.
  apply lowerUnit_id; try assumption.
  - apply andb_false_iff in E1. destruct E1 as [E|E]; apply N.leb_gt in E; lia.
  - apply andb_false_iff in E4. destruct E4 as [E|E].
    + apply andb_false_iff in E. destruct E as [E|E]; apply N.leb_gt in E; lia.
    + apply negb_false_iff, N.eqb_eq in E. lia.
Qed.

Lemma flat_map_fixed (l : jsstring) :
  (forall d, In d l -> lowerUnit d = [d]) -> flat_map lowerUnit l = l.
Proof.
  induction l as [|x r IH]; [reflexivity|]. intros H.
  cbn [flat_map]. rewrite (H x) by now left.
  rewrite IH; [reflexivity|]. intros d Hd. apply H. now right.
Qed.

(** Lower-casing twice is lower-casing once. *)
Lemma toLowerCase_idempotent (s : jsstring) :
  toLowerCase (toLowerCase s) = toLowerCase s.
Proof.
  unfold toLowerCase. apply flat_map_fixed. intros d Hd.
  apply in_flat_map in Hd. destruct Hd as (c & _ & Hd).
  exact (lowerUnit_fixed _ _ Hd).
Qed.

Lemma toLowerCase_app (a b : jsstring) :
  toLowerCase (a ++ b) = toLowerCase a ++ toLowerCase b.
Proof. apply flat_map_app. Qed.

Lemma keywords_lower (a : jsstring) :
  keywordsFromAnchor (toLowerCase a) = keywordsFromAnchor a.
Proof. unfold keywordsFromAnchor. now rewrite toLowerCase_idempotent. Qed.

Lemma normalizeTokens_lower (s : jsstring) :
  normalizeTokens (toLowerCase s) = normalizeTokens s.
Proof. unfold normalizeTokens. now rewrite toLowerCase_idempotent. Qed.

Lemma filter_map_length {A B : Type} (p : B -> bool) (g : A -> B)
    (l : list A) :
  length (filter p (map g l)) = length (filter (fun a => p (g a)) l).
Proof.
  induction l as [|x r IH]; [reflexivity|].
  cbn [map filter]. destruct (p (g x)); cbn [length]; now rewrite IH.
Qed.

(** X8.  The soft checks do not see letter case: lower-casing the text
    changes neither the discouraged phrases found, nor the anchor coverage
    (also when the anchors are lower-cased), nor the intention reference
    (also when the intention is lower-cased). *)
Theorem soft_checks_ignore_case (text intention : jsstring)
    (anchors : list jsstring) :
  lintDiscouragedPhrases (toLowerCase text) = lintDiscouragedPhrases text /\
  scoreAnchorCoverage (toLowerCase text) (map toLowerCase anchors) =
    scoreAnchorCoverage text anchors /\
  hasIntentionReference (toLowerCase text) (toLowerCase intention) =
    hasIntentionReference text intention.
Proof.
  split; [|split].
  - unfold lintDiscouragedPhrases. now rewrite toLowerCase_idempotent.
  - rewrite !score_counts. rewrite length_map. f_equal.
    rewrite filter_map_length. f_equal. apply filter_ext. intros a.
    unfold anchorCovered, keywordHits.
    now rewrite toLowerCase_idempotent, keywords_lower.
  - unfold hasIntentionReference, meaningfulTokens.
    now rewrite !normalizeTokens_lower.
Qed.

End CaseFacts.

(* ------------------------------------------------------------------ *)
(** * The intention: reference test and quote *)
(* ------------------------------------------------------------------ *)

Module IntentionFacts.

Import Validate Engine Notions Words.

Lemma countHits_count (textTokens : list jsstring) (needed : nat) :
  forall toks hits,
    hits < needed ->
    countHits textTokens needed hits toks =
    (needed <=? hits + length (filter (inSet textTokens) toks)).
Proof.
  induction toks as [|tok rest IH]; intros hits Hlt; cbn [countHits filter].
  - symmetry. apply Nat.leb_gt. cbn [length]. lia.
  - cbv zeta. destruct (inSet textTokens tok); cbn [length].
    + destruct (needed <=? S hits) eqn:E.
      * symmetry. apply Nat.leb_le. apply Nat.leb_le in E. lia.
      * apply Nat.leb_gt in E. rewrite IH by lia. f_equal. lia.
    + destruct (needed <=? hits) eqn:E.
      * apply Nat.leb_le in E. lia.
      * now apply IH.
Qed.

(** X9.  [hasIntentionReference] in closed form: the early-exit loop
    answers whether the number of meaningful tokens of the intention
    (counted with repeats) that occur among the tokens of the text reaches
    the threshold, 2 when the intention has five meaningful tokens or more
    and 1 otherwise.  So an intention without meaningful tokens is never
    referenced, and a reference always rests on a shared token. *)
Theorem hasIntentionReference_counts (text intention : jsstring) :
  let toks := meaningfulTokens intention in
  let shared := filter (inSet (normalizeTokens text)) toks in
  hasIntentionReference text intention =
    ((if 5 <=? length toks then 2 else 1) <=? length shared) /\
  (toks = [] -> hasIntentionReference text intention = false) /\
  (hasIntentionReference text intention = true ->
   exists tok, In tok toks /\ In tok (normalizeTokens text)).
Proof.
  cbv zeta.
  assert (E : hasIntentionReference text intention =
              ((if 5 <=? length (meaningfulTokens intention) then 2 else 1)
               <=? length (filter (inSet (normalizeTokens text))
                                  (meaningfulTokens intention)))).
  { unfold hasIntentionReference. cbv zeta.
    rewrite countHits_count; [reflexivity|].
    destruct (5 <=? _); lia. }
  split; [exact E|]. split.
  - intros H0. rewrite E, H0. reflexivity.
  - rewrite E. intros H. apply Nat.leb_le in H.
    destruct (filter _ _) as [|tok r] eqn:Ef.
    + destruct (5 <=? _); cbn [length] in H; lia.
    + assert (Hin : In tok (filter (inSet (normalizeTokens text))
                                   (meaningfulTokens intention)))
        by (rewrite Ef; now left).
      apply filter_In in Hin. destruct Hin as [Hin Hs].
      exists tok. split; [exact Hin|].
      now apply JsonFacts.existsb_eqb.
Qed.

(** ** The quote *)

Lemma splitSpaces_pieces (s : jsstring) :
  forall p c, In p (splitSpaces s) -> In c p ->
              isSpace c = false /\ In c s.
Proof.
  induction s as [|x r IH]; intros p c Hp Hc.
  - cbn in Hp. destruct Hp as [<-|[]]. destruct Hc.
  - cbn [splitSpaces] in Hp. destruct (isSpace x) eqn:Ex.
    + assert (Hr : In p (splitSpaces r) \/ p = []).
      { destruct r as [|y r']; [|destruct (isSpace y)].
        - destruct Hp as [<-|Hp]; auto.
        - auto.
        - destruct Hp as [<-|Hp]; auto. }
      destruct Hr as [Hr| ->]; [|destruct Hc].
      destruct (IH p c Hr Hc) as [Hs Hi]. split; [exact Hs | now right].
    + destruct (splitSpaces r) as [|q qs] eqn:Eq.
      * destruct Hp as [<-|[]]. destruct Hc as [<-|[]]. split; [exact Ex | now left].
      * destruct Hp as [<-|Hp].
        -- destruct Hc as [<-|Hc]; [split; [exact Ex | now left]|].
           destruct (IH q c (or_introl eq_refl) Hc) as [Hs Hi].
           split; [exact Hs | now right].
        -- destruct (IH p c (or_intror Hp) Hc) as [Hs Hi].
           split; [exact Hs | now right].
Qed.

Lemma words_pieces (s p : jsstring) (c : N) :
  In p (words s) -> In c p -> isSpace c = false /\ In c s.
Proof.
  unfold words. intros Hp. apply filter_In in Hp. destruct Hp as [Hp _].
  now apply splitSpaces_pieces.
Qed.

Lemma word_tokens (s p : jsstring) : In p (words s) -> tokens p <= 1.
Proof.
  intros Hp. apply tokens_one_word. apply forallb_forall. intros c Hc.
  destruct (@words_pieces s p c Hp Hc) as [Hs _]. now rewrite Hs.
Qed.

Lemma totalTokens_le (l : list jsstring) :
  (forall p, In p l -> tokens p <= 1) -> totalTokens l <= length l.
Proof.
  induction l as [|x r IH]; intros H; cbn [totalTokens length]; [lia|].
  pose proof (H x (or_introl eq_refl)).
  assert (totalTokens r <= length r) by (apply IH; intros p Hp; apply H; now right).
  lia.
Qed.

(** A phrase of at most [k] words of [s], joined by single spaces. *)
Lemma phrase_tokens (s : jsstring) (l : list jsstring) (k : nat) :
  (forall p, In p l -> In p (words s)) -> length l <= k ->
  tokens (join (js " ") l) <= k.
Proof.
  intros Hl Hk. rewrite tokens_join.
  assert (totalTokens l <= length l).
  { apply totalTokens_le. intros p Hp. eapply word_tokens. apply Hl, Hp. }
  lia.
Qed.

Lemma In_join (sep : jsstring) (l : list jsstring) (c : N) :
  In c (join sep l) -> In c sep \/ exists p, In p l /\ In c p.
Proof.
  induction l as [|x r IH]; [intros []|].
  destruct r as [|y r'].
  - cbn [join]. intros H. right. exists x. split; [now left | exact H].
  - change (join sep (x :: y :: r')) with (x ++ sep ++ join sep (y :: r')).
    intros H. apply in_app_or in H. destruct H as [H|H].
    + right. exists x. split; [now left | exact H].
    + apply in_app_or in H. destruct H as [H|H]; [now left|].
      destruct (IH H) as [Hs|(p & Hp & Hc)]; [now left|].
      right. exists p. split; [now right | exact Hc].
Qed.

Lemma dropFinalFunctionWord_prefix (s : jsstring) :
  forall prevWord, exists r, s = dropFinalFunctionWord prevWord s ++ r.
Proof.
  induction s as [|c t IH]; intros prevWord; cbn [dropFinalFunctionWord].
  - now exists [].
  - destruct (negb prevWord && isFunctionWord (c :: t)).
    + now exists (c :: t).
    + destruct (IH (isWordChar c)) as [r Hr]. exists r.
      cbn [app]. now rewrite <- Hr.
Qed.

Lemma dropFinalFunctionWord_tokens (s : jsstring) (b : bool) :
  tokens (dropFinalFunctionWord b s) <= tokens s.
Proof.
  destruct (dropFinalFunctionWord_prefix s b) as [r Hr].
  rewrite Hr at 2. apply tokens_app_le.
Qed.

Lemma dropFinalFunctionWord_In (s : jsstring) (b : bool) (c : N) :
  In c (dropFinalFunctionWord b s) -> In c s.
Proof.
  destruct (dropFinalFunctionWord_prefix s b) as [r Hr].
  intros H. rewrite Hr. apply in_or_app. now left.
Qed.

Lemma In_skipn {A : Type} (n : nat) (l : list A) (x : A) :
  In x (skipn n l) -> In x l.
Proof.
  intros H. rewrite <- (firstn_skipn n l). apply in_or_app. now right.
Qed.

Lemma In_firstn {A : Type} (n : nat) (l : list A) (x : A) :
  In x (firstn n l) -> In x l.
Proof.
  intros H. rewrite <- (firstn_skipn n l). apply in_or_app. now left.
Qed.

Lemma phrase_quoteOf (cleaned sub : jsstring) (l : list jsstring) (b : bool) :
  (forall c, In c sub -> In c cleaned) ->
  (forall p, In p l -> In p (words sub)) -> length l <= 6 ->
  quoteOf cleaned (join (js " ") l) /\
  quoteOf cleaned (dropFinalFunctionWord b (join (js " ") l)).
Proof.
  intros Hsub Hl Hk.
  assert (Hq : quoteOf cleaned (join (js " ") l)).
  { split; [eapply phrase_tokens; eauto|].
    intros c Hc. apply In_join in Hc.
    destruct Hc as [[<-|[]]|(p & Hp & Hc)]; [now left|].
    right. apply Hsub. eapply words_pieces; [apply Hl, Hp | exact Hc]. }
  split; [exact Hq|]. destruct Hq as [Ht Hc]. split.
  - pose proof (dropFinalFunctionWord_tokens (join (js " ") l) b). lia.
  - intros c H. apply Hc. eapply dropFinalFunctionWord_In, H.
Qed.

Lemma quoteFromStarters_cons (cleaned lower s : jsstring)
    (rest : list jsstring) :
  quoteFromStarters cleaned lower (s :: rest) =
  match indexOf lower s with
  | Some idx =>
      let tail := words (skipn idx cleaned) in
      let phrase := join (js " ") (firstn (Nat.min 6 (length tail)) tail) in
      let trimmed := dropFinalFunctionWord false phrase in
      if 2 <=? length (splitSpaces trimmed) then Some trimmed
      else quoteFromStarters cleaned lower rest
  | None => quoteFromStarters cleaned lower rest
  end.
Proof. reflexivity. Qed.

Lemma quoteFromStarters_quoteOf (cleaned lower : jsstring)
    (starters : list jsstring) (q : jsstring) :
  quoteFromStarters cleaned lower starters = Some q -> quoteOf cleaned q.
Proof.
  induction starters as [|s rest IH]; [discriminate|].
  rewrite quoteFromStarters_cons. cbv zeta.
  destruct (indexOf lower s) as [idx|]; [|exact IH].
  destruct (2 <=? _); [|exact IH].
  set (l := firstn _ _).
  assert (Hl : forall p, In p l -> In p (words (skipn idx cleaned)))
    by (intros p; apply In_firstn).
  assert (Hk : length l <= 6) by (subst l; rewrite length_firstn; lia).
  clearbody l. intros [= <-].
  destruct (@phrase_quoteOf cleaned (skipn idx cleaned) l false) as [_ H];
    [|exact Hl|exact Hk|exact H].
  intros c. apply In_skipn.
Qed.

(** X10.  The quote [intentionQuote] takes from an intention has at most
    six words, holds neither a double quote nor an apostrophe, and is made
    of code units of the intention and single spaces only. *)
Theorem intentionQuote_short (intentionText : jsstring) :
  let q := intentionQuote intentionText in
  wordCount q <= 6 /\
  (forall c, In c q -> c <> 34%N /\ c <> 39%N) /\
  (forall c, In c q ->
             c = 32%N \/ In c (collapseSpaces (trim intentionText))).
Proof.
  cbv zeta. rewrite wordCount_tokens.
  set (cleaned := filter (fun c => negb ((c =? 34) || (c =? 39))%N)
                         (collapseSpaces (trim intentionText))).
  assert (Hclean : forall c, In c cleaned ->
            (c <> 34%N /\ c <> 39%N) /\
            In c (collapseSpaces (trim intentionText))).
  { intros c Hc. apply filter_In in Hc. destruct Hc as [Hin Hc].
    split; [|exact Hin].
    apply negb_true_iff, orb_false_iff in Hc. destruct Hc as [H1 H2].
    now apply N.eqb_neq in H1, H2. }
  assert (Hq : quoteOf cleaned (intentionQuote intentionText)).
  { unfold intentionQuote. fold cleaned. cbv zeta.
    destruct (quoteFromStarters _ _ _) as [q|] eqn:Eq.
    - eapply quoteFromStarters_quoteOf, Eq.
    - destruct (length (words cleaned) <=? 6) eqn:El.
      + apply Nat.leb_le in El. split; [|now right].
        unfold words in El. now rewrite count_pieces in El.
      + set (ws := words cleaned).
        set (start := length ws / 2 - 2).
        destruct (2 <=? _).
        * destruct (@phrase_quoteOf cleaned cleaned
                      (firstn 5 (skipn start ws)) false) as [_ H];
            [auto| | |exact H].
          -- intros p Hp. eapply In_skipn, In_firstn, Hp.
          -- rewrite length_firstn. lia.
        * destruct (@phrase_quoteOf cleaned cleaned
                      (firstn 4 (skipn start ws)) false) as [H _];
            [auto| | |exact H].
          -- intros p Hp. eapply In_skipn, In_firstn, Hp.
          -- rewrite length_firstn. lia. }
  destruct Hq as [Ht Hc]. split; [exact Ht|]. split.
  - intros c H. destruct (Hc c H) as [->|Hin].
    + split; discriminate.
    + apply (Hclean c Hin).
  - intros c H. destruct (Hc c H) as [->|Hin]; [now left|].
    right. apply (Hclean c Hin).
Qed.

End IntentionFacts.

(* ------------------------------------------------------------------ *)
(** * The canon lines and the key *)
(* ------------------------------------------------------------------ *)

Module CanonFacts.

Import Validate Engine Notions.

Lemma notIn_existsb (c : N) (s : jsstring) :
  existsb (N.eqb c) s = false -> ~ In c s.
Proof.
  intros H Hin. assert (existsb (N.eqb c) s = true); [|congruence].
  apply existsb_exists. exists c. split; [exact Hin | apply N.eqb_refl].
Qed.

Lemma splitOn_nonnil (sep : N) (s : jsstring) : splitOn sep s <> [].
Proof.
  destruct s as [|c r]; cbn [splitOn]; [discriminate|].
  destruct (N.eqb c sep); [discriminate|].
  destruct (splitOn sep r); discriminate.
Qed.

Lemma splitOn_app (sep : N) (a b : jsstring) :
  splitOn sep (a ++ sep :: b) = splitOn sep a ++ splitOn sep b.
Proof.
  induction a as [|c a IH]; cbn [app splitOn].
  - now rewrite N.eqb_refl.
  - destruct (N.eqb c sep); [now rewrite IH|].
    rewrite IH. destruct (splitOn sep a) as [|p ps] eqn:E; [|reflexivity].
    now destruct (splitOn_nonnil sep a).
Qed.

Lemma splitOn_none (sep : N) (s : jsstring) :
  ~ In sep s -> splitOn sep s = [s].
Proof.
  induction s as [|c r IH]; intros H; cbn [splitOn]; [reflexivity|].
  destruct (N.eqb_spec c sep) as [->|Hne]; [destruct H; now left|].
  rewrite IH; [reflexivity|]. intros Hin. apply H. now right.
Qed.

Lemma trim_after_space (t : jsstring) : trim (32%N :: t) = trim t.
Proof. reflexivity. Qed.

Lemma themes_after_space (t : jsstring) :
  map trim (splitOn 44 (32%N :: t)) = map trim (splitOn 44 t).
Proof.
  cbn [splitOn]. change (N.eqb 32 44) with false. cbv iota.
  destruct (splitOn 44 t) as [|p ps] eqn:E; [now destruct (splitOn_nonnil 44 t)|].
  cbn [map]. now rewrite trim_after_space.
Qed.

Lemma themes_of_joined (ts : list jsstring) :
  ts <> [] ->
  filter truthy (map trim (splitOn 44 (32%N :: join (js ", ") ts))) =
  filter truthy (map trim (flat_map (splitOn 44) ts)).
Proof.
  induction ts as [|t r IH]; [congruence|]. intros _.
  destruct r as [|t2 r'].
  - cbn [join flat_map]. now rewrite app_nil_r, themes_after_space.
  - change (join (js ", ") (t :: t2 :: r'))
      with (t ++ 44%N :: 32%N :: join (js ", ") (t2 :: r')).
    change (32%N :: t ++ 44%N :: 32%N :: join (js ", ") (t2 :: r'))
      with ((32%N :: t) ++ 44%N :: 32%N :: join (js ", ") (t2 :: r')).
    rewrite splitOn_app, map_app, filter_app, themes_after_space.
    rewrite IH by discriminate.
    change (flat_map (splitOn 44) (t :: t2 :: r'))
      with (splitOn 44 t ++ flat_map (splitOn 44) (t2 :: r')).
    now rewrite map_app, filter_app.
Qed.

Lemma pieces_without_comma (ts : list jsstring) :
  (forall t, In t ts -> ~ In 44%N t) -> flat_map (splitOn 44) ts = ts.
Proof.
  induction ts as [|t r IH]; intros Hc; [reflexivity|].
  cbn [flat_map]. rewrite splitOn_none by (apply Hc; now left).
  cbn [app]. f_equal. apply IH. intros t' Ht'. apply Hc. now right.
Qed.

Lemma extract_from_block (m : MeaningFile) (rev : bool) :
  extractThemesFromCanonLines (buildCanonBlock m rev) =
  filter truthy
    (map trim (splitOn 44 (32%N :: join (js ", ") (themes (sideOf m rev))))).
Proof. reflexivity. Qed.

(** X11.  The themes survive the round trip through the canon lines: what
    [extractThemesFromCanonLines] reads back from the lines built by
    [buildCanonBlock] is the list of the themes of the side, each cut at
    its commas, trimmed, with the empty pieces dropped; for themes without
    commas, the trimmed non-empty themes in their order.  Every theme read
    back is non-empty and trimmed. *)
Theorem themes_round_trip (m : MeaningFile) (rev : bool) :
  let ts := themes (sideOf m rev) in
  let back := extractThemesFromCanonLines (buildCanonBlock m rev) in
  back = filter truthy (map trim (flat_map (splitOn 44) ts)) /\
  ((forall t, In t ts -> ~ In 44%N t) ->
   back = filter truthy (map trim ts)) /\
  (forall t, In t back -> t <> [] /\ trim t = t).
Proof.
  cbv zeta.
  assert (E : extractThemesFromCanonLines (buildCanonBlock m rev) =
              filter truthy
                (map trim (flat_map (splitOn 44) (themes (sideOf m rev))))).
  { rewrite extract_from_block.
    destruct (themes (sideOf m rev)) as [|t r] eqn:Et; [reflexivity|].
    apply themes_of_joined. discriminate. }
  split; [exact E|]. split.
  - intros Hc. rewrite E. now rewrite pieces_without_comma.
  - intros t Ht. rewrite E in Ht. apply filter_In in Ht.
    destruct Ht as [Hin Ht]. split; [intros ->; discriminate|].
    apply in_map_iff in Hin. destruct Hin as (x & <- & _).
    apply TextFacts.trim_idempotent.
Qed.

(** ** The key *)

Lemma splitOn_field (a b : jsstring) :
  ~ In 124%N a ->
  splitOn 124 (a ++ js "|" ++ b) = a :: splitOn 124 b.
Proof.
  intros H. change (a ++ js "|" ++ b) with (a ++ 124%N :: b).
  now rewrite splitOn_app, splitOn_none.
Qed.

Lemma makeKey_split (input : CardGenInput) :
  pipeFree input ->
  splitOn 124 (makeKey input) =
  [ spreadId input; idKey input; intentionId input; cardId input;
    if isReversed input then js "r" else js "u" ].
Proof.
  intros (H1 & H2 & H3 & H4). unfold makeKey.
  rewrite !splitOn_field by assumption.
  now destruct (isReversed input).
Qed.

(** X12.  The key of a request whose four identifiers hold no [|] can be
    taken apart again: splitting it at [|] gives the spread, the position,
    the intention, the card and the orientation flag; so two such requests
    with the same key agree on all five.  (The intention text and the card
    name are not part of the key.)  With a [|] inside an identifier, two
    requests that differ in their identifiers can share a key. *)
Theorem makeKey_fields (input : CardGenInput) :
  pipeFree input ->
  splitOn 124 (makeKey input) =
    [ spreadId input; idKey input; intentionId input; cardId input;
      if isReversed input then js "r" else js "u" ] /\
  (forall input',
      pipeFree input' -> makeKey input' = makeKey input ->
      spreadId input' = spreadId input /\ idKey input' = idKey input /\
      intentionId input' = intentionId input /\
      cardId input' = cardId input /\ isReversed input' = isReversed input) /\
  (exists i1 i2,
      spreadId i1 <> spreadId i2 /\ idKey i1 <> idKey i2 /\
      makeKey i1 = makeKey i2).
Proof.
  intros Hp. split; [now apply makeKey_split|]. split.
  - intros input' Hp' Hk.
    apply (f_equal (splitOn 124)) in Hk.
    rewrite !makeKey_split in Hk by assumption.
    injection Hk as E1 E2 E3 E4 E5.
    repeat match goal with |- _ /\ _ => split; [assumption|] end.
    destruct (isReversed input'), (isReversed input);
      reflexivity || discriminate.
  - exists {| spreadId := js "a|b"; idKey := js "past-1";
              intentionId := js "i"; intentionText := []; cardId := js "c";
              cardName := []; isReversed := false |},
           {| spreadId := js "a"; idKey := js "b|past-1";
              intentionId := js "i"; intentionText := []; cardId := js "c";
              cardName := []; isReversed := false |}.
    repeat split; discriminate || reflexivity.
Qed.

Lemma makeKey_fields_witness :
  splitOn 124 (makeKey Samples.pastRequest) =
  [ js "ppf"; js "past-3"; js "ppf:growth:healing"; js "0.TheOne"; js "u" ].
Proof.
  refine (proj1 (@makeKey_fields Samples.pastRequest _)).
  repeat split; apply notIn_existsb; reflexivity.
Defined.

End CanonFacts.

(* ------------------------------------------------------------------ *)
(** * What surrounds a response *)
(* ------------------------------------------------------------------ *)

Module ResponseFacts.

Import Validate Engine Notions.

Lemma parseJsonOnly_reads (raw : jsstring) (first last : nat) :
  indexOf (trim raw) (js "{") = Some first ->
  lastIndexOf (trim raw) (js "}") = Some last ->
  first < last ->
  parseJsonOnly raw = readObject (slice (trim raw) first (last + 1)).
Proof.
  intros H1 H2 H3. unfold parseJsonOnly, readObject. cbv zeta.
  rewrite H1, H2.
  replace (last <=? first) with false by (symmetry; apply Nat.leb_gt; lia).
  reflexivity.
Qed.

Lemma dropWhile_app_stop (p : N -> bool) (a y : jsstring) (b : N) :
  p b = false -> dropWhile p (a ++ b :: y) = dropWhile p a ++ b :: y.
Proof.
  intros Hb. induction a as [|x a IH]; cbn [app dropWhile].
  - now rewrite Hb.
  - destruct (p x); [exact IH | reflexivity].
Qed.

Lemma trimEnd_app_stop (a post : jsstring) (e : N) :
  isSpace e = false -> trimEnd (a ++ e :: post) = a ++ e :: trimEnd post.
Proof.
  intros He. unfold trimEnd. rewrite rev_app_distr. cbn [rev].
  rewrite <- app_assoc. cbn [app].
  rewrite dropWhile_app_stop by exact He.
  rewrite rev_app_distr. cbn [rev]. rewrite rev_involutive, <- app_assoc.
  reflexivity.
Qed.

Lemma trim_around (pre mid post : jsstring) (b e : N) :
  isSpace b = false -> isSpace e = false ->
  trim (pre ++ (b :: mid ++ [e]) ++ post) =
  (trimStart pre ++ b :: mid) ++ e :: trimEnd post.
Proof.
  intros Hb He. unfold trim. unfold trimStart at 1.
  cbn [app]. rewrite dropWhile_app_stop by exact Hb.
  fold (trimStart pre).
  replace (trimStart pre ++ b :: (mid ++ [e]) ++ post)
    with ((trimStart pre ++ b :: mid) ++ e :: post)
    by (rewrite <- ?app_assoc; cbn [app]; rewrite <- ?app_assoc; reflexivity).
  now apply trimEnd_app_stop.
Qed.

Lemma startsWith_nil (s : jsstring) : startsWith s [] = true.
Proof. now destruct s. Qed.

Lemma indexOf_first (c : N) (a y : jsstring) :
  ~ In c a -> indexOf (a ++ c :: y) [c] = Some (length a).
Proof.
  induction a as [|x a IH]; intros H; cbn [app indexOf startsWith length].
  - now rewrite N.eqb_refl, startsWith_nil.
  - destruct (N.eqb_spec c x) as [->|Hne]; [destruct H; now left|].
    cbn [andb]. rewrite IH; [reflexivity|]. intros Hin. apply H. now right.
Qed.

Lemma lastIndexOf_none (c : N) (s : jsstring) :
  ~ In c s -> lastIndexOf s [c] = None.
Proof.
  induction s as [|x r IH]; intros H; cbn [lastIndexOf startsWith];
    [reflexivity|].
  rewrite IH by (intros Hin; apply H; now right).
  destruct (N.eqb_spec c x) as [->|Hne]; [destruct H; now left|].
  reflexivity.
Qed.

Lemma lastIndexOf_last (c : N) (a post : jsstring) :
  ~ In c post -> lastIndexOf (a ++ c :: post) [c] = Some (length a).
Proof.
  intros H. induction a as [|x a IH]; cbn [app lastIndexOf length].
  - rewrite lastIndexOf_none by exact H.
    cbn [startsWith]. now rewrite N.eqb_refl, startsWith_nil.
  - now rewrite IH.
Qed.

Lemma slice_middle (p b q : jsstring) :
  slice (p ++ b ++ q) (length p) (length p + length b) = b.
Proof.
  unfold slice. replace (length p + length b - length p) with (length b) by lia.
  rewrite skipn_app, skipn_all, Nat.sub_diag. cbn [app skipn].
  rewrite firstn_app, firstn_all, Nat.sub_diag. cbn [firstn].
  apply app_nil_r.
Qed.

Lemma In_trimStart (c : N) (s : jsstring) : In c (trimStart s) -> In c s.
Proof.
  destruct (Words.dropWhile_split isSpace s) as (a & Ha & _).
  intros H. rewrite Ha. apply in_or_app. now right.
Qed.

Lemma In_trimEnd (c : N) (s : jsstring) : In c (trimEnd s) -> In c s.
Proof.
  destruct (Words.dropEnd_split isSpace s) as (t & Ht & _).
  intros H. rewrite Ht. apply in_or_app. now left.
Qed.

(** The object is found wherever it stands. *)
Lemma object_found (pre mid post : jsstring) :
  ~ In 123%N pre -> ~ In 125%N post ->
  parseJsonOnly (pre ++ (123%N :: mid ++ [125%N]) ++ post) =
  readObject (123%N :: mid ++ [125%N]).
Proof.
  intros Hpre Hpost.
  set (p := trimStart pre). set (q := trimEnd post).
  assert (Et : trim (pre ++ (123%N :: mid ++ [125%N]) ++ post) =
               (p ++ 123%N :: mid) ++ 125%N :: q)
    by (now apply trim_around).
  assert (Hp : ~ In 123%N p) by (intros H; apply Hpre, In_trimStart, H).
  assert (Hq : ~ In 125%N q) by (intros H; apply Hpost, In_trimEnd, H).
  rewrite (@parseJsonOnly_reads _ (length p) (length p + S (length mid))).
  - rewrite Et.
    replace ((p ++ 123%N :: mid) ++ 125%N :: q)
      with (p ++ (123%N :: mid ++ [125%N]) ++ q)
      by (rewrite <- ?app_assoc; cbn [app]; rewrite <- ?app_assoc; reflexivity).
    replace (length p + S (length mid) + 1)
      with (length p + length (123%N :: mid ++ [125%N]))
      by (cbn [length]; rewrite length_app; cbn [length]; lia).
    now rewrite slice_middle.
  - rewrite Et, <- app_assoc. cbn [app].
    now apply (@indexOf_first 123%N p).
  - rewrite Et.
    replace (length p + S (length mid)) with (length (p ++ 123%N :: mid))
      by (rewrite length_app; reflexivity).
    now apply (@lastIndexOf_last 125%N).
  - lia.
Qed.

(** X13.  [parseJsonOnly] reads the object wherever it stands in the
    response: text before it that holds no opening brace and text after it
    that holds no closing brace change nothing, neither the text returned
    nor the error thrown. *)
Theorem parseJsonOnly_ignores_surroundings (pre mid post : jsstring) :
  ~ In 123%N pre -> ~ In 125%N post ->
  let object := 123%N :: mid ++ [125%N] in
  parseJsonOnly (pre ++ object ++ post) = parseJsonOnly object.
Proof.
  intros Hpre Hpost. cbv zeta.
  rewrite (@object_found pre mid post Hpre Hpost).
  symmetry.
  pose proof (@object_found [] mid []) as H.
  cbn [app] in H. rewrite app_nil_r in H. apply H; intros [].
Qed.

Lemma parseJsonOnly_ignores_surroundings_witness :
  parseJsonOnly (jsq "Sure! {'text':'hi'} Hope it helps.") =
  parseJsonOnly (jsq "{'text':'hi'}") /\
  parseJsonOnly (jsq "{'text':'hi'}") = Ok (js "hi").
Proof.
  split; [|vm_compute; reflexivity].
  apply (@parseJsonOnly_ignores_surroundings
           (js "Sure! ") (jsq "'text':'hi'") (js " Hope it helps."));
    apply CanonFacts.notIn_existsb; reflexivity.
Defined.

(** X14.  White space around a text is not seen: [validateText] and
    [sentenceCount] give the same on the trimmed text, [parseJsonOnly]
    gives the same on the trimmed response, and the text [parseJsonOnly]
    returns is itself trimmed and not empty. *)
Theorem surrounding_space_ignored (text : jsstring) (role : Role)
    (opts : ValidateOptions) :
  validateText (trim text) role opts = validateText text role opts /\
  sentenceCount (trim text) = sentenceCount text /\
  parseJsonOnly (trim text) = parseJsonOnly text /\
  (forall t, parseJsonOnly text = Ok t -> t <> [] /\ trim t = t).
Proof.
  split; [|split; [|split]].
  - unfold validateText. now rewrite TextFacts.trim_idempotent.
  - unfold sentenceCount. now rewrite TextFacts.trim_idempotent.
  - unfold parseJsonOnly. now rewrite TextFacts.trim_idempotent.
  - intros t H. apply ParseFacts.parseJsonOnly_ok in H.
    destruct H as (f & l & ms & v & _ & _ & _ & _ & _ & _ & -> & Hne).
    split; [exact Hne | apply TextFacts.trim_idempotent].
Qed.

End ResponseFacts.

(* ------------------------------------------------------------------ *)
(** * The calls and the errors of a run *)
(* ------------------------------------------------------------------ *)

Module RunShape.

Import Validate Engine Notions RunFacts.

Lemma count_app (p : GenCall -> bool) (a b : Calls) :
  count p (a ++ b) = count p a + count p b.
Proof. unfold count. now rewrite filter_app, length_app. Qed.

Lemma count_kinds (c : Calls) :
  length c = count isDraft c + count isRewrite c + count isMicroRepair c.
Proof.
  unfold count. induction c as [|x r IH]; [reflexivity|].
  destruct x; cbn [filter isDraft isRewrite isMicroRepair length]; lia.
Qed.

Lemma grows_refl (c : Calls) : grows 0 0 0 c c.
Proof. exists []. cbn. auto. Qed.

Lemma grows_trans (d1 r1 m1 d2 r2 m2 : nat) (a b c : Calls) :
  grows d1 r1 m1 a b -> grows d2 r2 m2 b c ->
  grows (d1 + d2) (r1 + r2) (m1 + m2) a c.
Proof.
  intros (n1 & -> & Hd1 & Hr1 & Hm1) (n2 & -> & Hd2 & Hr2 & Hm2).
  exists (n2 ++ n1). rewrite !count_app, app_assoc.
  split; [reflexivity|]. split; [lia|]. split; lia.
Qed.

Lemma grows_weaken (d r m r' m' : nat) (a b : Calls) :
  r <= r' -> m <= m' -> grows d r m a b -> grows d r' m' a b.
Proof.
  intros Hr Hm (n & -> & Hd & Hr1 & Hm1). exists n.
  split; [reflexivity|]. split; [exact Hd|]. split; lia.
Qed.

Lemma grows_draft (c : Calls) : grows 1 0 0 c (DraftOnce :: c).
Proof. exists [DraftOnce]. cbn. auto. Qed.

Lemma grows_rewrite (c : Calls) (w r : jsstring) :
  grows 0 1 0 c (RepairRewrite w r :: c).
Proof. exists [RepairRewrite w r]. cbn. auto. Qed.

Lemma grows_micro (c : Calls) (w : jsstring) :
  grows 0 0 1 c (MicroRepairForLength w :: c).
Proof. exists [MicroRepairForLength w]. cbn. auto. Qed.

Section Shape.

Variable env : Env.
Variable input : CardGenInput.
Variable role : Role.
Variable canonLines : list jsstring.
Variable anchors : list jsstring.

Lemma repairRounds_grows (rounds : nat) :
  forall calls working reason res calls',
    repairRounds env role anchors rounds calls working reason = (res, calls') ->
    grows 0 rounds 0 calls calls'.
Proof.
  induction rounds as [|k IH]; intros calls working reason res calls' H;
    cbn [repairRounds] in H.
  - injection H as <- <-. apply grows_refl.
  - unfold ask in H.
    assert (Hstep : grows 0 1 0 calls (RepairRewrite working reason :: calls))
      by apply grows_rewrite.
    destruct (bind _ _) as [w|m].
    + destruct (_ && _).
      * injection H as <- <-.
        eapply grows_weaken; [| |exact Hstep]; lia.
      * apply IH in H.
        exact (grows_trans Hstep H).
    + injection H as <- <-.
      eapply grows_weaken; [| |exact Hstep]; lia.
Qed.

Lemma tryDraft_grows (raw : jsstring) (calls calls' : Calls)
    (res : TryResult) :
  tryDraft env input role anchors raw calls = (res, calls') ->
  grows 0 2 0 calls calls'.
Proof.
  assert (H0 : grows 0 2 0 calls calls)
    by (eapply grows_weaken; [| |apply grows_refl]; lia).
  unfold tryDraft.
  destruct (parseJsonOnly raw) as [text|m].
  2:{ now intros [= <- <-]. }
  destruct (validateText text role HARD) as [[]|m].
  2:{ now intros [= <- <-]. }
  cbv zeta.
  destruct (needsRepair _ _ _ _ _ _) as [[|]|m].
  - destruct (repairRounds _ _ _ _ _ _ _) as [rr calls2] eqn:Er.
    apply repairRounds_grows in Er.
    destruct rr as [w|m|w]; [| |destruct (Nat.eqb _ _)];
      intros [= <- <-]; exact Er.
  - now intros [= <- <-].
  - now intros [= <- <-].
Qed.

Lemma catchBlock_grows (msg text : jsstring) (calls : Calls) (st : LoopState) :
  grows 0 0 1 calls
        (callsOf (catchBlock env input role canonLines msg text calls st)).
Proof.
  unfold catchBlock. cbv zeta.
  destruct (truthy text && isWordCountError msg).
  - unfold lengthRepair, ask.
    destruct (bind _ _); cbn [callsOf Engine.calls]; apply grows_micro.
  - cbn [callsOf Engine.calls].
    eapply grows_weaken; [| |apply grows_refl]; lia.
Qed.

Lemma attempt_grows (st : LoopState) :
  grows 1 2 1 (calls st)
        (callsOf (attempt env input role canonLines anchors st)).
Proof.
  unfold attempt, ask.
  pose proof (grows_draft (calls st)) as Hd.
  destruct (ollamaChat env _ _) as [raw|m].
  2:{ cbn [callsOf]. eapply grows_weaken; [| |exact Hd]; lia. }
  destruct (tryDraft _ _ _ _ _ _) as [res calls2] eqn:E.
  apply tryDraft_grows in E.
  pose proof (grows_trans Hd E) as H2.
  destruct res as [t|m text|w cov].
  - cbn [callsOf]. eapply grows_weaken; [| |exact H2]; lia.
  - exact (grows_trans H2 (catchBlock_grows m text calls2 st)).
  - cbn [callsOf Engine.calls]. eapply grows_weaken; [| |exact H2]; lia.
Qed.

Lemma draftLoop_grows (attempts : nat) :
  forall st,
    exists j,
      j <= attempts /\
      grows j (2 * j) j (calls st)
            (callsOf (draftLoop env input role canonLines anchors attempts st)) /\
      (forall st',
          draftLoop env input role canonLines anchors attempts st =
            NextAttempt st' -> j = attempts).
Proof.
  induction attempts as [|k IH]; intros st; cbn [draftLoop].
  - exists 0. split; [lia|]. split; [apply grows_refl | auto].
  - pose proof (attempt_grows st) as Ha.
    destruct (attempt _ _ _ _ _ _) as [o c|m c|st1] eqn:E.
    + exists 1. split; [lia|]. split; [exact Ha | discriminate].
    + exists 1. split; [lia|]. split; [exact Ha | discriminate].
    + destruct (IH st1) as (j & Hj & Hg & Hn).
      exists (S j). split; [lia|]. split.
      * cbn [callsOf] in Ha.
        replace (2 * S j) with (2 + 2 * j) by lia.
        exact (grows_trans Ha Hg).
      * intros st' H. now rewrite (Hn st' H).
Qed.

Lemma finalFallback_grows (st : LoopState) :
  grows 0 0 1 (calls st) (snd (finalFallback env input role st)).
Proof.
  assert (H0 : grows 0 0 1 (calls st) (calls st))
    by (eapply grows_weaken; [| |apply grows_refl]; lia).
  unfold finalFallback, ask. cbv zeta.
  destruct (lastText st) as [lt|]; [|exact H0].
  destruct (truthy lt); [|exact H0].
  destruct (validateText lt role HARD) as [[]|]; [|exact H0].
  destruct (_ || _); [|exact H0].
  destruct (bind _ _); cbn [snd]; apply grows_micro.
Qed.

Lemma runLoop_grows :
  exists j,
    j <= MAX_DRAFT_ATTEMPTS /\
    grows j (2 * j) (j + 1) []
          (snd (runLoop env input role canonLines anchors)).
Proof.
  unfold runLoop.
  destruct (draftLoop_grows MAX_DRAFT_ATTEMPTS initialState)
    as (j & Hj & Hg & _).
  cbn [Engine.calls initialState] in Hg.
  exists j. split; [exact Hj|].
  destruct (draftLoop _ _ _ _ _ _ _) as [o c|m c|st]; cbn [callsOf snd] in *.
  - eapply grows_weaken; [| |exact Hg]; lia.
  - eapply grows_weaken; [| |exact Hg]; lia.
  - pose proof (grows_trans Hg (finalFallback_grows st)) as H.
    rewrite Nat.add_0_r in H.
    eapply grows_weaken; [| |exact H]; lia.
Qed.

(** ** Errors *)

Lemma catchBlock_not_thrown (msg text m : jsstring) (calls c : Calls)
    (st : LoopState) :
  catchBlock env input role canonLines msg text calls st <> Thrown m c.
Proof.
  unfold catchBlock. cbv zeta.
  destruct (truthy text && isWordCountError msg); [|discriminate].
  destruct (lengthRepair _ _ _ _ _ _) as [[t|e] c1]; discriminate.
Qed.

Lemma catchBlock_next (msg text : jsstring) (calls : Calls)
    (st st' : LoopState) :
  catchBlock env input role canonLines msg text calls st = NextAttempt st' ->
  exists e, lastErr st' = Some e.
Proof.
  unfold catchBlock. cbv zeta.
  destruct (truthy text && isWordCountError msg).
  - destruct (lengthRepair _ _ _ _ _ _) as [[t|e] c1]; [discriminate|].
    intros [= <-]. cbn. eauto.
  - intros [= <-]. cbn. eauto.
Qed.

Lemma attempt_thrown (st : LoopState) (m : jsstring) (c : Calls) :
  attempt env input role canonLines anchors st = Thrown m c ->
  c = DraftOnce :: calls st /\
  ollamaChat env (length (calls st)) DraftOnce = Throw m.
Proof.
  unfold attempt, ask.
  destruct (ollamaChat env _ _) as [raw|e]; [|now intros [= <- <-]].
  destruct (tryDraft _ _ _ _ _ _) as [[t|e text|w cov] calls2];
    [discriminate| |discriminate].
  intros H. now apply catchBlock_not_thrown in H.
Qed.

Lemma attempt_next (st st' : LoopState) :
  attempt env input role canonLines anchors st = NextAttempt st' ->
  exists e, lastErr st' = Some e.
Proof.
  unfold attempt, ask.
  destruct (ollamaChat env _ _) as [raw|e]; [|discriminate].
  destruct (tryDraft _ _ _ _ _ _) as [[t|e text|w cov] calls2];
    [discriminate | apply catchBlock_next |].
  intros [= <-]. cbn. eauto.
Qed.

Lemma draftLoop_thrown (attempts : nat) :
  forall st m c,
    draftLoop env input role canonLines anchors attempts st = Thrown m c ->
    exists rest,
      c = DraftOnce :: rest /\
      ollamaChat env (length rest) DraftOnce = Throw m.
Proof.
  induction attempts as [|k IH]; intros st m c; cbn [draftLoop];
    [discriminate|].
  destruct (attempt _ _ _ _ _ _) as [o c1|m1 c1|st1] eqn:E.
  - discriminate.
  - intros [= <- <-]. apply attempt_thrown in E. destruct E as [-> E].
    eauto.
  - apply IH.
Qed.

Lemma draftLoop_next (attempts : nat) :
  forall st st',
    draftLoop env input role canonLines anchors (S attempts) st =
      NextAttempt st' ->
    exists e, lastErr st' = Some e.
Proof.
  induction attempts as [|k IH]; intros st st'.
  - cbn [draftLoop].
    destruct (attempt _ _ _ _ _ _) as [o c1|m1 c1|st1] eqn:E;
      [discriminate|discriminate|].
    intros [= <-]. eapply attempt_next, E.
  - change (draftLoop env input role canonLines anchors (S (S k)) st)
      with (match attempt env input role canonLines anchors st with
            | NextAttempt st1 =>
                draftLoop env input role canonLines anchors (S k) st1
            | done => done
            end).
    destruct (attempt _ _ _ _ _ _) as [o c1|m1 c1|st1];
      [discriminate|discriminate|].
    apply IH.
Qed.

Lemma finalFallback_thrown (st : LoopState) (m : jsstring) (c : Calls) :
  finalFallback env input role st = (Throw m, c) ->
  m = exhaustedMessage (lastErr st).
Proof.
  unfold finalFallback, ask. cbv zeta.
  destruct (lastText st) as [lt|]; [|now intros [= <- _]].
  destruct (truthy lt); [|now intros [= <- _]].
  destruct (validateText lt role HARD) as [[]|]; [|now intros [= <- _]].
  destruct (_ || _); [|discriminate].
  destruct (bind _ _); [discriminate|now intros [= <- _]].
Qed.

Lemma finalFallback_thrown_calls (st : LoopState) (m : jsstring) (c : Calls) :
  finalFallback env input role st = (Throw m, c) ->
  c = calls st \/
  exists lt, lastText st = Some lt /\ c = MicroRepairForLength lt :: calls st.
Proof.
  unfold finalFallback, ask. cbv zeta.
  destruct (lastText st) as [lt|]; [|intros [= _ <-]; now left].
  destruct (truthy lt); [|intros [= _ <-]; now left].
  destruct (validateText lt role HARD) as [[]|]; [|intros [= _ <-]; now left].
  destruct (_ || _); [|discriminate].
  destruct (bind _ _); [discriminate|].
  intros [= _ <-]. right. eauto.
Qed.

(** ** A draft that trips no soft check *)

Lemma soft_checks_reference_error (t : jsstring) :
  passesSoftChecks anchors (intentionText input) t ->
  needsRepair (scoreAnchorCoverage t anchors)
              (length (lintDiscouragedPhrases t)) (wordCount t)
              (sentenceCount t) t (intentionText input) =
  Throw (js "lookslikeThemeDump is not defined").
Proof.
  intros (Hc & Hh & [Hw1 Hw2] & [Hs1 Hs2] & Hi & Hr). unfold needsRepair.
  replace (_ <? _) with false by (symmetry; apply Nat.ltb_ge; lia).
  replace (2 <=? _) with false by (symmetry; apply Nat.leb_gt; lia).
  replace (wordCount t <? TARGET_MIN) with false
    by (symmetry; apply Nat.ltb_ge; lia).
  replace (TARGET_MAX <? wordCount t) with false
    by (symmetry; apply Nat.ltb_ge; lia).
  replace (sentenceCount t <? MIN_SENTENCES) with false
    by (symmetry; apply Nat.ltb_ge; lia).
  replace (MAX_SENTENCES <? sentenceCount t) with false
    by (symmetry; apply Nat.ltb_ge; lia).
  rewrite Hi, Hr. reflexivity.
Qed.

Lemma perfect_attempt (st : LoopState) (raw t : jsstring) :
  ollamaChat env (length (calls st)) DraftOnce = Ok raw ->
  parseJsonOnly raw = Ok t -> valid role t ->
  passesSoftChecks anchors (intentionText input) t ->
  attempt env input role canonLines anchors st =
  NextAttempt {| calls := DraftOnce :: calls st;
                 lastErr := Some (js "lookslikeThemeDump is not defined");
                 lastText := Some t |}.
Proof.
  intros Hraw Hp Hv Hs. unfold attempt, ask. rewrite Hraw.
  unfold tryDraft. rewrite Hp, Hv. cbv zeta.
  rewrite (soft_checks_reference_error Hs).
  unfold catchBlock. cbv zeta.
  rewrite (valid_truthy Hv).
  change (isWordCountError (js "lookslikeThemeDump is not defined"))
    with false.
  reflexivity.
Qed.

Lemma perfect_loop (raw t : jsstring) :
  (forall n, ollamaChat env n DraftOnce = Ok raw) ->
  parseJsonOnly raw = Ok t -> valid role t ->
  passesSoftChecks anchors (intentionText input) t ->
  forall attempts st,
    draftLoop env input role canonLines anchors (S attempts) st =
    NextAttempt
      {| calls := repeat DraftOnce (S attempts) ++ calls st;
         lastErr := Some (js "lookslikeThemeDump is not defined");
         lastText := Some t |}.
Proof.
  intros Hraw Hp Hv Hs.
  induction attempts as [|k IH]; intros st.
  - cbn [draftLoop]. now rewrite (perfect_attempt st (Hraw _) Hp Hv Hs).
  - change (draftLoop env input role canonLines anchors (S (S k)) st)
      with (match attempt env input role canonLines anchors st with
            | NextAttempt st1 =>
                draftLoop env input role canonLines anchors (S k) st1
            | done => done
            end).
    rewrite (perfect_attempt st (Hraw _) Hp Hv Hs), IH.
    cbn [Engine.calls]. do 2 f_equal.
    change (repeat DraftOnce (S (S k))) with (DraftOnce :: repeat DraftOnce (S k)).
    rewrite (repeat_cons (S k) DraftOnce) at 1.
    rewrite <- app_assoc. reflexivity.
Qed.

End Shape.

(** X15.  The budget of a run: [generateCardMessage] calls the generator
    for at most 4 drafts, 8 rewrites and 5 micro-repairs, 17 calls in all,
    whatever the generator answers; and there is a generator that makes the
    run use all 17. *)
Theorem call_budget (env : Env) (input : CardGenInput) :
  let calls := snd (generateCardMessage env input) in
  count isDraft calls <= 4 /\
  count isRewrite calls <= 8 /\
  count isMicroRepair calls <= 5 /\
  length calls <= 17 /\
  length (snd (generateCardMessage (Samples.envWith Samples.everyCallUsed)
                                   Samples.pastRequest)) = 17.
Proof.
  cbv zeta.
  assert (H : count isDraft (snd (generateCardMessage env input)) <= 4 /\
              count isRewrite (snd (generateCardMessage env input)) <= 8 /\
              count isMicroRepair (snd (generateCardMessage env input)) <= 5).
  { unfold generateCardMessage.
    destruct (Roles.roleFromIdKey (idKey input)) as [role|];
      [|cbn; lia].
    destruct (loadMajorMeaning env (cardId input)) as [meaning|];
      [|cbn; lia].
    cbv zeta.
    destruct (runLoop_grows env input role
                (buildCanonBlock meaning (isReversed input))
                (pickCanonAnchors meaning (isReversed input) (anchorSeed input)))
      as (j & Hj & new & -> & Hd & Hr & Hm).
    rewrite app_nil_r. unfold MAX_DRAFT_ATTEMPTS in Hj. lia. }
  destruct H as (Hd & Hr & Hm).
  repeat match goal with |- _ /\ _ => split; [assumption|] end.
  split; [rewrite count_kinds; lia|].
  vm_compute. reflexivity.
Qed.

(** X16.  A draft that parses, passes the hard gate and trips no soft
    check is not returned when it arrives: the check that follows calls
    [lookslikeThemeDump], a name that is not bound, so the attempt ends in
    the catch block and the loop goes on.  A generator that answers every
    draft call with such a draft is called four times, no repair is asked
    for, and the text is returned by the final fallback. *)
Theorem perfect_draft_costs_four_calls (env : Env) (input : CardGenInput)
    (role : Role) (meaning : MeaningFile) (raw t : jsstring) :
  Roles.roleFromIdKey (idKey input) = Ok role ->
  loadMajorMeaning env (cardId input) = Ok meaning ->
  (forall n, ollamaChat env n DraftOnce = Ok raw) ->
  parseJsonOnly raw = Ok t ->
  validateText t role HARD = Ok tt ->
  passesSoftChecks
    (pickCanonAnchors meaning (isReversed input) (anchorSeed input))
    (intentionText input) t ->
  generateCardMessage env input =
  (Ok (output input (nowISO env) t),
   [DraftOnce; DraftOnce; DraftOnce; DraftOnce]).
Proof.
  intros Hrole Hload Hraw Hp Hv Hs.
  unfold generateCardMessage, runLoop. rewrite Hrole, Hload. cbv zeta.
  unfold MAX_DRAFT_ATTEMPTS.
  rewrite (@perfect_loop env input role _ _ raw t Hraw Hp Hv Hs 3 initialState).
  apply finalFallback_in_band; [reflexivity | exact Hv |].
  destruct Hs as (_ & _ & [Hw1 Hw2] & _). unfold inTargetBand.
  apply andb_true_iff. split; apply Nat.leb_le; assumption.
Qed.

Lemma perfect_draft_costs_four_calls_witness :
  generateCardMessage Samples.alwaysPerfect Samples.pastRequest =
  (Ok (output Samples.pastRequest (nowISO Samples.alwaysPerfect)
              Samples.perfectText),
   [DraftOnce; DraftOnce; DraftOnce; DraftOnce]).
Proof.
  apply (@perfect_draft_costs_four_calls Samples.alwaysPerfect
           Samples.pastRequest Past Samples.oneCoreCard
           (Samples.jsonOf Samples.perfectText) Samples.perfectText).
  - reflexivity.
  - reflexivity.
  - reflexivity.
  - vm_compute. reflexivity.
  - vm_compute. reflexivity.
  - unfold passesSoftChecks. cbv zeta.
    repeat match goal with |- _ /\ _ => split end;
      try (vm_compute; reflexivity); vm_compute; lia.
Defined.

(** X17.  The errors of a run, for a canon that loads as a [MeaningFile]
    of the declared shape.  When [generateCardMessage] throws, then either
    the position key names no role, or the canon could not be loaded (no
    call of the generator is made in these two cases), or a draft call of
    the generator failed, whose error leaves the function as it is, or the
    loop used up its attempts, all four drafts were asked for, and the
    error is the exhaustion error with the error the loop recorded last:
    an error is recorded in every attempt that does not return, so the
    default [unknown] of the message is never used.  An error of a rewrite
    or micro-repair call never leaves the function on its own. *)
Theorem thrown_errors (env : Env) (input : CardGenInput) (m : jsstring)
    (calls : Calls) :
  generateCardMessage env input = (Throw m, calls) ->
  (calls = [] /\ Roles.roleFromIdKey (idKey input) = Throw m) \/
  (calls = [] /\ loadMajorMeaning env (cardId input) = Throw m) \/
  (exists rest,
      calls = DraftOnce :: rest /\
      ollamaChat env (length rest) DraftOnce = Throw m) \/
  (exists st e,
      attemptsExhausted env input st /\
      lastErr st = Some e /\
      m = js "Failed to generate valid output. Last error: " ++ e /\
      count isDraft calls = 4 /\
      (calls = Engine.calls st \/
       exists lt, lastText st = Some lt /\
                  calls = MicroRepairForLength lt :: Engine.calls st)).
Proof.
  unfold generateCardMessage.
  destruct (Roles.roleFromIdKey (idKey input)) as [role|e] eqn:Hrole.
  2:{ intros [= <- <-]. now left. }
  destruct (loadMajorMeaning env (cardId input)) as [meaning|e] eqn:Hload.
  2:{ intros [= <- <-]. right. now left. }
  cbv zeta. unfold runLoop.
  set (canonLines := buildCanonBlock meaning (isReversed input)).
  set (anchors := pickCanonAnchors meaning (isReversed input) (anchorSeed input)).
  destruct (draftLoop_grows env input role canonLines anchors
              MAX_DRAFT_ATTEMPTS initialState) as (j & Hj & Hg & Hn).
  destruct (draftLoop _ _ _ _ _ _ _) as [o c|e c|st] eqn:E.
  - discriminate.
  - intros [= <- <-]. right. right. left.
    eapply draftLoop_thrown, E.
  - intros H. right. right. right.
    destruct (draftLoop_next _ _ _ _ _ _ _ E) as [e He].
    pose proof (finalFallback_thrown _ _ _ _ H) as Hm.
    rewrite He in Hm. exists st, e.
    split; [exists role, meaning; auto|].
    split; [exact He|]. split; [exact Hm|]. split.
    + rewrite (Hn st eq_refl) in Hg.
      cbn [callsOf Engine.calls initialState] in Hg.
      pose proof (finalFallback_grows env input role st) as Hf.
      rewrite H in Hf. cbn [snd] in Hf.
      destruct (grows_trans Hg Hf) as (new & -> & Hd & _).
      rewrite app_nil_r. exact Hd.
    + exact (finalFallback_thrown_calls _ _ _ _ H).
Qed.

(** Three valid drafts with broken repairs, then a draft with an
    imperative start: the exhaustion error carries the imperative error
    recorded in the fourth attempt. *)
Lemma thrown_errors_witness :
  exists st,
    attemptsExhausted (Samples.envWith Samples.validThenImperative)
                      Samples.pastRequest st /\
    lastErr st = Some (imperativeMessage (js "take ")) /\
    fst (generateCardMessage (Samples.envWith Samples.validThenImperative)
                             Samples.pastRequest) =
    Throw (js "Failed to generate valid output. Last error: " ++
           imperativeMessage (js "take ")).
Proof.
  destruct (@thrown_errors (Samples.envWith Samples.validThenImperative)
              Samples.pastRequest
              (js "Failed to generate valid output. Last error: " ++
               imperativeMessage (js "take "))
              (calls Samples.stateAfterImperative))
    as [[_ H]|[[_ H]|[(rest & _ & H)|(st & e & Hex & He & Hm & _)]]].
  - vm_compute. reflexivity.
  - vm_compute in H. discriminate.
  - vm_compute in H. discriminate.
  - unfold Samples.envWith, Samples.validThenImperative in H.
    cbn [ollamaChat] in H. destruct (length rest <? 6); discriminate.
  - exists st. split; [exact Hex|]. split.
    + rewrite He. f_equal. symmetry.
      exact (app_inv_head _ _ _ Hm).
    + vm_compute. reflexivity.
Defined.

End RunShape.

(* ------------------------------------------------------------------ *)
(** * The end of the padded sentence *)
(* ------------------------------------------------------------------ *)

Module PaddingShape.

Import Validate Engine Notions ResponseFacts.

Lemma collapse_last (x : jsstring) (c : N) :
  isSpace c = false -> exists y, collapseSpaces (x ++ [c]) = y ++ [c].
Proof.
  intros Hc. induction x as [|d x IH]; cbn [app collapseSpaces].
  - rewrite Hc. now exists [].
  - destruct IH as [y Hy]. rewrite Hy.
    destruct (isSpace d); [destruct (headIsSpace _)|].
    + now exists y.
    + now exists (32%N :: y).
    + now exists (d :: y).
Qed.

Lemma trim_keeps_last (y : jsstring) (c : N) :
  isSpace c = false -> exists z, trim (y ++ [c]) = z ++ [c].
Proof.
  intros Hc. unfold trim, trimStart.
  rewrite dropWhile_app_stop by exact Hc.
  rewrite trimEnd_app_stop by exact Hc.
  now exists (dropWhile isSpace y).
Qed.

Lemma extraSentence_stop (role : Role) :
  exists front, extraSentence role = front ++ [46%N].
Proof.
  destruct role;
    match goal with
    | |- exists _, ?e = _ =>
        let v := eval vm_compute in (removelast e) in exists v
    end; vm_compute; reflexivity.
Qed.

Lemma padded_two_stops (s3 : jsstring) (role : Role) (a b c hint : jsstring) :
  exists body,
    trim (collapseSpaces
            (s3 ++ js " " ++ rolePhrase role a b c hint ++
             js " " ++ extraSentence role)) ++ js "." =
    body ++ js "..".
Proof.
  destruct (extraSentence_stop role) as [front Hf]. rewrite Hf.
  replace (s3 ++ js " " ++ rolePhrase role a b c hint ++
           js " " ++ front ++ [46%N])
    with ((s3 ++ js " " ++ rolePhrase role a b c hint ++ js " " ++ front)
          ++ [46%N])
    by (now rewrite <- !app_assoc).
  destruct (@collapse_last
              (s3 ++ js " " ++ rolePhrase role a b c hint ++ js " " ++ front)
              46%N eq_refl) as [y Hy].
  rewrite Hy.
  destruct (@trim_keeps_last y 46%N eq_refl) as [z Hz]. rewrite Hz.
  exists z. now rewrite <- app_assoc.
Qed.

(** X18.  When [padSentence3ToMinWords] pads (the text is below the
    minimum and has three sentences or more), the third sentence of the
    result ends in two full stops: the added clause ends with the full
    stop of its last sentence, and one more is appended. *)
Theorem padded_sentence_ends_in_two_stops (text : jsstring) (role : Role)
    (themes : list jsstring) (intention : jsstring) (minWords : Z) :
  (Z.of_nat (wordCount text) < minWords)%Z ->
  3 <= length (sentencesOf text) ->
  exists s1 s2 body rest,
    firstn 2 (sentencesOf text) = [s1; s2] /\
    skipn 3 (sentencesOf text) = rest /\
    padSentence3ToMinWords text role themes intention minWords =
    join (js " ") (s1 :: s2 :: (body ++ js "..") :: rest).
Proof.
  intros Hwc H3. unfold padSentence3ToMinWords. cbv zeta.
  assert (E : (minWords <=? Z.of_nat (wordCount text))%Z = false)
    by (apply Z.leb_gt; exact Hwc).
  rewrite E.
  destruct (sentencesOf text) as [|s1 [|s2 [|s3 rest]]]; cbn [length] in H3;
    try lia.
  match goal with
  | |- context [trim (collapseSpaces
                        (?x ++ js " " ++ rolePhrase role ?a ?b ?c ?h ++
                         js " " ++ extraSentence role)) ++ js "."] =>
      destruct (padded_two_stops x role a b c h) as [body Hb]
  end.
  exists s1, s2, body, rest. rewrite Hb. auto.
Qed.

Lemma padded_sentence_ends_in_two_stops_witness :
  exists s1 s2 body rest,
    padSentence3ToMinWords (js "One. Two!  Three?! Four.") Past [js "trust"]
      (js "Where am I on my spiritual journey?") 75 =
    join (js " ") (s1 :: s2 :: (body ++ js "..") :: rest).
Proof.
  destruct (@padded_sentence_ends_in_two_stops
              (js "One. Two!  Three?! Four.") Past [js "trust"]
              (js "Where am I on my spiritual journey?") 75%Z)
    as (s1 & s2 & body & rest & _ & _ & H).
  - vm_compute. reflexivity.
  - vm_compute. lia.
  - exists s1, s2, body, rest. exact H.
Defined.

End PaddingShape.

(* ------------------------------------------------------------------ *)
(** * The role of a position key *)
(* ------------------------------------------------------------------ *)

Module RoleFacts.

Import Validate Engine Notions Roles.

Ltac literals :=
  change (js "past-") with [112; 97; 115; 116; 45]%N in *;
  change (js "present-") with [112; 114; 101; 115; 101; 110; 116; 45]%N in *;
  change (js "future-") with [102; 117; 116; 117; 114; 101; 45]%N in *.

Lemma prefixes_exclusive (k : jsstring) (r1 r2 : Role) :
  startsWith k (rolePrefix r1) = true ->
  startsWith k (rolePrefix r2) = true -> r1 = r2.
Proof.
  destruct k as [|c1 [|c2 k]]; [destruct r1; discriminate|
                                destruct r1; cbn; rewrite ?andb_false_r;
                                discriminate|].
  destruct r1, r2; try reflexivity; unfold rolePrefix; literals;
    cbn [startsWith]; intros H1 H2;
    apply andb_true_iff in H1; destruct H1 as [Ha H1];
    apply andb_true_iff in H1; destruct H1 as [Hb _];
    apply andb_true_iff in H2; destruct H2 as [Hc H2];
    apply andb_true_iff in H2; destruct H2 as [Hd _];
    apply N.eqb_eq in Ha, Hb, Hc, Hd; congruence.
Qed.

Lemma role_of_prefix (k : jsstring) (role : Role) :
  roleFromIdKey k = Ok role <->
  startsWith (toLowerCase k) (rolePrefix role) = true.
Proof.
  unfold roleFromIdKey. cbv zeta.
  destruct (startsWith (toLowerCase k) (js "past-")) eqn:E1.
  { split.
    - now intros [= <-].
    - intros H. f_equal. exact (@prefixes_exclusive _ Past role E1 H). }
  destruct (startsWith (toLowerCase k) (js "present-")) eqn:E2.
  { split.
    - now intros [= <-].
    - intros H. f_equal. exact (@prefixes_exclusive _ Present role E2 H). }
  destruct (startsWith (toLowerCase k) (js "future-")) eqn:E3.
  { split.
    - now intros [= <-].
    - intros H. f_equal. exact (@prefixes_exclusive _ Future role E3 H). }
  split; [discriminate|].
  destruct role; cbn [rolePrefix]; congruence.
Qed.

Lemma startsWith_app (p rest : jsstring) : startsWith (p ++ rest) p = true.
Proof.
  induction p as [|x p IH]; cbn [app startsWith].
  - apply ResponseFacts.startsWith_nil.
  - now rewrite N.eqb_refl, IH.
Qed.

(** X20.  The role of a request is decided by the prefix of its position
    key alone, [past-], [present-] or [future-] in any letter case: what
    follows the prefix is not read, lower-casing the key changes nothing,
    and since no key has two of the prefixes the order of the tests does
    not matter.  A key without such a prefix is refused with an error that
    quotes the key as it was given. *)
Theorem roleFromIdKey_prefix (k : jsstring) :
  (forall role,
      roleFromIdKey k = Ok role <->
      startsWith (toLowerCase k) (rolePrefix role) = true) /\
  (forall role, roleFromIdKey (toLowerCase k) = Ok role <->
                roleFromIdKey k = Ok role) /\
  (forall role p rest,
      toLowerCase p = rolePrefix role -> roleFromIdKey (p ++ rest) = Ok role) /\
  (forall m, roleFromIdKey k = Throw m ->
             m = js "Unsupported idKey for this scaffold: " ++ k).
Proof.
  split; [|split; [|split]].
  - intros role. apply role_of_prefix.
  - intros role. rewrite !role_of_prefix.
    now rewrite CaseFacts.toLowerCase_idempotent.
  - intros role p rest Hp. apply role_of_prefix.
    rewrite CaseFacts.toLowerCase_app, Hp. apply startsWith_app.
  - intros m. unfold roleFromIdKey. cbv zeta.
    repeat (destruct (startsWith _ _); [discriminate|]).
    now intros [= <-].
Qed.

End RoleFacts.

(* ------------------------------------------------------------------ *)
(** * Keywords and tokens *)
(* ------------------------------------------------------------------ *)

Module NormalForm.

Import Validate Engine Notions.

Lemma splitOn_pieces (sep : N) (s : jsstring) :
  forall p c, In p (splitOn sep s) -> In c p -> c <> sep /\ In c s.
Proof.
  induction s as [|x r IH]; intros p c Hp Hc.
  - cbn in Hp. destruct Hp as [<-|[]]. destruct Hc.
  - cbn [splitOn] in Hp. destruct (N.eqb_spec x sep) as [->|Hne].
    + destruct Hp as [<-|Hp]; [destruct Hc|].
      destruct (IH p c Hp Hc) as [H1 H2]. split; [exact H1 | now right].
    + destruct (splitOn sep r) as [|q qs] eqn:Eq.
      * destruct Hp as [<-|[]]. destruct Hc as [<-|[]].
        split; [exact Hne | now left].
      * destruct Hp as [<-|Hp].
        -- destruct Hc as [<-|Hc]; [split; [exact Hne | now left]|].
           destruct (IH q c (or_introl eq_refl) Hc) as [H1 H2].
           split; [exact H1 | now right].
        -- destruct (IH p c (or_intror Hp) Hc) as [H1 H2].
           split; [exact H1 | now right].
Qed.

Lemma In_collapse (s : jsstring) (c : N) :
  In c (collapseSpaces s) -> c = 32%N \/ (In c s /\ isSpace c = false).
Proof.
  induction s as [|x r IH]; [intros []|].
  cbn [collapseSpaces]. destruct (isSpace x) eqn:Ex.
  - destruct (headIsSpace r).
    + intros H. destruct (IH H) as [->|[H1 H2]]; [now left|].
      right. split; [now right | exact H2].
    + intros [<-|H]; [now left|].
      destruct (IH H) as [->|[H1 H2]]; [now left|].
      right. split; [now right | exact H2].
  - intros [<-|H]; [right; split; [now left | exact Ex]|].
    destruct (IH H) as [->|[H1 H2]]; [now left|].
    right. split; [now right | exact H2].
Qed.

Lemma In_dropWhile (p : N -> bool) (s : jsstring) (c : N) :
  In c (dropWhile p s) -> In c s.
Proof.
  destruct (Words.dropWhile_split p s) as (a & Ha & _).
  intros H. rewrite Ha. apply in_or_app. now right.
Qed.

Lemma In_stripDashes (t : jsstring) (c : N) : In c (stripDashes t) -> In c t.
Proof.
  unfold stripDashes. intros H. apply in_rev in H.
  apply In_dropWhile in H. apply in_rev in H.
  now apply In_dropWhile in H.
Qed.

Lemma In_trim (s : jsstring) (c : N) : In c (trim s) -> In c s.
Proof.
  unfold trim. intros H.
  now apply ResponseFacts.In_trimStart, ResponseFacts.In_trimEnd.
Qed.

Lemma stripDashes_ends (t : jsstring) :
  (forall c r, stripDashes t = c :: r -> isDash c = false) /\
  (forall c r, rev (stripDashes t) = c :: r -> isDash c = false).
Proof.
  unfold stripDashes. split.
  - intros c r H.
    destruct (Words.dropEnd_split isDash (dropWhile isDash t))
      as (tl & Htl & _).
    rewrite H in Htl.
    destruct (dropWhile isDash t) as [|d r'] eqn:Ed; [discriminate|].
    injection Htl as -> _. exact (LengthRepair.dropWhile_head _ _ Ed).
  - intros c r H. rewrite rev_involutive in H.
    exact (LengthRepair.dropWhile_head _ _ H).
Qed.

(** X21.  What the two normalisers give.  A keyword of an anchor has five
    code units or more, all of them lower-case ASCII letters, digits or
    apostrophes.  A token of [normalizeTokens] is made of lower-case ASCII
    letters, digits and dashes only, and neither begins nor ends with a
    dash. *)
Theorem normalisers_give_plain_words (s : jsstring) :
  (forall k, In k (keywordsFromAnchor s) ->
             5 <= length k /\
             forall c, In c k -> isLowerAlnum c || (c =? 39)%N = true) /\
  (forall t, In t (normalizeTokens s) ->
             (forall c, In c t -> isLowerAlnum c || isDash c = true) /\
             (forall c r, t = c :: r -> isDash c = false) /\
             (forall c r, rev t = c :: r -> isDash c = false)).
Proof.
  split.
  - intros k Hk. unfold keywordsFromAnchor in Hk. cbv zeta in Hk.
    apply filter_In in Hk. destruct Hk as [Hk Hlen].
    apply filter_In in Hk. destruct Hk as [Hk _].
    split; [now apply Nat.leb_le|].
    intros c Hc.
    destruct (IntentionFacts.splitSpaces_pieces _ _ _ Hk Hc) as [Hs Hin].
    apply filter_In in Hin. destruct Hin as [_ Hin].
    rewrite Hs in Hin. now rewrite orb_false_r in Hin.
  - intros t Ht. unfold normalizeTokens in Ht. cbv zeta in Ht.
    apply in_map_iff in Ht. destruct Ht as (p & <- & Hp).
    apply filter_In in Hp. destruct Hp as [Hp _].
    split; [|apply stripDashes_ends].
    intros c Hc. apply In_stripDashes in Hc.
    destruct (splitOn_pieces _ _ _ _ Hp Hc) as [Hne Hin].
    apply In_trim, In_collapse in Hin.
    destruct Hin as [->|[Hin Hs]]; [congruence|].
    apply in_map_iff in Hin. destruct Hin as (d & Hd & _).
    destruct (isLowerAlnum d || isSpace d || isDash d) eqn:E.
    + subst d. rewrite Hs in E. now rewrite orb_false_r in E.
    + congruence.
Qed.

End NormalForm.

(* ------------------------------------------------------------------ *)
(** * Where a returned text comes from *)
(* ------------------------------------------------------------------ *)

Module Origin.

Import Validate Engine Notions RunFacts.

Lemma needsRepair_not_false (cov : Coverage) (hits wc sc : nat)
    (text intention : jsstring) :
  needsRepair cov hits wc sc text intention <> Ok false.
Proof.
  unfold needsRepair, lookslikeThemeDump.
  destruct (_ || _); discriminate.
Qed.

Section Paths.

Variable env : Env.
Variable input : CardGenInput.
Variable role : Role.
Variable canonLines : list jsstring.
Variable anchors : list jsstring.

Lemma repairRounds_origin (rounds : nat) :
  forall calls working reason res calls',
    repairRounds env role anchors rounds calls working reason = (res, calls') ->
    match res with
    | RoundsReturn w =>
        newestReply env calls' isRewrite w /\ fullyCovered anchors w
    | RoundsDone w =>
        (rounds = 0 /\ calls' = calls /\ w = working) \/
        newestReply env calls' isRewrite w
    | RoundsThrew _ => True
    end.
Proof.
  induction rounds as [|k IH]; intros calls working reason res calls' H;
    cbn [repairRounds] in H.
  - injection H as <- <-. left. auto.
  - unfold ask in H.
    destruct (bind _ _) as [w|m] eqn:E.
    + apply checked_reply_valid in E. destruct E as (raw & Hraw & Hp & _).
      assert (Hnew : newestReply env (RepairRewrite working reason :: calls)
                                 isRewrite w).
      { exists (RepairRewrite working reason), calls, raw. auto. }
      destruct (_ && _) eqn:Ec.
      * injection H as <- <-. split; [exact Hnew|].
        apply andb_true_iff in Ec. destruct Ec as [Ec _].
        apply andb_true_iff in Ec. destruct Ec as [Ec _].
        apply andb_true_iff in Ec. destruct Ec as [Ec _].
        now apply Nat.eqb_eq in Ec.
      * apply IH in H. destruct res as [w'|m'|w']; [exact H|exact I|].
        right. destruct H as [(_ & -> & ->)|H]; [exact Hnew | exact H].
    + injection H as <- <-. exact I.
Qed.

Lemma tryDraft_origin (raw : jsstring) (calls calls' : Calls) (t : jsstring) :
  tryDraft env input role anchors raw calls = (TryReturn t, calls') ->
  newestReply env calls' isRewrite t /\ fullyCovered anchors t.
Proof.
  unfold tryDraft.
  destruct (parseJsonOnly raw) as [text|m]; [|discriminate].
  destruct (validateText text role HARD) as [[]|m]; [|discriminate].
  cbv zeta.
  destruct (needsRepair _ _ _ _ _ _) as [[|]|m] eqn:En;
    [|now apply needsRepair_not_false in En|discriminate].
  destruct (repairRounds _ _ _ _ _ _ _) as [rr calls2] eqn:Er.
  apply repairRounds_origin in Er.
  destruct rr as [w|m|w].
  - now intros [= <- <-].
  - discriminate.
  - destruct (Nat.eqb _ _) eqn:Ec; [|discriminate].
    intros [= <- <-]. destruct Er as [(Er & _)|Er]; [discriminate|].
    split; [exact Er | now apply Nat.eqb_eq in Ec].
Qed.

Lemma lengthRepair_origin (text t : jsstring) (calls calls' : Calls) :
  lengthRepair env input role canonLines text calls = (Ok t, calls') ->
  exists parsed,
    newestReply env calls' isMicroRepair parsed /\
    t = padSentence3ToMinWords parsed role
          (extractThemesFromCanonLines canonLines)
          (intentionQuote (intentionText input)) MIN_WORDS.
Proof.
  unfold lengthRepair, ask, bind.
  destruct (ollamaChat env _ _) as [raw|] eqn:Hraw; [|discriminate].
  destruct (parseJsonOnly raw) as [p|] eqn:Hp; [|discriminate].
  cbv zeta.
  destruct (validateText _ role HARD) as [[]|]; [|discriminate].
  intros [= <- <-]. exists p. split; [|reflexivity].
  exists (MicroRepairForLength text), calls, raw. auto.
Qed.

Lemma attempt_origin (st : LoopState) (out : CardGenOutput) (calls' : Calls) :
  attempt env input role canonLines anchors st = Returned out calls' ->
  loopReturn env input role canonLines anchors out calls'.
Proof.
  unfold attempt, ask.
  destruct (ollamaChat env _ _) as [raw|]; [|discriminate].
  destruct (tryDraft _ _ _ _ _ _) as [[t|m text|w cov] calls2] eqn:E.
  - intros [= <- <-]. left. now apply tryDraft_origin in E.
  - unfold catchBlock. cbv zeta.
    destruct (truthy text && isWordCountError m); [|discriminate].
    destruct (lengthRepair _ _ _ _ _ _) as [[t|e] c1] eqn:El; [|discriminate].
    intros [= <- <-]. right. now apply lengthRepair_origin in El.
  - discriminate.
Qed.

Lemma draftLoop_origin (attempts : nat) :
  forall st out calls',
    draftLoop env input role canonLines anchors attempts st =
      Returned out calls' ->
    loopReturn env input role canonLines anchors out calls'.
Proof.
  induction attempts as [|k IH]; intros st out calls'; cbn [draftLoop];
    [discriminate|].
  destruct (attempt _ _ _ _ _ _) as [o c|m c|st'] eqn:E.
  - intros [= <- <-]. eapply attempt_origin, E.
  - discriminate.
  - apply IH.
Qed.

Lemma finalFallback_origin (st : LoopState) (out : CardGenOutput)
    (calls' : Calls) :
  finalFallback env input role st = (Ok out, calls') ->
  newestReply env calls' isMicroRepair (text out) \/
  (calls' = calls st /\ lastText st = Some (text out) /\
   inTargetBand (wordCount (text out)) = true).
Proof.
  unfold finalFallback, ask. cbv zeta.
  destruct (lastText st) as [lt|]; [|discriminate].
  destruct (truthy lt); [|discriminate].
  destruct (validateText lt role HARD) as [[]|]; [|discriminate].
  rewrite band_tests.
  destruct (inTargetBand (wordCount lt)) eqn:Eb; cbn [negb].
  - intros [= <- <-]. right. auto.
  - destruct (bind _ _) as [w|m] eqn:E; [|discriminate].
    apply checked_reply_valid in E. destruct E as (raw & Hraw & Hp & _).
    intros [= <- <-]. left.
    exists (MicroRepairForLength lt), (calls st), raw. auto.
Qed.

End Paths.

(** X19.  Where a returned text comes from.  Whenever
    [generateCardMessage] returns, the text is one of three things: the
    parsed reply to the newest call, a rewrite, and it covers both anchors;
    or the parsed reply to the newest call, a micro-repair, as it is (final
    fallback) or after the padding in code (length-repair chain); or, with
    the attempts used up, the last recorded text, its word count inside the
    target band, with no further call.  The reply to a draft call is never
    returned from within the loop. *)
Theorem returned_text_origin (env : Env) (input : CardGenInput)
    (out : CardGenOutput) (calls : Calls) :
  generateCardMessage env input = (Ok out, calls) ->
  exists role meaning,
    Roles.roleFromIdKey (idKey input) = Ok role /\
    loadMajorMeaning env (cardId input) = Ok meaning /\
    let canonLines := buildCanonBlock meaning (isReversed input) in
    let anchors :=
      pickCanonAnchors meaning (isReversed input) (anchorSeed input) in
    (newestReply env calls isRewrite (text out) /\
     fullyCovered anchors (text out)) \/
    (exists parsed,
        newestReply env calls isMicroRepair parsed /\
        (text out = parsed \/
         text out = padSentence3ToMinWords parsed role
                      (extractThemesFromCanonLines canonLines)
                      (intentionQuote (intentionText input)) MIN_WORDS)) \/
    (exists st,
        attemptsExhausted env input st /\ calls = Engine.calls st /\
        lastText st = Some (text out) /\
        inTargetBand (wordCount (text out)) = true).
Proof.
  unfold generateCardMessage.
  destruct (Roles.roleFromIdKey (idKey input)) as [role|] eqn:Hrole;
    [|discriminate].
  destruct (loadMajorMeaning env (cardId input)) as [meaning|] eqn:Hload;
    [|discriminate].
  cbv zeta. unfold runLoop. intros H.
  exists role, meaning. split; [reflexivity|]. split; [reflexivity|].
  destruct (draftLoop _ _ _ _ _ _ _) as [o c|m c|st] eqn:E.
  - injection H as <- <-. apply draftLoop_origin in E.
    destruct E as [E|(parsed & Hn & Ht)]; [now left|].
    right. left. exists parsed. auto.
  - discriminate.
  - apply finalFallback_origin in H. destruct H as [H|(Hc & Hl & Hb)].
    + right. left. exists (text out). auto.
    + right. right. exists st. split; [|auto].
      exists role, meaning. auto.
Qed.

(** A valid draft that covers no anchor, rewritten into a text that covers
    both: the rewrite is returned. *)
Lemma returned_text_origin_witness :
  let calls :=
    [ RepairRewrite Samples.riversText
        (js "soft-checks: coverage=0/2, discouragedHits=0, wc=75, sc=25");
      DraftOnce ] in
  generateCardMessage Samples.rewrittenToPerfect Samples.pastRequest =
    (Ok (output Samples.pastRequest (nowISO Samples.rewrittenToPerfect)
                Samples.perfectText), calls) /\
  newestReply Samples.rewrittenToPerfect calls isRewrite Samples.perfectText.
Proof.
  cbv zeta.
  assert (Hrun :
    generateCardMessage Samples.rewrittenToPerfect Samples.pastRequest =
    (Ok (output Samples.pastRequest (nowISO Samples.rewrittenToPerfect)
                Samples.perfectText),
     [ RepairRewrite Samples.riversText
         (js "soft-checks: coverage=0/2, discouragedHits=0, wc=75, sc=25");
       DraftOnce ])) by (vm_compute; reflexivity).
  split; [exact Hrun|].
  destruct (returned_text_origin _ _ Hrun)
    as (role & meaning & Hr & Hm & [[H _]|[H|H]]).
  - exact H.
  - destruct H as (parsed & (c & rest & raw & Hc & Hk & _) & _).
    injection Hc as <- <-. discriminate.
  - destruct H as (st & (r' & m' & Hr' & Hm' & Hloop) & _).
    vm_compute in Hr'. injection Hr' as <-.
    vm_compute in Hm'. injection Hm' as <-.
    vm_compute in Hloop. discriminate.
Defined.

End Origin.
